(* ===== verification/_CoqProject ===== *)
-Q . S2P
Prelude.v
Config.v
Routes.v
App.v
DeadPeers.v
WorkQueue.v
Gossip.v
GossipInv.v
GossipProps.v
Refresh.v
System.v
SystemInv.v
SystemProps.v
Notify.v
NotifyProps.v
Search.v
SearchInv.v
SearchProps.v
Wire.v
Node.v
