(* ===== verification/Prelude.v ===== *)
(** * A verification development of chord_federation_service

    The repository is a small Tornado (single-threaded, cooperative
    asyncio) web service that lets nodes ("peers") of a CHORD/Bento
    federation discover each other by gossip and fan a search query out
    to every known peer.  The part of the code that holds the protocol is
    [src/chord_federation/app.py]; [src/bento_federation_service/app.py]
    and [src/chord_federation_service/constants.py] are the later
    package's route table and configuration constants.

    ** The program's parts and how they interact

    - Peer registry: the sqlite table [peers(url)], read with
      [SELECT url FROM peers] and written with [INSERT OR IGNORE]
      ([init_db], [PeerHandler.post], [Application.get_peers]).
    - Dead-peer cache: the dict [Application.last_errored] from peer URL
      to the time stamp of its last failed contact, consulted with the
      30 s window [LAST_ERRORED_CACHE_TIME].
    - In-flight sets: [Application.contacting] (outbound gossip) and
      [Application.notifying] (inbound notifies).
    - Work queue: [tornado.queues.Queue] with [put], [get] (through
      [async for]), [task_done] and [join]; library code, modelled from
      its documented behaviour.
    - Gossip engine: [Application.get_peers] seeds a queue with the
      registry and runs [WORKERS] = 10 coroutines [peer_worker]; each
      dequeues a candidate, skips it when dead or already attempted,
      POSTs a notify to it, GETs its peer list and enqueues the peers it
      had not seen.
    - Refresh policy: the guard of [get_peers] (one hour staleness,
      [peer_cache_invalidated], [fetching_peers]).
    - Notification handler: [PeerHandler.post].
    - Federated search: [SearchHandler.post] and [search_worker].
    - Endpoints and startup: [PeerHandler.get] and
      [ServiceInfoHandler.get] (both may call [get_peers]), the route
      tables of both applications, the packaged service's constants, the
      bootstrap of the sqlite file at import (lines 23-56) and the [run]
      functions that refuse to start without the node's URLs.

    The coroutines interleave only at [await] points.  The development
    models every coroutine as a program counter (the [await] it is
    suspended at) plus its locals, and every piece of code between two
    suspension points as one atomic step function, as Python runs it.

    ** Files (in dependency order, see _CoqProject)

    - [Prelude]: this header, the [fed_scope] notations, Python's set
      operations that can raise ([set.remove]), the [fed] hint database,
      the development's tactics and shared lemmas on sets and lists.
    - [Config]: Module [Constants], the globals of
      [src/chord_federation_service/constants.py] computed from the
      environment ([load_constants]), with the string functions they
      call ([str.lower], [str.strip], [os.path.join], [urlparse]).
    - [Routes]: the route tables of both applications
      ([chord_routes], [bento_routes]) with Tornado's first-match
      routing ([find_route]), their service-info documents, the Bento
      post-start hook and the two [run] functions.
    - [App]: the constants of the code, the [Application] record (its
      [__init__] fields), and Module [Registry] for the [peers] table,
      with the bootstrap of the module's import: the database file
      ([dbfile]: absent, without or with a [peers] table), [init_db],
      [update_db] and the choice between them ([boot]).
    - [DeadPeers]: the dead-peer test of lines 235-236 and 128-129 and
      its update [last_errored[p] = now].
    - [WorkQueue]: the Tornado queue (items and unfinished-task count).
    - [Gossip]: [peer_worker] (lines 226-304) as three atomic resume
      functions ([worker_dequeue], [worker_post_done],
      [worker_get_done]), the per-cycle locals of [get_peers] as the
      record [cycle], the seeding [cycle_start] (lines 315-328) and the
      interleaving step relation [gossip_step].
    - [GossipInv]: the cycle invariant [cycle_inv] and its preservation
      by every step, by induction on [rtc gossip_step]; that a queued
      [null] stays in [peers_to_check_set]; the invariant [bodies_inv]
      of the notify bodies.
    - [GossipProps]: claims C3, C4, C8-C11, C19 and C23-C25 on the
      gossip cycle.
    - [Refresh]: the guard of lines 310-311 ([needs_refresh]), the flag
      updates at the start and the end of a refresh ([refresh_begin],
      [refresh_finish], lines 312-338) and the sentinels (340-342).
    - [System]: the whole process as far as [get_peers] goes: the
      [Application] state, the clock and every [get_peers] invocation
      ([caller]: joining its cycle, draining its workers, or returned),
      each with its own pool of workers; [sys_step] resumes one of them.
    - [SystemInv]: the invariant of every reachable process state by
      rule induction: [sys_core] (one joining cycle at most,
      [fetching_peers] set exactly then, the joining cycle's invariant)
      and [sys_inv], which adds that the registry stays constant; a
      call whose cycle queued a [null] stays joining ([stalled]).
    - [SystemProps]: claims C2, C5, C12 and C13.
    - [Notify]: [PeerHandler.post] (lines 94-163) as a coroutine
      suspended at each service-info fetch: [notify_start] runs to the
      first fetch, [notify_resume] from a fetch's return to the next,
      both through [notify_loop]; [notify_drive] runs one handler with
      no other coroutine in between, and [notify_seq] is the same loop
      as straight-line code, proved equal to it with enough fuel.
    - [NotifyProps]: claims C14-C18.
    - [Search]: [SearchHandler] (lines 166-223): the queue, ten
      [search_worker] program counters, the shared [responses] list and
      the handler's program counter, with [search_step] resuming one.
    - [SearchInv]: the invariant of a search, the aggregate of the
      answered peers, and progress.
    - [SearchProps]: claims C6, C7 and C20-C22.
    - [Wire]: [PeerHandler.get] (lines 85-92) with what a remote worker
      reads of it, the [update_peers] branch of the service-info
      endpoint, and the type the packaged release announces; claim C26.
    - [Node]: the whole event loop of one node: the [get_peers] system
      and every notify handler received so far ([node]), a step resuming
      one of them ([node_resume]), started from the bootstrap
      ([process_init]); the invariant [node_inv] (the core of
      [SystemInv] and the gating of the registry); claim C1.
    Claims C27 ([Config]) and C28-C29 ([Routes]) are on the packaged
    service's configuration and route tables.

    ** What the theorems show

    - Node (C1): with notifies interleaved between the steps of any
      number of [get_peers] calls, at most one gossip cycle runs, the
      registry only grows from the one the bootstrap left (seeded with
      the node's URLs when the file had no [peers] table), every URL
      added to it was verified by its service-info and is not the
      node's own, and every [get_peers] call returns a set between the
      two.
    - Process (C2, C5, C12, C13): at most one gossip cycle at a time; a
      single [null] in a peer's list stalls the call that queued it for
      good, and with it all later gossip of the node; [get_peers] never
      changes the registry (the discovered peers are lost, line 289);
      no step of [get_peers] clears [peer_cache_invalidated].
    - Gossip (C3, C4, C8-C11, C19, C23-C25): the cycle invariant holds
      in every interleaving, peer lists holding [null] included; [join]
      returns exactly when nothing is queued or in flight and no [null]
      was queued; the race branch of [peer_worker] (lines 250-253) is
      dead code; the only exception a worker can raise comes from an
      unhashable peer list; no peer is notified twice, the node never
      notifies itself, and every notify carries the registry; dead peers
      are skipped and live ones contacted; the loop of lines 292-296
      enqueues exactly the unseen entries.
    - Search (C6, C7, C20-C22): the response aggregates every peer
      exactly once, each peer's results kept in order; a state where
      nothing can run has the response written or the exception of
      line 210; it fails only on a body without results, and then the
      ten workers leak; the pool and the shared lists stay within their
      bounds.
    - Notify (C14-C18): type-tag gating over every partial run; the
      contract of an accepted notify; duplicate suppression while a
      notify is in flight; a 500 inside the loop leaves the sender in
      [notifying] for good; a resumed handler overwrites an invalidation
      set meanwhile by another.
    - Wire, configuration and routes (C26-C29): the packaged service's
      type never passes the notify type test; [CHORD_URLS_SET]; both
      route tables are unambiguous; the federation endpoints exist only
      in federation mode.

    ** Bounds and fuel

    - [notify_drive] takes one unit of fuel per fetch; a list with [n]
      entries left makes at most [n] fetches, so fuel [n] is enough for
      the handler to answer ([notify_drive_loop], C15, C18).
    - Concrete schedules in the examples are lists of events evaluated
      by [vm_compute]; the interleaving relations themselves are
      unbounded.
    - In [Node] a peer's service-info reply is a fixed function [info]
      of its URL: a node's type does not change while it runs.

    ** Modelling choices

    - Time stamps ([datetime.now().timestamp()], floats in seconds) are
      integers [Z]; the dead-peer window compares their difference with
      [LAST_ERRORED_CACHE_TIME] exactly as the code does.  A handler run
      by [notify_drive] sees one time for all its fetches.
    - Peer URLs are [string]s; Python sets of URLs are [gset string],
      the dict [last_errored] is [gmap string Z]; the iteration order of
      a Python set is an argument ([order], [peers]).  The entries of a
      peer list a worker reads are strings or JSON [null]
      ([option string]), so the sets they reach ([peers_to_check_set],
      a worker's [peers]) are [gset (option string)].
    - [last_peers_update] holds the naive UTC wall time
      ([datetime.utcnow()]); its [.timestamp()] (line 92) is shifted by
      the host's UTC offset, a parameter of [Wire.peers_get].
    - Strings of the configuration are sequences of code points below
      256; [str.strip] and [str.lower] are modelled on them.
    - Replies of remote peers are values of reply types that list the
      outcomes the code distinguishes (the fetch raises; the body cannot
      be read as the expected JSON; a usable value), never a stub.
    - An exception that escapes a handler is a final state with status
      500 ([NDone 500], [HFailed]); one that escapes a worker is the
      program counter [WCrashed].

    ** Not modelled

    - The sqlite schema script: schema.sql is not in the repository,
      so the [peers] table it creates is a parameter ([schema_peers]) of
      [Registry.boot].  A [CHORD_URL] missing from the environment
      ([None], inserted as NULL by [init_db]) is not modelled: the
      configuration holds strings.
    - Sockets and the start of the I/O loop (lines 375-377): I/O with no
      state of the program.
    - The handlers, [PeerManager] and constants the Bento application
      imports: their modules are not in the repository; its constants
      are the fields of [Routes.bento_config].
    - JSON encoding: a message is modelled by what the reader does with
      it (a list of URLs and [null]s, a body with or without [results]),
      not as text.  Entries of a peer list that are numbers or booleans,
      and non-string scalar entries of a notify body, are not modelled.
    - The [except IndexError] of the notify handler (lines 160-163): a
      body that cannot be parsed is the request [NRMalformed], answered
      500; nothing in the [try] block indexes a sequence by an integer,
      so no [IndexError] and no 400 is modelled.
    - Database commits: every statement is modelled as committed at once;
      the code commits before each await that could observe it.
    - Termination of a gossip cycle: the cycle can run as long as peers
      keep reporting new ones; no measure is proved for it. *)

From stdpp Require Export base gmap sets list strings.
From Stdlib Require Export ZArith Lia.

Declare Scope fed_scope.
Delimit Scope fed_scope with fed.
Open Scope fed_scope.

(** Python's [s.union(l)] for a set [s] and an iterable [l]. *)
Notation "s ∪+ l" := (s ∪ list_to_set l)
  (at level 50, left associativity) : fed_scope.

(** Python's [s.remove(x)]: raises [KeyError] when [x] is absent. *)
Definition py_remove `{Countable A} (x : A) (s : gset A) : option (gset A) :=
  if decide (x ∈ s) then Some (s ∖ {[x]}) else None.

(** Whether every character of a string satisfies [f]. *)
Fixpoint string_forallb (f : Ascii.ascii -> bool) (s : string) : bool :=
  match s with EmptyString => true | String c r => f c && string_forallb f r end.

(** Python's [s.add(x)]. *)
Definition py_add `{Countable A} (x : A) (s : gset A) : gset A := {[x]} ∪ s.

Create HintDb fed.
Create Rewrite HintDb fed_rw.

(** * Shared lemmas *)

Section py_sets.
Context `{Countable A}.
Implicit Types (x y : A) (s : gset A).

Lemma py_remove_Some x s s' :
  py_remove x s = Some s' <-> x ∈ s /\ s' = s ∖ {[x]}.
Proof. unfold py_remove. case_decide; split; naive_solver. Qed.

Lemma py_remove_present x s : x ∈ s -> py_remove x s = Some (s ∖ {[x]}).
Proof. intros. by apply py_remove_Some. Qed.

Lemma py_remove_absent x s : x ∉ s -> py_remove x s = None.
Proof. unfold py_remove. by case_decide. Qed.

Lemma elem_of_py_add x y s : y ∈ py_add x s <-> y = x \/ y ∈ s.
Proof. unfold py_add. set_solver. Qed.

Lemma elem_of_union_list s l x : x ∈ s ∪+ l <-> x ∈ s \/ x ∈ l.
Proof. rewrite elem_of_union, elem_of_list_to_set. done. Qed.

End py_sets.

#[export] Hint Resolve py_remove_present py_remove_absent : fed.
#[export] Hint Rewrite @elem_of_py_add @elem_of_union_list : fed_rw.

(** [NoDup] of a list with one element removed in the middle. *)
Lemma NoDup_app_cons_inv {A} (l1 l2 : list A) x :
  NoDup (l1 ++ x :: l2) -> NoDup (l1 ++ l2) /\ x ∉ l1 ++ l2.
Proof.
  rewrite !NoDup_app, NoDup_cons. intros (H1 & H2 & H3 & H4).
  split; [split; [done | split; [|done]]|].
  - intros y Hy Hy'. apply (H2 y Hy). set_solver.
  - rewrite elem_of_app. intros [Hx|Hx]; [|done]. apply (H2 x Hx). set_solver.
Qed.

(** [omap] over a list updated at an index in range, up to order. *)
Lemma omap_insert_perm {A B} (f : A -> option B) (l : list A) i x y :
  l !! i = Some x -> omap f (<[i:=y]> l) ++ omap f [x] ≡ₚ omap f l ++ omap f [y].
Proof.
  revert i. induction l as [|z l IH]; intros [|i] Hi; simplify_eq/=.
  - destruct (f x), (f y); simpl; rewrite ?app_nil_r; solve_Permutation.
  - destruct (f z); simpl; [f_equiv|]; by apply IH.
Qed.

(** Splits a hypothesis [<[i:=x]> l !! j = Some y] into the updated
    index ([i = j], [x = y]) and the others. *)
Ltac lookup_insert_cases H :=
  let E := fresh "E" in let L := fresh "L" in
  apply list_lookup_insert_Some in H as [(E & H & L)|(E & H)]; [subst; simplify_eq|].

(** Simplifies the Python set operations of a hypothesis or goal. *)
Ltac fed_simpl :=
  repeat match goal with
  | H : py_remove _ _ = Some _ |- _ =>
      let Hin := fresh "Hin" in
      apply py_remove_Some in H; destruct H as [Hin H]; subst
  | |- context [py_add _ _] => unfold py_add
  | H : context [py_add _ _] |- _ => unfold py_add in H
  end.
