(* ===== verification/Config.v ===== *)
(** * Config: the constants of the packaged service

    [src/chord_federation_service/constants.py] (lines 36-58) reads the
    service's configuration from the environment when the module is
    imported.  Module [Constants] models the environment as a function
    from variable names to [option string] ([os.environ.get]) and the
    module's globals as the record [constants] computed by
    [load_constants] from the environment, the working directory and
    the package version.

    The string functions the module calls are modelled on strings whose
    characters are the code points below 256 (a [Stdlib] [ascii] is one
    of them): [str.lower] ([py_lower]), [str.strip] ([py_strip], the
    characters [str.isspace] accepts: \t to \r, \x1c to \x1f, space,
    \x85 and \xa0), [os.path.join] with two arguments ([path_join]) and
    the [netloc] of [urllib.parse.urlparse] ([url_netloc]). *)

From Stdlib Require Import Ascii.
From S2P Require Import Prelude.

Module Constants.

(** [os.environ]: [env x] is [os.environ.get(x)]. *)
Definition environ := string -> option string.

Definition env_get (env : environ) (x d : string) : string := default d (env x).

(** [str.lower] below U+0100: A-Z and U+00C0-U+00DE but U+00D7 map to
    the code point 32 above. *)
Fixpoint py_lower (s : string) : string :=
  match s with
  | EmptyString => EmptyString
  | String c r =>
      let n := Ascii.nat_of_ascii c in
      String (if ((65 <=? n) && (n <=? 90)) || ((192 <=? n) && (n <=? 222) && negb (n =? 215))
              then Ascii.ascii_of_nat (n + 32) else c) (py_lower r)
  end.

(** The characters [str.strip()] removes below U+0100, those
    [str.isspace] accepts: \t, \n, \x0b, \x0c, \r, \x1c-\x1f, space,
    \x85 and \xa0. *)
Definition is_space (c : Ascii.ascii) : bool :=
  let n := Ascii.nat_of_ascii c in
  ((9 <=? n) && (n <=? 13)) || ((28 <=? n) && (n <=? 32)) || (n =? 133) || (n =? 160).

Fixpoint py_lstrip (s : string) : string :=
  match s with
  | EmptyString => EmptyString
  | String c r => if is_space c then py_lstrip r else s
  end.

Fixpoint py_rstrip (s : string) : string :=
  match s with
  | EmptyString => EmptyString
  | String c r =>
      let r' := py_rstrip r in
      if is_space c && String.eqb r' EmptyString then EmptyString else String c r'
  end.

(** [str.strip()]. *)
Definition py_strip (s : string) : string := py_rstrip (py_lstrip s).

(** [os.path.join(a, b)] (posixpath): [b] when it is absolute. *)
Definition path_join (a b : string) : string :=
  match b with
  | String "/"%char _ => b
  | _ =>
      if String.eqb a EmptyString then b
      else if String.eqb (String.substring (String.length a - 1) 1 a) "/" then a ++ b
      else a ++ "/" ++ b
  end.

(** The characters of a URL scheme ([urllib.parse.scheme_chars]). *)
Definition is_scheme_char (c : Ascii.ascii) : bool :=
  let n := Ascii.nat_of_ascii c in
  ((97 <=? n) && (n <=? 122)) || ((65 <=? n) && (n <=? 90)) || ((48 <=? n) && (n <=? 57)) ||
  (n =? 43) || (n =? 45) || (n =? 46).

Definition is_alpha (c : Ascii.ascii) : bool :=
  let n := Ascii.nat_of_ascii c in ((97 <=? n) && (n <=? 122)) || ((65 <=? n) && (n <=? 90)).

(** [url[:i]] is a scheme: a letter first, scheme characters only. *)
Definition drop_scheme (url : string) : string :=
  match String.index 0 ":" url with
  | Some (S i) =>
      match url with
      | String c _ =>
          if is_alpha c && string_forallb is_scheme_char (String.substring 0 (S i) url)
          then String.substring (S (S i)) (String.length url) url else url
      | EmptyString => url
      end
  | _ => url
  end.

(** [url[2:delim]], [delim] the first of ['/'], ['?'], ['#'] after 2. *)
Fixpoint take_netloc (s : string) : string :=
  match s with
  | EmptyString => EmptyString
  | String c r => if decide (c = "/"%char \/ c = "?"%char \/ c = "#"%char) then EmptyString
                  else String c (take_netloc r)
  end.

(** [urllib.parse.urlparse(url).netloc]. *)
Definition url_netloc (url : string) : string :=
  match drop_scheme url with
  | String "/"%char (String "/"%char r) => take_netloc r
  | _ => EmptyString
  end.

(** Lines 36-58: the module's globals. *)
Record constants := mk_constants {
  BASE_PATH : string;
  CHORD_DEBUG : bool;
  CHORD_URL : string;
  CHORD_HOST : string;
  CHORD_REGISTRY_URL : string;
  OIDC_DISCOVERY_URI : option string;
  DB_PATH : string;
  SERVICE_TYPE : string;
  SERVICE_ID : string;
  SERVICE_SOCKET : string;
  SOCKET_INTERNAL : string;
  CHORD_URLS_SET : bool;
}.

Definition SERVICE_ORGANIZATION : string := "ca.c3g.chord".
Definition SERVICE_ARTIFACT : string := "federation".
Definition SOCKET_INTERNAL_DOMAIN : string := "nginx_internal".
Definition TIMEOUT : Z := 120.
Definition WORKERS : nat := 10.
Definition LAST_ERRORED_CACHE_TIME : Z := 30.

(** Line 46: [f"{SERVICE_ORGANIZATION}:{SERVICE_ARTIFACT}:{__version__}"]. *)
Definition service_type (version : string) : string :=
  SERVICE_ORGANIZATION ++ ":" ++ SERVICE_ARTIFACT ++ ":" ++ version.

(** Lines 36-54, in the order the module runs them. *)
Definition load_constants (env : environ) (cwd version : string) : constants :=
  let chord_url := env_get env "CHORD_URL" EmptyString in
  let registry := env_get env "CHORD_REGISTRY_URL" EmptyString in
  let stype := service_type version in
  {| BASE_PATH := env_get env "SERVICE_URL_BASE_PATH" EmptyString;
     CHORD_DEBUG := String.eqb (py_lower (env_get env "CHORD_DEBUG" "false")) "true";
     CHORD_URL := chord_url;
     CHORD_HOST := env_get env "CHORD_HOST"
                     (if String.eqb chord_url EmptyString then EmptyString else url_netloc chord_url);
     CHORD_REGISTRY_URL := registry;
     OIDC_DISCOVERY_URI := env "OIDC_DISCOVERY_URI";
     DB_PATH := path_join cwd (env_get env "DATABASE" "data/federation.db");
     SERVICE_TYPE := stype;
     SERVICE_ID := env_get env "SERVICE_ID" stype;
     SERVICE_SOCKET := env_get env "SERVICE_SOCKET" "/tmp/federation.sock";
     SOCKET_INTERNAL := env_get env "SOCKET_INTERNAL" "/var/run/nginx.sock";
     CHORD_URLS_SET := negb (String.eqb (py_strip chord_url) EmptyString) && negb (String.eqb (py_strip registry) EmptyString);
  |}.

(** * [str.strip] *)

Lemma py_rstrip_empty s : py_rstrip s = EmptyString <-> string_forallb is_space s = true.
Proof.
  induction s as [|c r IH]; simpl; [done|].
  destruct (is_space c) eqn:Hc; simpl.
  - rewrite <-IH. destruct (py_rstrip r); simpl; split; done.
  - split; done.
Qed.

Lemma py_lstrip_spaces s : string_forallb is_space (py_lstrip s) = string_forallb is_space s.
Proof. induction s as [|c r IH]; simpl; [done|]. destruct (is_space c) eqn:Hc; simpl; by rewrite ?IH, ?Hc. Qed.

(** [s.strip()] is empty exactly when every character of [s] is
    whitespace. *)
Lemma py_strip_empty s : String.eqb (py_strip s) EmptyString = string_forallb is_space s.
Proof.
  unfold py_strip. rewrite <-py_lstrip_spaces.
  destruct (String.eqb_spec (py_rstrip (py_lstrip s)) EmptyString) as [H|H].
  - apply py_rstrip_empty in H. by rewrite H.
  - destruct (string_forallb is_space (py_lstrip s)) eqn:Hs; [|done].
    by apply py_rstrip_empty in Hs.
Qed.

Lemma env_get_nonblank env x :
  string_forallb is_space (env_get env x EmptyString) = false <->
  exists u, env x = Some u /\ string_forallb is_space u = false.
Proof. unfold env_get. destruct (env x) as [u|]; simpl; split; naive_solver. Qed.

(** * Claims *)

(** C27: [CHORD_URLS_SET] (line 54) holds exactly when both
    [CHORD_URL] and [CHORD_REGISTRY_URL] are set to a value with a
    character that is not whitespace. *)
Theorem chord_urls_set_spec env cwd version :
  CHORD_URLS_SET (load_constants env cwd version) = true <->
  (exists u, env "CHORD_URL" = Some u /\ string_forallb is_space u = false) /\
  (exists r, env "CHORD_REGISTRY_URL" = Some r /\ string_forallb is_space r = false).
Proof.
  simpl. rewrite !py_strip_empty, andb_true_iff, !negb_true_iff, !env_get_nonblank. done.
Qed.

End Constants.
