(* ===== verification/Routes.v ===== *)
(** * Routes: the route tables and the start of the two applications

    [src/chord_federation/app.py] registers three handlers under its
    [base_url] (lines 358-362) and [run] refuses to start without
    [CHORD_URL] (lines 370-373).  [src/bento_federation_service/app.py]
    registers four handlers, and four more in federation mode
    (lines 78-92), and [run] refuses to start unless [CHORD_URLS_SET]
    (lines 101-104).  The constants the Bento application imports come
    from a [constants] module that is not in the repository; they are the
    fields of [bento_config].

    A route is a pattern and a handler.  Tornado matches the request
    path against each pattern in turn, anchored at both ends, and calls
    the handler of the first that matches with the captured groups.  The
    patterns of both tables are a literal path or a literal prefix
    followed by one group [([a-zA-Z0-9\-_]+)] or [([a-zA-Z0-9\-_/]+)];
    [base_path] is taken as literal text. *)

From S2P Require Import Prelude.

Module Routes.

Inductive handler_kind :=
  | HServiceInfo
  | HPostStartHook
  | HDatasetSearch
  | HPrivateDatasetSearch
  | HPeer
  | HPeerRefresh
  | HFederatedDatasetSearch
  | HSearch.

#[export] Instance handler_kind_eq_dec : EqDecision handler_kind.
Proof. solve_decision. Defined.

(** [PCapture pre slash]: [pre] followed by one group of letters,
    digits, [-], [_] and, when [slash], [/]. *)
Inductive pattern :=
  | PLit (s : string)
  | PCapture (pre : string) (slash : bool).

Definition is_group_char (slash : bool) (c : Ascii.ascii) : bool :=
  let n := Ascii.nat_of_ascii c in
  ((97 <=? n) && (n <=? 122)) || ((65 <=? n) && (n <=? 90)) || ((48 <=? n) && (n <=? 57)) ||
  (n =? 45) || (n =? 95) || (slash && (n =? 47)).

(** The rest of [path] after the literal [pre], if it starts with it. *)
Fixpoint strip_prefix (pre path : string) : option string :=
  match pre, path with
  | EmptyString, _ => Some path
  | String c pre', String d path' => if decide (c = d) then strip_prefix pre' path' else None
  | String _ _, EmptyString => None
  end.

(** [re.match(pattern + "$", path)]: the captured groups. *)
Definition route_match (p : pattern) (path : string) : option (list string) :=
  match p with
  | PLit s => match strip_prefix s path with Some EmptyString => Some [] | _ => None end
  | PCapture pre slash =>
      match strip_prefix pre path with
      | Some (String c r) => if string_forallb (is_group_char slash) (String c r) then Some [String c r] else None
      | _ => None
      end
  end.

Definition route := (pattern * handler_kind)%type.

(** The first route whose pattern matches, with its groups. *)
Fixpoint find_route (table : list route) (path : string) : option (handler_kind * list string) :=
  match table with
  | [] => None
  | (p, h) :: t => match route_match p path with Some args => Some (h, args) | None => find_route t path end
  end.

(** [f"{base_path}..."]. *)
Definition with_base (base : string) (r : route) : route :=
  match r.1 with
  | PLit s => (PLit (base ++ s), r.2)
  | PCapture pre slash => (PCapture (base ++ pre) slash, r.2)
  end.

(** Lines 358-362 of [src/chord_federation/app.py], without the base. *)
Definition chord_table : list route :=
  [(PLit "/service-info", HServiceInfo); (PLit "/peers", HPeer);
   (PCapture "/search-aggregate/" true, HSearch)].

Definition chord_routes (base_url : string) : list route := map (with_base base_url) chord_table.

(** The constants [src/bento_federation_service/app.py] imports. *)
Record bento_config := mk_bento_config {
  BENTO_FEDERATION_MODE : bool;
  INITIALIZE_IMMEDIATELY : bool;
  CHORD_URLS_SET : bool;
  BASE_PATH : string;
  SERVICE_ID : string;
  SERVICE_TYPE : string;
  SERVICE_NAME : string;
}.

(** The GA4GH service-info document both applications write. *)
Record service_info := mk_service_info {
  si_id : string;
  si_name : string;
  si_type : string;
  si_description : string;
  si_organization : string * string;
  si_contact_url : string;
  si_version : string;
}.

(** Lines 69-80 of [src/chord_federation/app.py]. *)
Definition chord_service_info (version : string) : service_info :=
  mk_service_info "ca.distributedgenomics.chord_federation" "CHORD Federation"
    ("ca.distributedgenomics:chord_federation:" ++ version)
    "Federation service for a CHORD application." ("GenAP", "https://genap.ca/")
    "mailto:david.lougheed@mail.mcgill.ca" version.

(** Lines 31-45 of [src/bento_federation_service/app.py]. *)
Definition bento_service_info (c : bento_config) (version : string) : service_info :=
  mk_service_info (SERVICE_ID c) (SERVICE_NAME c) (SERVICE_TYPE c)
    "Federation service for a Bento platform node." ("C3G", "http://www.computationalgenomics.ca")
    "mailto:david.lougheed@mail.mcgill.ca" version.

(** Lines 48-67 of [src/bento_federation_service/app.py]: whether the
    post-start hook calls [get_peers], and the status the handler
    answers. *)
Definition post_start_hook (c : bento_config) : bool * nat := (BENTO_FEDERATION_MODE c, 204).

(** Lines 78-92 of [src/bento_federation_service/app.py], without the base. *)
Definition bento_table (federation_mode : bool) : list route :=
  [(PLit "/service-info", HServiceInfo); (PLit "/private/post-start-hook", HPostStartHook);
   (PLit "/dataset-search", HDatasetSearch);
   (PCapture "/private/dataset-search/" false, HPrivateDatasetSearch)] ++
  (if federation_mode then
     [(PLit "/peers", HPeer); (PLit "/private/peers/refresh", HPeerRefresh);
      (PLit "/federated-dataset-search", HFederatedDatasetSearch);
      (PCapture "/search-aggregate/" true, HSearch)]
   else []).

Definition bento_routes (c : bento_config) : list route :=
  map (with_base (BASE_PATH c)) (bento_table (BENTO_FEDERATION_MODE c)).

Definition federation_handler (h : handler_kind) : bool :=
  match h with HPeer | HPeerRefresh | HFederatedDatasetSearch | HSearch => true | _ => false end.

(** Two patterns no path matches both of: distinct literals; a literal
    the group pattern does not match; group patterns none of whose
    prefixes starts the other. *)
Definition disjoint (p q : pattern) : bool :=
  match p, q with
  | PLit s, PLit t => negb (String.eqb s t)
  | PLit s, PCapture _ _ => negb (bool_decide (is_Some (route_match q s)))
  | PCapture _ _, PLit t => negb (bool_decide (is_Some (route_match p t)))
  | PCapture a _, PCapture b _ =>
      negb (bool_decide (is_Some (strip_prefix a b))) && negb (bool_decide (is_Some (strip_prefix b a)))
  end.

Fixpoint pairwise_disjoint (t : list route) : bool :=
  match t with
  | [] => true
  | r :: t' => forallb (fun r' => disjoint r.1 r'.1) t' && pairwise_disjoint t'
  end.

Inductive start_result :=
  | StartExit (code : nat)
  | StartServe.

(** Lines 370-377 of [src/chord_federation/app.py]: [CHORD_URL] is
    [os.environ.get("CHORD_URL")]. *)
Definition chord_run (chord_url : option string) : start_result :=
  match chord_url with None => StartExit 1 | Some _ => StartServe end.

(** Lines 101-108 of [src/bento_federation_service/app.py]. *)
Definition bento_run (c : bento_config) : start_result :=
  if CHORD_URLS_SET c then StartServe else StartExit 1.

(** * Matching *)

Lemma strip_prefix_app a b path :
  strip_prefix (String.append a b) path = strip_prefix a path ≫= strip_prefix b.
Proof.
  revert path. induction a as [|c a IH]; intros [|d path]; simpl; try done. by case_decide.
Qed.

Lemma route_match_with_base base r path :
  route_match (with_base base r).1 path = strip_prefix base path ≫= route_match r.1.
Proof.
  destruct r as [[s|pre slash] h]; unfold with_base; simpl; rewrite strip_prefix_app;
    by destruct (strip_prefix base path).
Qed.

Lemma find_route_with_base base t path :
  find_route (map (with_base base) t) path = strip_prefix base path ≫= find_route t.
Proof.
  induction t as [|[p h] t IH]; simpl; [by destruct (strip_prefix base path)|].
  pose proof (route_match_with_base base (p, h) path) as Hm.
  destruct (with_base base (p, h)) as [p' h'] eqn:Hw. simpl in Hm. rewrite Hm, IH.
  unfold with_base in Hw. destruct p; simplify_eq/=;
    destruct (strip_prefix base path); simpl; try done; by destruct (route_match _ _).
Qed.

Lemma strip_prefix_Some pre path rest : strip_prefix pre path = Some rest -> path = String.append pre rest.
Proof.
  revert path. induction pre as [|c pre IH]; intros [|d path]; simpl; try naive_solver.
  case_decide; [subst|done]. intros ->%IH. done.
Qed.

(** Two prefixes of one path: one is a prefix of the other. *)
Lemma strip_prefix_both a b path ra rb :
  strip_prefix a path = Some ra -> strip_prefix b path = Some rb ->
  is_Some (strip_prefix a b) \/ is_Some (strip_prefix b a).
Proof.
  revert b path. induction a as [|c a IH]; intros [|d b] [|e path]; simpl; try naive_solver.
  case_decide; [subst|done]. case_decide; [subst|done]. rewrite decide_True by done.
  apply IH.
Qed.

Lemma string_append_empty s : String.append s EmptyString = s.
Proof. induction s as [|c s IH]; [done|]. exact (f_equal (String c) IH). Qed.

Lemma route_match_Some p path args :
  route_match p path = Some args ->
  match p with PLit s => path = s | PCapture pre _ => is_Some (strip_prefix pre path) end.
Proof.
  destruct p as [s|pre slash]; simpl.
  - destruct (strip_prefix s path) as [[|]|] eqn:H; try done. intros _.
    apply strip_prefix_Some in H. by rewrite H, string_append_empty.
  - destruct (strip_prefix pre path) eqn:H; [by eauto|done].
Qed.

Lemma disjoint_sound p q path :
  disjoint p q = true -> is_Some (route_match p path) -> is_Some (route_match q path) -> False.
Proof.
  intros Hd [ap Hp] [aq Hq].
  pose proof (route_match_Some _ _ _ Hp) as Hp'. pose proof (route_match_Some _ _ _ Hq) as Hq'.
  destruct p as [s|a sa], q as [t|b sb]; cbn [disjoint] in Hd; simpl in Hp', Hq'; try subst path.
  - subst. by rewrite String.eqb_refl in Hd.
  - rewrite Hq in Hd. by rewrite bool_decide_eq_true_2 in Hd.
  - rewrite Hp in Hd. by rewrite bool_decide_eq_true_2 in Hd.
  - destruct Hp' as [ra Ha], Hq' as [rb Hb].
    apply andb_true_iff in Hd as [Hd1 Hd2]. apply negb_true_iff, bool_decide_eq_false in Hd1, Hd2.
    destruct (strip_prefix_both _ _ _ _ _ Ha Hb); tauto.
Qed.

(** In a pairwise disjoint table no path matches two routes. *)
Lemma pairwise_disjoint_unique t path i j ri rj :
  pairwise_disjoint t = true -> t !! i = Some ri -> t !! j = Some rj ->
  is_Some (route_match ri.1 path) -> is_Some (route_match rj.1 path) -> i = j.
Proof.
  revert i j. induction t as [|r t IH]; intros i j Hpw Hi Hj Hmi Hmj; [done|].
  simpl in Hpw. apply andb_true_iff in Hpw as [Hall Hpw]. rewrite forallb_forall in Hall.
  destruct i as [|i], j as [|j]; simpl in Hi, Hj; simplify_eq; try done.
  - exfalso. apply (disjoint_sound ri.1 rj.1 path); [|done..].
    apply Hall, list_elem_of_In. by eapply list_elem_of_lookup_2.
  - exfalso. apply (disjoint_sound rj.1 ri.1 path); [|done..].
    apply Hall, list_elem_of_In. by eapply list_elem_of_lookup_2.
  - f_equal. by apply (IH i j).
Qed.

Lemma with_base_unique base t path i j ri rj :
  pairwise_disjoint t = true ->
  map (with_base base) t !! i = Some ri -> map (with_base base) t !! j = Some rj ->
  is_Some (route_match ri.1 path) -> is_Some (route_match rj.1 path) -> i = j.
Proof.
  intros Hpw (ri' & -> & Hi)%list_lookup_fmap_Some (rj' & -> & Hj)%list_lookup_fmap_Some.
  rewrite !route_match_with_base. destruct (strip_prefix base path) as [rest|]; simpl; [|by intros []].
  by apply (pairwise_disjoint_unique t rest).
Qed.

Lemma strip_prefix_self b rest : strip_prefix b (String.append b rest) = Some rest.
Proof. induction b as [|x b IH]; [done|]. simpl. case_decide; [exact IH|done]. Qed.

Lemma find_route_elem t path h args :
  find_route t path = Some (h, args) -> exists p, (p, h) ∈ t /\ route_match p path = Some args.
Proof.
  induction t as [|[p h'] t IH]; simpl; [done|].
  destruct (route_match p path) eqn:Hm; intros H; simplify_eq.
  - exists p. split; [left|done].
  - destruct (IH H) as (p' & ? & ?). exists p'. split; [by right|done].
Qed.

(** * Claims *)

(** C28: both route tables are unambiguous: whatever the base path and
    the mode, no request path matches two routes, so the order of the
    routes in lines 78-92 and 358-362 does not matter. *)
Theorem routes_unambiguous c base_url path i j ri rj :
  (bento_routes c !! i = Some ri /\ bento_routes c !! j = Some rj) \/
  (chord_routes base_url !! i = Some ri /\ chord_routes base_url !! j = Some rj) ->
  is_Some (route_match ri.1 path) -> is_Some (route_match rj.1 path) -> i = j.
Proof.
  unfold bento_routes, chord_routes.
  intros [[Hi Hj]|[Hi Hj]]; eapply (with_base_unique _ _ path i j ri rj); try done;
    [destruct (BENTO_FEDERATION_MODE c)|]; vm_compute; reflexivity.
Qed.

Definition ex_bento : bento_config :=
  mk_bento_config false true true "/api/federation" "ca.c3g.bento:federation" "ca.c3g.bento:federation:0.9" "Bento Federation Service".

Lemma routes_unambiguous_witness : 0 = 0.
Proof.
  apply (routes_unambiguous ex_bento EmptyString "/api/federation/service-info" 0 0
           (PLit "/api/federation/service-info", HServiceInfo) (PLit "/api/federation/service-info", HServiceInfo));
    [left; split; reflexivity|vm_compute; eauto..].
Defined.

(** C29: the federation endpoints ([/peers], [/private/peers/refresh],
    [/federated-dataset-search], [/search-aggregate/...]) are served by
    the Bento application only in federation mode, and then
    [base_path/peers] reaches [PeerHandler]. *)
Theorem federation_routes_gated c path h args :
  (find_route (bento_routes c) path = Some (h, args) -> federation_handler h = true ->
   BENTO_FEDERATION_MODE c = true) /\
  (BENTO_FEDERATION_MODE c = true ->
   find_route (bento_routes c) (String.append (BASE_PATH c) "/peers") = Some (HPeer, [])).
Proof.
  unfold bento_routes. split.
  - rewrite find_route_with_base. destruct (strip_prefix _ _) as [rest|]; [|intros H; inversion H].
    intros (p & Hin & _)%find_route_elem Hf. destruct (BENTO_FEDERATION_MODE c); [done|].
    simpl in Hin. repeat (apply elem_of_cons in Hin as [Hin|Hin]; [simplify_eq; done|]). set_solver.
  - intros ->. rewrite find_route_with_base, strip_prefix_self. reflexivity.
Qed.

Definition ex_bento_fed : bento_config :=
  mk_bento_config true false true "/api/federation" "ca.c3g.bento:federation" "ca.c3g.bento:federation:0.9" "Bento Federation Service".

Lemma federation_routes_gated_witness :
  (find_route (bento_routes ex_bento_fed) "/api/federation/peers" = Some (HPeer, []) ->
   federation_handler HPeer = true -> BENTO_FEDERATION_MODE ex_bento_fed = true) /\
  (BENTO_FEDERATION_MODE ex_bento_fed = true ->
   find_route (bento_routes ex_bento_fed) (String.append (BASE_PATH ex_bento_fed) "/peers") = Some (HPeer, [])).
Proof. apply (federation_routes_gated ex_bento_fed "/api/federation/peers" HPeer []). Defined.

End Routes.
