(* ===== verification/App.v ===== *)
(** * App: constants, the [Application] state and the peer registry

    Models the module-level configuration of [src/chord_federation/app.py]
    (lines 17-21), the fields that [Application.__init__] creates (lines
    348-356) and the two statements the code runs against the sqlite
    table [peers]: [SELECT url FROM peers] and
    [INSERT OR IGNORE INTO peers VALUES(?)], including the seeding done by
    [init_db], and the bootstrap the module runs when it is imported
    (lines 23-56: [init_db] or [update_db] on the database file).  The
    table has the URL as its only column, so it is a set of strings. *)

From S2P Require Import Prelude.

(** Configuration read from the environment at import time. *)
Record config := mk_config {
  CHORD_URL : string;
  CHORD_REGISTRY_URL : string;
}.

Definition TIMEOUT : Z := 45.
Definition WORKERS : nat := 10.
Definition LAST_ERRORED_CACHE_TIME : Z := 30.

(** One hour, the staleness window of [get_peers] ([timedelta(hours=1)]),
    in the seconds of the model's clock. *)
Definition PEERS_MAX_AGE : Z := 3600.

(** The state an [Application] object holds.  [db] is the [peers] table
    reached through [self.application.db]. *)
Record app := mk_app {
  last_peers_update : Z;
  peer_cache_invalidated : bool;
  connected_to_peer_network : bool;
  fetching_peers : bool;
  last_errored : gmap string Z;
  contacting : gset string;
  notifying : gset string;
  db : gset string;
}.

(** [Application.__init__]: [last_peers_update] is the epoch. *)
Definition app_init (peer_db : gset string) : app := {|
  last_peers_update := 0;
  peer_cache_invalidated := false;
  connected_to_peer_network := false;
  fetching_peers := false;
  last_errored := ∅;
  contacting := ∅;
  notifying := ∅;
  db := peer_db;
|}.

(** ** Attribute assignments [self.<field> = v] *)

Definition set_last_peers_update (t : Z) (a : app) : app :=
  mk_app t a.(peer_cache_invalidated) a.(connected_to_peer_network) a.(fetching_peers)
    a.(last_errored) a.(contacting) a.(notifying) a.(db).
Definition set_peer_cache_invalidated (b : bool) (a : app) : app :=
  mk_app a.(last_peers_update) b a.(connected_to_peer_network) a.(fetching_peers)
    a.(last_errored) a.(contacting) a.(notifying) a.(db).
Definition set_connected (b : bool) (a : app) : app :=
  mk_app a.(last_peers_update) a.(peer_cache_invalidated) b a.(fetching_peers)
    a.(last_errored) a.(contacting) a.(notifying) a.(db).
Definition set_fetching_peers (b : bool) (a : app) : app :=
  mk_app a.(last_peers_update) a.(peer_cache_invalidated) a.(connected_to_peer_network) b
    a.(last_errored) a.(contacting) a.(notifying) a.(db).
Definition set_last_errored (m : gmap string Z) (a : app) : app :=
  mk_app a.(last_peers_update) a.(peer_cache_invalidated) a.(connected_to_peer_network)
    a.(fetching_peers) m a.(contacting) a.(notifying) a.(db).
Definition set_contacting (s : gset string) (a : app) : app :=
  mk_app a.(last_peers_update) a.(peer_cache_invalidated) a.(connected_to_peer_network)
    a.(fetching_peers) a.(last_errored) s a.(notifying) a.(db).
Definition set_notifying (s : gset string) (a : app) : app :=
  mk_app a.(last_peers_update) a.(peer_cache_invalidated) a.(connected_to_peer_network)
    a.(fetching_peers) a.(last_errored) a.(contacting) s a.(db).
Definition set_db (s : gset string) (a : app) : app :=
  mk_app a.(last_peers_update) a.(peer_cache_invalidated) a.(connected_to_peer_network)
    a.(fetching_peers) a.(last_errored) a.(contacting) a.(notifying) s.

(** ** The registry *)

Module Registry.

(** [c.execute("SELECT url FROM peers")] followed by
    [set([p[0] for p in c.fetchall()])]. *)
Definition select_peers (t : gset string) : gset string := t.

(** [c.execute("INSERT OR IGNORE INTO peers VALUES(?)", (url,))]. *)
Definition insert_or_ignore (url : string) (t : gset string) : gset string :=
  if decide (url ∈ t) then t else {[url]} ∪ t.

(** [c.execute("SELECT 1 FROM peers WHERE url = ?", (url,))] followed by
    [c.fetchone() is None]: whether the URL is absent. *)
Definition absent (url : string) (t : gset string) : bool :=
  bool_decide (url ∉ t).

(** [for peer in peers: c.execute("INSERT OR IGNORE ...", (peer,))],
    iterating over the elements of a Python set. *)
Definition insert_all (peers : list string) (t : gset string) : gset string :=
  fold_left (fun acc p => insert_or_ignore p acc) peers t.

(** [init_db] after the schema script: the node's own URL and the
    registry's URL are inserted. *)
Definition init_db (cfg : config) (t : gset string) : gset string :=
  insert_or_ignore (CHORD_REGISTRY_URL cfg) (insert_or_ignore (CHORD_URL cfg) t).

(** The sqlite file at [DATABASE] when the module is imported
    (lines 23-26): absent, present without a [peers] table, or present
    with one. *)
Inductive dbfile :=
  | NoFile
  | NoPeersTable
  | PeersTable (t : gset string).

(** [os.path.exists(db_path)]. *)
Definition db_exists (f : dbfile) : bool := match f with NoFile => false | _ => true end.

(** The [peers] table of the file, if it has one. *)
Definition peers_table (f : dbfile) : option (gset string) :=
  match f with PeersTable t => Some t | _ => None end.

Section Bootstrap.

(** The [peers] table that [peer_db.executescript] of schema.sql leaves
    in a database without one (schema.sql is not in the repository). *)
Variable schema_peers : gset string.
Variable cfg : config.

(** Lines 41-48: [init_db] when the [sqlite_master] query finds no
    [peers] table; otherwise nothing (the [# TODO]). *)
Definition update_db (f : dbfile) : gset string :=
  match peers_table f with
  | None => init_db cfg schema_peers
  | Some t => t
  end.

(** Lines 51-54: the registry the module leaves when it is imported. *)
Definition boot (f : dbfile) : gset string :=
  if negb (db_exists f) then init_db cfg schema_peers else update_db f.

End Bootstrap.

Lemma insert_or_ignore_union url t : insert_or_ignore url t = {[url]} ∪ t.
Proof. unfold insert_or_ignore. case_decide; set_solver. Qed.

Lemma insert_all_union peers t : insert_all peers t = t ∪ list_to_set peers.
Proof.
  revert t. induction peers as [|p ps IH]; intros t; simpl.
  - set_solver.
  - rewrite IH, insert_or_ignore_union. set_solver.
Qed.

(** A database file without a [peers] table is seeded with the node's
    own URL and the registry's; an existing table is kept as it is. *)
Lemma boot_seeded schema_peers cfg f :
  peers_table f = None -> CHORD_URL cfg ∈ boot schema_peers cfg f /\ CHORD_REGISTRY_URL cfg ∈ boot schema_peers cfg f.
Proof.
  intros Hf. unfold boot, update_db, init_db. rewrite Hf, !insert_or_ignore_union.
  destruct (db_exists f); simpl; set_solver.
Qed.

End Registry.

#[export] Hint Rewrite Registry.insert_or_ignore_union Registry.insert_all_union : fed_rw.
