(* ===== verification/DeadPeers.v ===== *)
(** * DeadPeers: the dead-peer cache [Application.last_errored]

    [last_errored] maps a peer URL to the time stamp of its last failed
    contact.  Both [peer_worker] (lines 235-236) and [PeerHandler.post]
    (lines 128-129) skip a peer while
    [peer in last_errored and now - last_errored[peer] < LAST_ERRORED_CACHE_TIME],
    and both overwrite the entry on a failure (lines 286 and 147). *)

From S2P Require Import Prelude App.

Module DeadPeers.

(** The skip test of lines 235-236 (and 128-129). *)
Definition recently_errored (le : gmap string Z) (now : Z) (p : string) : bool :=
  match le !! p with
  | Some t => bool_decide (now - t < LAST_ERRORED_CACHE_TIME)%Z
  | None => false
  end.

(** [self.last_errored[peer] = datetime.now().timestamp()]. *)
Definition record_error (p : string) (now : Z) (le : gmap string Z) : gmap string Z :=
  <[p := now]> le.

Lemma recently_errored_true le now p :
  recently_errored le now p = true <->
  exists t, le !! p = Some t /\ (now - t < LAST_ERRORED_CACHE_TIME)%Z.
Proof.
  unfold recently_errored. destruct (le !! p) as [t|]; split.
  - intros H%bool_decide_eq_true. eauto.
  - intros (t' & [= <-] & H). by apply bool_decide_eq_true.
  - done.
  - by intros (? & ? & ?).
Qed.

Lemma recently_errored_record_eq p t now le :
  recently_errored (record_error p t le) now p = bool_decide (now - t < LAST_ERRORED_CACHE_TIME)%Z.
Proof. unfold recently_errored, record_error. by rewrite lookup_insert_eq. Qed.

Lemma recently_errored_record_ne p q t now le :
  p <> q -> recently_errored (record_error p t le) now q = recently_errored le now q.
Proof. intros Hne. unfold recently_errored, record_error. by rewrite lookup_insert_ne. Qed.

End DeadPeers.

#[export] Hint Rewrite DeadPeers.recently_errored_record_eq : fed_rw.
