(* ===== verification/WorkQueue.v ===== *)
(** * WorkQueue: [tornado.queues.Queue]

    The library queue the gossip engine and the search engine use, with
    no size bound ([Queue()]): [put] appends an item and increments the
    count of unfinished tasks; [get] (the [async for] of the workers)
    takes the first item or suspends when there is none; [task_done]
    decrements the count and raises [ValueError] when it is already
    zero; [join] waits until the count is zero.  The code is not part of
    the repository and is modelled from Tornado's documentation. *)

From S2P Require Import Prelude.

Module WorkQueue.

Record queue (A : Type) := mk_queue {
  items : list A;
  unfinished : nat;
}.
Arguments mk_queue {A}.
Arguments items {A}.
Arguments unfinished {A}.

Definition q_empty {A} : queue A := mk_queue [] 0.

(** [await q.put(x)] on an unbounded queue: never suspends. *)
Definition q_put {A} (x : A) (q : queue A) : queue A :=
  mk_queue (items q ++ [x]) (S (unfinished q)).

(** [await q.get()]: [None] when the caller must suspend. *)
Definition q_get {A} (q : queue A) : option (A * queue A) :=
  match items q with
  | [] => None
  | x :: r => Some (x, mk_queue r (unfinished q))
  end.

(** [q.task_done()]: [None] is the [ValueError] raised when there is no
    unfinished task. *)
Definition q_task_done {A} (q : queue A) : option (queue A) :=
  match unfinished q with
  | O => None
  | S n => Some (mk_queue (items q) n)
  end.

(** [await q.join()] may return. *)
Definition q_joinable {A} (q : queue A) : bool := Nat.eqb (unfinished q) 0.

(** [for x in l: await q.put(x)]. *)
Definition q_put_all {A} (l : list A) (q : queue A) : queue A :=
  fold_left (fun q x => q_put x q) l q.

Lemma q_put_all_items {A} (l : list A) q :
  items (q_put_all l q) = items q ++ l /\ unfinished (q_put_all l q) = unfinished q + length l.
Proof.
  revert q. induction l as [|x l IH]; intros q; simpl.
  - split; [by rewrite app_nil_r | lia].
  - destruct (IH (q_put x q)) as [-> ->]. simpl. split; [by rewrite <-app_assoc | lia].
Qed.

Lemma q_task_done_Some {A} (q q' : queue A) :
  q_task_done q = Some q' <-> unfinished q <> 0 /\ q' = mk_queue (items q) (pred (unfinished q)).
Proof. unfold q_task_done. destruct (unfinished q); naive_solver. Qed.

Lemma q_task_done_nonzero {A} (q : queue A) :
  unfinished q <> 0 -> q_task_done q = Some (mk_queue (items q) (pred (unfinished q))).
Proof. intros. by apply q_task_done_Some. Qed.

End WorkQueue.
