(* ===== verification/Gossip.v ===== *)
(** * Gossip: [Application.peer_worker] and the gossip cycle

    A gossip cycle is started by [Application.get_peers]
    (src/chord_federation/app.py, lines 315-328): the registry's peers
    are put on a queue [peers_to_check] and into [peers_to_check_set],
    [attempted_contact] is [{CHORD_URL}], and [WORKERS] coroutines
    [peer_worker] (lines 227-304) run until the queue is joined.

    A worker is suspended at one of three [await]s: the [async for] that
    takes the next candidate, the POST of the notify to the candidate,
    and the GET of the candidate's peer list.  Everything between two of
    them runs atomically, so a worker is modelled by its program counter
    and locals ([worker]) and by three step functions: [worker_dequeue]
    (lines 230-262), [worker_post_done] (lines 262-287 after the POST)
    and [worker_get_done] (lines 271-287 after the GET), which share the
    tail [finish_candidate] (lines 289-304).  [gossip_resume] resumes one
    worker (or lets the clock move, or lets a concurrent
    [PeerHandler.post] record an error), and [gossip_step] is the
    interleaving relation.  Python exceptions that escape the worker
    ([set.remove] of an absent element, [task_done] with no unfinished
    task, [set.union] of unhashable values) leave the worker in
    [WCrashed] with the state it had when the exception was raised.

    A reported peer list is JSON: its entries are strings or [null]
    ([option string], [None] for [null]).  A [null] passes
    [peers.union] and the test of line 293, so it is queued (line 295)
    and added to [peers_to_check_set]; on the queue it is the [None]
    that a worker takes as its exit signal (lines 231-233).  The sets
    that can hold it ([peers_to_check_set], a worker's [peers]) are sets
    of [option string]; [contacting] and [attempted_contact] only ever
    hold strings, and [lift] is their view as sets of Python values.
    Entries that are numbers or booleans are not modelled. *)

From S2P Require Import Prelude App DeadPeers WorkQueue.
Import WorkQueue DeadPeers.

Module Gossip.

(** What [await client.fetch(f"{peer}api/federation/peers", method="GET")]
    followed by [json.loads(r.body)["peers"]] and [peers.union(...)]
    produces:
    - [GetFailed]: the fetch raised (transport error, timeout, non-2xx);
    - [GetUnparsable]: the fetch succeeded but [json.loads] or the
      subscript raised ([JSONDecodeError], [KeyError], [TypeError]);
    - [GetPeers l]: the value is a list of strings and [null]s, iterated
      as [l];
    - [GetUnhashable]: the value makes [peers.union] raise [TypeError]
      (a number, [null], or a list holding lists or objects). *)
Inductive get_reply :=
  | GetFailed
  | GetUnparsable
  | GetPeers (l : list (option string))
  | GetUnhashable.

(** A set of strings as a set of Python values. *)
Definition lift (s : gset string) : gset (option string) := set_map Some s.

(** The requests a worker sends, in the order they leave the node. *)
Inductive request :=
  | ReqNotify (target : string) (body_peers : gset (option string)) (self : string)
  | ReqGetPeers (target : string).

(** A [peer_worker] coroutine: where it is suspended and its local
    [peers] (each worker rebinds its own [peers] at line 289). *)
Inductive worker :=
  | WIdle (peers : gset (option string))
  | WPosting (peers : gset (option string)) (p : string)
  | WFetching (peers : gset (option string)) (p : string)
  | WExited
  | WCrashed (p : string).

(** The locals of [get_peers] that the workers share. *)
Record cycle := mk_cycle {
  to_check : queue (option string);
  to_check_set : gset (option string);
  attempted : gset string;
  results : list bool;
}.

Definition set_to_check (q : queue (option string)) (c : cycle) : cycle :=
  mk_cycle q (to_check_set c) (attempted c) (results c).

(** Lines 239-240 and 244-245: [peers_to_check_set.remove(peer)] then
    [peers_to_check.task_done()]; [true] when one of them raised. *)
Definition skip_candidate (p : string) (c : cycle) : cycle * bool :=
  match py_remove (Some p) (to_check_set c) with
  | None => (c, true)
  | Some s =>
      match q_task_done (to_check c) with
      | None => (mk_cycle (to_check c) s (attempted c) (results c), true)
      | Some q => (mk_cycle q s (attempted c) (results c), false)
      end
  end.

(** Lines 230-269 up to the POST: take the next candidate and decide. *)
Definition worker_dequeue (cfg : config) (now : Z) (a : app) (c : cycle)
    (peers : gset (option string)) : option (app * cycle * worker * list request) :=
  match q_get (to_check c) with
  | None => None
  | Some (None, q) => Some (a, set_to_check q c, WExited, [])
  | Some (Some p, q) =>
      let c1 := set_to_check q c in
      if recently_errored (last_errored a) now p then
        let '(c2, raised) := skip_candidate p c1 in
        Some (a, c2, if raised then WCrashed p else WIdle peers, [])
      else if decide (p ∈ attempted c1) then
        let '(c2, raised) := skip_candidate p c1 in
        Some (a, c2, if raised then WCrashed p else WIdle peers, [])
      else if decide (p ∈ contacting a) then
        Some (a, c1, WIdle peers, [])
      else
        Some (set_contacting (py_add p (contacting a)) a, c1, WPosting peers p,
              [ReqNotify p peers (CHORD_URL cfg)])
  end.

(** Lines 292-296: enqueue every reported peer not seen yet; the flag is
    [new_peer]. *)
Definition enqueue_new (a : app) (pp : list (option string)) (c : cycle) : cycle * bool :=
  fold_left (fun '(c, new_peer) q =>
      if decide ((q ∉ to_check_set c) /\ (q ∉ lift (contacting a)) /\ (q ∉ lift (attempted c)))
      then (mk_cycle (q_put q (to_check c)) (py_add q (to_check_set c))
              (attempted c) (results c), true)
      else (c, new_peer))
    pp (c, false).

(** Lines 289-304: the tail shared by every contacted candidate. *)
Definition finish_candidate (a : app) (c : cycle) (peers : gset (option string))
    (p : string) (pp : list (option string)) : app * cycle * worker * list request :=
  let peers' := peers ∪+ pp in
  let '(c1, new_peer) := enqueue_new a pp c in
  let c2 := mk_cycle (to_check c1) (to_check_set c1) (py_add p (attempted c1))
              (results c1 ++ [new_peer]) in
  match py_remove p (contacting a) with
  | None => (a, c2, WCrashed p, [])
  | Some ct =>
      let a1 := set_contacting ct a in
      match py_remove (Some p) (to_check_set c2) with
      | None => (a1, c2, WCrashed p, [])
      | Some s =>
          match q_task_done (to_check c2) with
          | None => (a1, mk_cycle (to_check c2) s (attempted c2) (results c2), WCrashed p, [])
          | Some q => (a1, mk_cycle q s (attempted c2) (results c2), WIdle peers', [])
          end
      end
  end.

(** The POST of lines 262-269 returned ([ok]) or raised (lines 283-287). *)
Definition worker_post_done (now : Z) (ok : bool) (a : app) (c : cycle)
    (peers : gset (option string)) (p : string) : app * cycle * worker * list request :=
  if ok then (a, c, WFetching peers p, [ReqGetPeers p])
  else finish_candidate (set_last_errored (record_error p now (last_errored a)) a) c peers p [].

(** The GET of lines 271-273 returned; lines 277-287 and the tail. *)
Definition worker_get_done (now : Z) (r : get_reply) (a : app) (c : cycle)
    (peers : gset (option string)) (p : string) : app * cycle * worker * list request :=
  match r with
  | GetFailed =>
      finish_candidate (set_last_errored (record_error p now (last_errored a)) a) c peers p []
  | GetUnparsable =>
      let a1 := set_connected true a in
      finish_candidate (set_last_errored (record_error p now (last_errored a1)) a1) c peers p []
  | GetPeers l => finish_candidate (set_connected true a) c peers p l
  | GetUnhashable => (set_connected true a, c, WCrashed p, [])
  end.

(** ** The interleaving semantics *)

Record gstate := mk_gstate {
  g_app : app;
  g_cycle : cycle;
  g_workers : list worker;
  g_now : Z;
  g_log : list request;
}.

Inductive event :=
  | EvDequeue (i : nat)
  | EvPostDone (i : nat) (ok : bool)
  | EvGetDone (i : nat) (r : get_reply)
  | EvClock (t : Z)
  | EvNotifyError (p : string).

Definition install (s : gstate) (i : nat) (r : app * cycle * worker * list request) : gstate :=
  let '(a, c, w, out) := r in
  mk_gstate a c (<[i:=w]> (g_workers s)) (g_now s) (g_log s ++ out).

(** Resume worker [i] at the [await] it is suspended at, move the clock,
    or let a concurrent [PeerHandler.post] run line 147. *)
Definition gossip_resume (cfg : config) (ev : event) (s : gstate) : option gstate :=
  match ev with
  | EvDequeue i =>
      match g_workers s !! i with
      | Some (WIdle peers) =>
          install s i <$> worker_dequeue cfg (g_now s) (g_app s) (g_cycle s) peers
      | _ => None
      end
  | EvPostDone i ok =>
      match g_workers s !! i with
      | Some (WPosting peers p) =>
          Some (install s i (worker_post_done (g_now s) ok (g_app s) (g_cycle s) peers p))
      | _ => None
      end
  | EvGetDone i r =>
      match g_workers s !! i with
      | Some (WFetching peers p) =>
          Some (install s i (worker_get_done (g_now s) r (g_app s) (g_cycle s) peers p))
      | _ => None
      end
  | EvClock t => Some (mk_gstate (g_app s) (g_cycle s) (g_workers s) t (g_log s))
  | EvNotifyError p =>
      Some (mk_gstate (set_last_errored (record_error p (g_now s) (last_errored (g_app s))) (g_app s))
              (g_cycle s) (g_workers s) (g_now s) (g_log s))
  end.

Definition gossip_step (cfg : config) (s s' : gstate) : Prop :=
  exists ev, gossip_resume cfg ev s = Some s'.

(** Lines 315-328: the queue and set seeded with the registry's peers in
    their iteration order [order], [attempted_contact = {CHORD_URL}],
    [WORKERS] workers that all start with the registry's set. *)
Definition cycle_start (cfg : config) (order : list string) (a : app) (now : Z) : gstate :=
  mk_gstate a
    (mk_cycle (q_put_all (map Some order) q_empty) (list_to_set (map Some order)) {[CHORD_URL cfg]} [])
    (replicate WORKERS (WIdle (list_to_set (map Some order)))) now [].

(** Runs a schedule; [None] when an event is not enabled. *)
Fixpoint run_events (cfg : config) (evs : list event) (s : gstate) : option gstate :=
  match evs with
  | [] => Some s
  | ev :: evs' => gossip_resume cfg ev s ≫= run_events cfg evs'
  end.

End Gossip.
