(* ===== verification/GossipInv.v ===== *)
(** * GossipInv: the invariant of a gossip cycle

    The invariant [cycle_inv] of the interleaving semantics of [Gossip]:
    every candidate that is queued or held by a worker (the [pending]
    peers) is pending once, [peers_to_check_set] is exactly the pending
    set of strings, [Application.contacting] is exactly the set of
    candidates held by workers, the queue's unfinished-task counter
    counts the pending candidates plus one once a reported [null] is in
    [peers_to_check_set] (its task is never done: the worker that takes
    it exits), a [None] on the queue is such a [null], held candidates
    have not been attempted, the node's own URL is attempted, and every
    notified peer is attempted or held.
    [fresh_peers] is the reference definition of the peers the loop of
    lines 292-296 enqueues. *)

From S2P Require Import Prelude App DeadPeers WorkQueue Gossip.
Import WorkQueue DeadPeers Gossip.

Module GossipInv.

Definition held (w : worker) : list string :=
  match w with
  | WPosting _ p | WFetching _ p | WCrashed p => [p]
  | _ => []
  end.

(** The candidates held by the workers (in [contacting] while held). *)
Definition inflight (ws : list worker) : list string := ws ≫= held.

Definition queued (q : queue (option string)) : list string := omap id (items q).

Definition pending (c : cycle) (ws : list worker) : list string :=
  queued (to_check c) ++ inflight ws.

(** One when a reported [null] is in [peers_to_check_set]. *)
Definition null_seen (s : gset (option string)) : nat := if bool_decide (None ∈ s) then 1 else 0.

Definition notified (log : list request) : list string :=
  omap (fun r => match r with ReqNotify t _ _ => Some t | ReqGetPeers _ => None end) log.

(** The peers of [pp] not in [seen], without repetition, in order. *)
Fixpoint fresh_peers (seen : gset (option string)) (pp : list (option string)) : list (option string) :=
  match pp with
  | [] => []
  | x :: r =>
      if decide (x ∈ seen) then fresh_peers seen r
      else x :: fresh_peers ({[x]} ∪ seen) r
  end.

Record cycle_inv (cfg : config) (s : gstate) : Prop := {
  ci_nodup : NoDup (pending (g_cycle s) (g_workers s));
  ci_check : forall p, Some p ∈ to_check_set (g_cycle s) <-> p ∈ pending (g_cycle s) (g_workers s);
  ci_contacting : forall p, p ∈ contacting (g_app s) <-> p ∈ inflight (g_workers s);
  ci_unfinished : unfinished (to_check (g_cycle s)) =
    length (pending (g_cycle s) (g_workers s)) + null_seen (to_check_set (g_cycle s));
  ci_fresh : forall p, p ∈ inflight (g_workers s) -> p ∉ attempted (g_cycle s);
  ci_null : None ∈ items (to_check (g_cycle s)) -> None ∈ to_check_set (g_cycle s);
  ci_self : CHORD_URL cfg ∈ attempted (g_cycle s);
  ci_notified : forall p, p ∈ notified (g_log s) ->
                  p ∈ attempted (g_cycle s) \/ p ∈ inflight (g_workers s);
  ci_notified_nodup : NoDup (notified (g_log s));
  ci_self_silent : CHORD_URL cfg ∉ notified (g_log s);
}.

(** ** [fresh_peers] *)

#[export] Instance fresh_peers_proper : Proper ((≡) ==> (=) ==> (=)) fresh_peers.
Proof.
  intros s1 s2 Hs pp ? <-. revert s1 s2 Hs.
  induction pp as [|x r IH]; intros s1 s2 Hs; simpl; [done|].
  repeat case_decide;
    first [by apply IH | f_equal; apply IH; by rewrite Hs | set_solver].
Qed.

Lemma fresh_peers_spec seen pp x :
  x ∈ fresh_peers seen pp <-> x ∈ pp /\ x ∉ seen.
Proof.
  revert seen. induction pp as [|y r IH]; intros seen; simpl.
  - set_solver.
  - case_decide; rewrite ?elem_of_cons, IH; [set_solver|].
    destruct (decide (x = y)); set_solver.
Qed.

Lemma fresh_peers_nodup seen pp : NoDup (fresh_peers seen pp).
Proof.
  revert seen. induction pp as [|y r IH]; intros seen; simpl; [constructor|].
  case_decide; [done|]. constructor; [|done].
  rewrite fresh_peers_spec. set_solver.
Qed.

Lemma fresh_peers_sublist seen pp : fresh_peers seen pp `sublist_of` pp.
Proof.
  revert seen. induction pp as [|y r IH]; intros seen; simpl; [constructor|].
  case_decide; [by apply sublist_cons | by apply sublist_skip].
Qed.

(** The loop of lines 292-296 appends [fresh_peers] to the queue and to
    [peers_to_check_set], and sets [new_peer] when it is not empty. *)
Lemma enqueue_new_eq a pp c b :
  fold_left (fun '(c, new_peer) q =>
      if decide ((q ∉ to_check_set c) /\ (q ∉ lift (contacting a)) /\ (q ∉ lift (attempted c)))
      then (mk_cycle (q_put q (to_check c)) (py_add q (to_check_set c))
              (attempted c) (results c), true)
      else (c, new_peer)) pp (c, b)
  = let N := fresh_peers (to_check_set c ∪ lift (contacting a) ∪ lift (attempted c)) pp in
    (mk_cycle (q_put_all N (to_check c)) (to_check_set c ∪ list_to_set N)
       (attempted c) (results c), b || bool_decide (N <> [])).
Proof.
  revert c b. induction pp as [|q r IH]; intros c b; simpl.
  - rewrite (right_id_L ∅ (∪)), orb_false_r. by destruct c.
  - destruct (decide ((q ∉ to_check_set c) /\ (q ∉ lift (contacting a)) /\ (q ∉ lift (attempted c))))
      as [Hq|Hq]; rewrite IH; simpl.
    + rewrite decide_False by set_solver.
      assert (Hs : py_add q (to_check_set c) ∪ lift (contacting a) ∪ lift (attempted c)
                   ≡ {[q]} ∪ (to_check_set c ∪ lift (contacting a) ∪ lift (attempted c)))
        by (unfold py_add; set_solver).
      rewrite Hs, orb_true_r. simpl. f_equal. f_equal. unfold py_add. set_solver.
    + rewrite decide_True; [done|].
      destruct (decide (q ∈ to_check_set c ∪ lift (contacting a) ∪ lift (attempted c))); [done|].
      exfalso. apply Hq. set_solver.
Qed.

Lemma enqueue_new_spec a pp c :
  enqueue_new a pp c =
  let N := fresh_peers (to_check_set c ∪ lift (contacting a) ∪ lift (attempted c)) pp in
  (mk_cycle (q_put_all N (to_check c)) (to_check_set c ∪ list_to_set N)
     (attempted c) (results c), bool_decide (N <> [])).
Proof. unfold enqueue_new. by rewrite enqueue_new_eq. Qed.

(** ** Workers *)

(** Replacing worker [i] exchanges its held candidates. *)
Lemma inflight_insert ws i w w' :
  ws !! i = Some w ->
  inflight (<[i:=w']> ws) ++ held w ≡ₚ inflight ws ++ held w'.
Proof.
  unfold inflight. revert i. induction ws as [|w0 ws IH]; intros [|i] Hi; simplify_eq/=.
  - solve_Permutation.
  - rewrite <-!app_assoc. by apply Permutation_app_head, IH.
Qed.


Lemma inflight_insert_same ws i w w' :
  ws !! i = Some w -> held w = held w' ->
  inflight (<[i:=w']> ws) ≡ₚ inflight ws.
Proof.
  intros Hi Hh. apply (Permutation_app_inv_r (held w)).
  rewrite (inflight_insert _ _ _ _ Hi), Hh. done.
Qed.

Lemma omap_id_map (l : list string) : omap id (map Some l) = l.
Proof.
  induction l as [|x l IH]; [done|].
  change (x :: omap id (map Some l) = x :: l). by rewrite IH.
Qed.

Lemma elem_of_omap_id {A} (x : A) (l : list (option A)) : x ∈ omap id l <-> Some x ∈ l.
Proof. rewrite list_elem_of_omap. naive_solver. Qed.

Lemma NoDup_omap_id {A} (l : list (option A)) : NoDup l -> NoDup (omap id l).
Proof.
  induction l as [|[x|] l IH]; intros Hnd; simpl; [constructor| |];
    apply NoDup_cons in Hnd as [Hx Hnd]; [|by apply IH].
  change (NoDup (x :: omap id l)). constructor; [rewrite elem_of_omap_id; done | by apply IH].
Qed.

(** A list without repetition has one [None] at most. *)
Lemma length_omap_id (l : list (option string)) :
  NoDup l -> length l = length (omap id l) + (if bool_decide (None ∈ l) then 1 else 0).
Proof.
  induction l as [|[x|] l IH]; intros Hnd; simpl; [done| |];
    apply NoDup_cons in Hnd as [Hx Hnd]; rewrite (IH Hnd).
  - repeat case_bool_decide; set_solver.
  - rewrite bool_decide_false by done. unfold omap. simpl. lia.
Qed.

Lemma null_seen_diff s p : null_seen (s ∖ {[Some p]}) = null_seen s.
Proof. unfold null_seen. repeat case_bool_decide; set_solver. Qed.

Lemma elem_of_inflight p ws : p ∈ inflight ws <-> exists w, w ∈ ws /\ p ∈ held w.
Proof. unfold inflight. rewrite list_elem_of_bind. naive_solver. Qed.

(** ** The atomic steps under the invariant *)

Lemma skip_candidate_ok p c :
  Some p ∈ to_check_set c -> unfinished (to_check c) <> 0 ->
  skip_candidate p c =
    (mk_cycle (mk_queue (items (to_check c)) (pred (unfinished (to_check c))))
       (to_check_set c ∖ {[Some p]}) (attempted c) (results c), false).
Proof.
  intros Hp Hu. unfold skip_candidate. rewrite py_remove_present by done.
  unfold q_task_done. by destruct (unfinished (to_check c)).
Qed.

(** The tail of lines 289-304 when its candidate is held: no exception. *)
Lemma finish_candidate_ok a c peers p pp :
  p ∈ contacting a -> Some p ∈ to_check_set c -> unfinished (to_check c) <> 0 ->
  let N := fresh_peers (to_check_set c ∪ lift (contacting a) ∪ lift (attempted c)) pp in
  finish_candidate a c peers p pp =
   (set_contacting (contacting a ∖ {[p]}) a,
    mk_cycle (mk_queue (items (to_check c) ++ N) (unfinished (to_check c) + length N - 1))
      ((to_check_set c ∪ list_to_set N) ∖ {[Some p]}) ({[p]} ∪ attempted c)
      (results c ++ [bool_decide (N <> [])]),
    WIdle (peers ∪+ pp), []).
Proof.
  intros Hc Hp Hu. unfold finish_candidate. rewrite enqueue_new_spec. simpl.
  set (N := fresh_peers (to_check_set c ∪ lift (contacting a) ∪ lift (attempted c)) pp).
  rewrite py_remove_present by done. simpl.
  rewrite py_remove_present by set_solver. simpl.
  destruct (q_put_all_items N (to_check c)) as [Hi Hn].
  rewrite q_task_done_nonzero by (rewrite Hn; lia).
  rewrite Hi, Hn. unfold py_add. repeat f_equal. lia.
Qed.

(** ** Preservation of the invariant *)

Lemma pending_head c ws p rest :
  items (to_check c) = Some p :: rest ->
  pending c ws = p :: omap id rest ++ inflight ws.
Proof. intros Hq. unfold pending, queued. by rewrite Hq. Qed.

(** Taking [p] off the head of the queue keeps the invariant when [p] is
    dropped (lines 239-241 and 244-246). *)
Lemma inv_skip cfg a c ws now log i peers p rest :
  cycle_inv cfg (mk_gstate a c ws now log) ->
  ws !! i = Some (WIdle peers) ->
  items (to_check c) = Some p :: rest ->
  cycle_inv cfg (install (mk_gstate a c ws now log) i
    (a, fst (skip_candidate p (set_to_check (mk_queue rest (unfinished (to_check c))) c)),
     WIdle peers, [])).
Proof.
  intros [Hnd Hck Hct Hun Hfr Hns Hself Hnot Hnotnd Hsil] Hi Hq; simpl in *.
  rewrite (pending_head _ _ _ _ Hq) in Hnd, Hck, Hun.
  apply NoDup_cons in Hnd as [Hp Hnd].
  rewrite skip_candidate_ok by (simpl; first [apply Hck; left | rewrite Hun; simpl; lia]).
  assert (Hw := inflight_insert_same ws i _ (WIdle peers) Hi eq_refl).
  split; unfold pending, queued; simpl; rewrite ?app_nil_r.
  - by rewrite Hw.
  - intros x. rewrite Hw, elem_of_difference, Hck, elem_of_cons, elem_of_singleton.
    split; [naive_solver|]. intros Hx. split; [by right|]. intros [= ->]. by apply Hp.
  - intros x. by rewrite Hw.
  - rewrite Hw, Hun, null_seen_diff. simpl. lia.
  - intros x. rewrite Hw. apply Hfr.
  - rewrite Hq in Hns. intros H. apply elem_of_difference. split; [apply Hns; by right | set_solver].
  - done.
  - intros x. rewrite Hw. apply Hnot.
  - done.
  - done.
Qed.

(** Lines 255-269: the candidate becomes held and is notified. *)
Lemma inv_contact cfg a c ws now log i peers p rest :
  cycle_inv cfg (mk_gstate a c ws now log) ->
  ws !! i = Some (WIdle peers) ->
  items (to_check c) = Some p :: rest ->
  p ∉ attempted c ->
  cycle_inv cfg (install (mk_gstate a c ws now log) i
    (set_contacting (py_add p (contacting a)) a,
     set_to_check (mk_queue rest (unfinished (to_check c))) c,
     WPosting peers p, [ReqNotify p peers (CHORD_URL cfg)])).
Proof.
  intros [Hnd Hck Hct Hun Hfr Hns Hself Hnot Hnotnd Hsil] Hi Hq Ha; simpl in *.
  rewrite (pending_head _ _ _ _ Hq) in Hnd, Hck, Hun.
  assert (Hw := inflight_insert ws i _ (WPosting peers p) Hi). simpl in Hw.
  rewrite app_nil_r in Hw.
  assert (Hpp : omap id rest ++ inflight (<[i:=WPosting peers p]> ws)
                ≡ₚ p :: omap id rest ++ inflight ws).
  { rewrite Hw. solve_Permutation. }
  apply NoDup_cons in Hnd as [Hp Hnd'].
  assert (Hpi : p ∉ inflight ws) by set_solver.
  assert (Hx : forall x, x ∈ inflight (<[i:=WPosting peers p]> ws) <-> x = p \/ x ∈ inflight ws).
  { intros x. rewrite Hw. set_solver. }
  split; unfold pending, queued; simpl.
  - rewrite Hpp. by constructor.
  - intros x. rewrite Hpp. apply Hck.
  - intros x. rewrite elem_of_py_add, Hx, Hct. done.
  - by rewrite Hpp.
  - intros x. rewrite Hx. intros [->|]; auto.
  - rewrite Hq in Hns. set_solver.
  - done.
  - intros x. unfold notified. rewrite omap_app. simpl. rewrite elem_of_app, Hx.
    intros [Hn|Hn]; [destruct (Hnot x Hn); auto | set_solver].
  - unfold notified. rewrite omap_app. simpl. apply NoDup_app. split; [done|].
    split; [|by constructor; [set_solver | constructor]].
    intros x Hn Hx'. apply list_elem_of_singleton in Hx' as ->.
    destruct (Hnot p Hn); auto.
  - unfold notified in *. rewrite omap_app. simpl. rewrite elem_of_app, list_elem_of_singleton.
    intros [Hn|Heq]; [done|]. subst p. by apply Ha.
Qed.

(** Worker [i] keeps its candidate [p] (the POST returned, or
    [peers.union] raised after the GET). *)
Lemma inv_move cfg a a' c ws now log i w w' p out :
  cycle_inv cfg (mk_gstate a c ws now log) ->
  ws !! i = Some w -> held w = [p] -> held w' = [p] ->
  contacting a' = contacting a -> notified out = [] ->
  cycle_inv cfg (install (mk_gstate a c ws now log) i (a', c, w', out)).
Proof.
  intros [Hnd Hck Hct Hun Hfr Hns Hself Hnot Hnotnd Hsil] Hi Hw Hw' Ha Ho; simpl in *.
  assert (Hperm := inflight_insert_same ws i w w' Hi ltac:(congruence)).
  assert (Hnl : notified (log ++ out) = notified log)
    by (unfold notified in *; by rewrite omap_app, Ho, app_nil_r).
  split; unfold pending; simpl.
  - by rewrite Hperm.
  - intros x. rewrite Hperm. apply Hck.
  - intros x. by rewrite Ha, Hperm.
  - by rewrite Hperm.
  - intros x. rewrite Hperm. apply Hfr.
  - done.
  - done.
  - intros x. rewrite Hnl, Hperm. apply Hnot.
  - by rewrite Hnl.
  - by rewrite Hnl.
Qed.

(** The tail of lines 289-304 keeps the invariant: a reported [null]
    that is queued adds one task that no worker will mark done. *)
Lemma inv_finish cfg a a0 c ws now log i w peers p pp :
  cycle_inv cfg (mk_gstate a c ws now log) ->
  ws !! i = Some w -> held w = [p] -> contacting a0 = contacting a ->
  cycle_inv cfg (install (mk_gstate a c ws now log) i (finish_candidate a0 c peers p pp)).
Proof.
  intros [Hnd Hck Hct Hun Hfr Hns Hself Hnot Hnotnd Hsil] Hi Hw Ha; simpl in *.
  assert (Hperm := inflight_insert ws i w (WIdle (peers ∪+ pp)) Hi).
  rewrite Hw, app_nil_r in Hperm. simpl in Hperm.
  set (IW := inflight (<[i:=WIdle (peers ∪+ pp)]> ws)) in *.
  set (Q := queued (to_check c)) in *.
  assert (Hpin : p ∈ inflight ws) by (rewrite <-Hperm; set_solver).
  assert (Hpend : pending c ws ≡ₚ p :: Q ++ IW)
    by (unfold pending; rewrite <-Hperm; solve_Permutation).
  rewrite Hpend in Hnd, Hun. apply NoDup_cons in Hnd as [Hp Hnd].
  assert (Hck' : forall x, Some x ∈ to_check_set c <-> x ∈ p :: Q ++ IW)
    by (intros x; by rewrite Hck, Hpend).
  clear Hck. rename Hck' into Hck.
  assert (Hpc : p ∈ contacting a0) by (rewrite Ha; by apply Hct).
  assert (Hpk : Some p ∈ to_check_set c) by (apply Hck; left).
  assert (Hu : unfinished (to_check c) <> 0) by (rewrite Hun; simpl; lia).
  rewrite finish_candidate_ok by done.
  set (N := fresh_peers _ pp).
  assert (HN : forall x, x ∈ N ->
            (x ∉ to_check_set c) /\ (x ∉ lift (contacting a)) /\ (x ∉ lift (attempted c))).
  { intros x. unfold N. rewrite fresh_peers_spec, Ha. set_solver. }
  assert (HNd := fresh_peers_nodup (to_check_set c ∪ lift (contacting a0) ∪ lift (attempted c)) pp).
  fold N in HNd.
  assert (HNs : forall x, x ∈ omap id N -> (x ∉ p :: Q ++ IW) /\ (x ∉ contacting a) /\ (x ∉ attempted c)).
  { intros x Hx%elem_of_omap_id. destruct (HN _ Hx) as (H1 & H2 & H3).
    unfold lift in *. rewrite <-Hck. set_solver. }
  assert (HIW : forall x, x ∈ inflight ws <-> x = p \/ x ∈ IW)
    by (intros x; rewrite <-Hperm; set_solver).
  split; unfold pending, queued; simpl; rewrite ?omap_app;
    change (omap id (items (to_check c))) with Q; fold IW.
  - rewrite <-app_assoc, (Permutation_app_comm (omap id N)), app_assoc.
    apply NoDup_app. split; [done|]. split; [|by apply NoDup_omap_id].
    intros x Hx HxN. destruct (HNs x HxN) as [Hc _]. apply Hc. by right.
  - intros x. rewrite elem_of_difference, elem_of_union, elem_of_list_to_set, Hck,
      <-elem_of_omap_id, elem_of_singleton, !elem_of_app, elem_of_cons, elem_of_app.
    pose proof (HNs x) as Hx. split; [naive_solver|].
    intros Hx'. split; [naive_solver|]. intros [= ->]. set_solver.
  - intros x. rewrite elem_of_difference, Ha, Hct, HIW. set_solver.
  - clearbody Q IW N. pose proof (HN None) as HN0.
    rewrite Hun, null_seen_diff, (length_omap_id N HNd). unfold null_seen. simpl.
    rewrite !length_app. repeat case_bool_decide; first [lia | set_solver].
  - intros x Hx. rewrite elem_of_union, elem_of_singleton. intros [->|Hx']; [set_solver|].
    apply (Hfr x); [by apply HIW; right | done].
  - rewrite elem_of_app. pose proof (HN None). set_solver.
  - set_solver.
  - rewrite app_nil_r. intros x Hx. destruct (Hnot x Hx) as [Hx'|Hx']; [set_solver|].
    apply HIW in Hx' as [->|]; set_solver.
  - by rewrite app_nil_r.
  - by rewrite app_nil_r.
Qed.

(** What the invariant says of the candidate at the head of the queue. *)
Lemma inv_head cfg s p rest :
  cycle_inv cfg s -> items (to_check (g_cycle s)) = Some p :: rest ->
  Some p ∈ to_check_set (g_cycle s) /\ unfinished (to_check (g_cycle s)) <> 0 /\
  p ∉ contacting (g_app s).
Proof.
  intros [Hnd Hck Hct Hun _ _ _ _ _ _] Hq.
  rewrite (pending_head _ _ _ _ Hq) in Hnd, Hck, Hun.
  apply NoDup_cons in Hnd as [Hp _].
  split; [by apply Hck; left|]. split; [rewrite Hun; simpl; lia|].
  rewrite Hct. set_solver.
Qed.

(** A worker that takes a [None] exits (lines 231-233) without
    [task_done]: the task of a queued [null] stays unfinished. *)
Lemma inv_exit cfg a c ws now log i peers rest :
  cycle_inv cfg (mk_gstate a c ws now log) ->
  ws !! i = Some (WIdle peers) ->
  items (to_check c) = None :: rest ->
  cycle_inv cfg (install (mk_gstate a c ws now log) i
    (a, set_to_check (mk_queue rest (unfinished (to_check c))) c, WExited, [])).
Proof.
  intros [Hnd Hck Hct Hun Hfr Hns Hself Hnot Hnotnd Hsil] Hi Hq; simpl in *.
  assert (Hw := inflight_insert_same ws i _ WExited Hi eq_refl).
  assert (Hqd : queued (to_check c) = omap id rest) by (unfold queued; by rewrite Hq).
  unfold pending in *. rewrite Hqd in Hnd, Hck, Hun.
  split; unfold pending, queued; simpl; rewrite ?app_nil_r.
  - by rewrite Hw.
  - intros x. by rewrite Hw.
  - intros x. by rewrite Hw.
  - by rewrite Hw.
  - intros x. rewrite Hw. apply Hfr.
  - intros H. apply Hns. rewrite Hq. by right.
  - done.
  - intros x. rewrite Hw. apply Hnot.
  - done.
  - done.
Qed.

Lemma inv_dequeue cfg s i peers r :
  cycle_inv cfg s -> g_workers s !! i = Some (WIdle peers) ->
  worker_dequeue cfg (g_now s) (g_app s) (g_cycle s) peers = Some r ->
  cycle_inv cfg (install s i r).
Proof.
  intros Hinv Hi Hd. destruct s as [a c ws now log]; simpl in *.
  unfold worker_dequeue, q_get in Hd.
  destruct (items (to_check c)) as [|[p|] rest] eqn:Hq; [done| |].
  - destruct (inv_head cfg _ p rest Hinv Hq) as (Hp & Hu & Hc). simpl in *.
    pose proof (inv_skip cfg a c ws now log i peers p rest Hinv Hi Hq) as Hs.
    rewrite skip_candidate_ok in Hs, Hd by done. simpl in Hs.
    destruct (recently_errored _ _ _); [by simplify_eq|].
    case_decide; [by simplify_eq|]. case_decide; [done|].
    simplify_eq. by apply inv_contact.
  - simplify_eq. by apply (inv_exit _ _ _ _ _ _ _ peers).
Qed.

(** Every step of the interleaving semantics keeps the invariant. *)
Theorem gossip_step_inv cfg s s' :
  cycle_inv cfg s -> gossip_step cfg s s' -> cycle_inv cfg s'.
Proof.
  intros Hinv [ev Hev]. destruct ev as [i|i ok|i r|t|p]; simpl in Hev.
  - destruct (g_workers s !! i) as [[peers| | | |]|] eqn:Hi; try done.
    destruct (worker_dequeue _ _ _ _ _) eqn:Hd; simplify_eq/=.
    by eapply inv_dequeue.
  - destruct (g_workers s !! i) as [[|peers p| | |]|] eqn:Hi; simplify_eq/=.
    destruct s as [a c ws now log]. unfold worker_post_done. destruct ok.
    + by eapply (inv_move _ _ _ _ _ _ _ _ _ _ p).
    + by eapply inv_finish.
  - destruct (g_workers s !! i) as [[| |peers p| |]|] eqn:Hi; simplify_eq/=.
    destruct s as [a c ws now log]. destruct r; simpl.
    1-3: by eapply inv_finish.
    by eapply (inv_move _ _ _ _ _ _ _ _ _ _ p).
  - simplify_eq. destruct Hinv; by split.
  - simplify_eq. destruct Hinv; by split.
Qed.

Lemma cycle_start_inv cfg order a now :
  NoDup order -> contacting a = ∅ -> cycle_inv cfg (cycle_start cfg order a now).
Proof.
  intros Hnd Hct. destruct (q_put_all_items (map Some order) (@q_empty (option string)))
    as [Hi Hu].
  assert (Hw : inflight (replicate WORKERS (WIdle (list_to_set (map Some order)))) = []).
  { unfold inflight. generalize WORKERS. induction n; simpl; done. }
  assert (Hq : queued (q_put_all (map Some order) q_empty) = order).
  { unfold queued. rewrite Hi. apply omap_id_map. }
  assert (Hn : None ∉ (list_to_set (map Some order) : gset (option string)))
    by (rewrite elem_of_list_to_set; intros (? & ? & _)%list_elem_of_fmap; done).
  split; unfold pending; simpl; rewrite ?Hw, ?Hq, ?app_nil_r, ?Hct.
  - done.
  - intros x. rewrite elem_of_list_to_set, list_elem_of_fmap. naive_solver.
  - set_solver.
  - rewrite Hu. unfold null_seen. rewrite bool_decide_false by done. simpl. by rewrite length_map, Nat.add_0_r.
  - set_solver.
  - rewrite Hi. simpl. intros (? & ? & _)%list_elem_of_fmap. done.
  - set_solver.
  - set_solver.
  - constructor.
  - set_solver.
Qed.

Theorem cycle_inv_reachable cfg order a now s :
  NoDup order -> contacting a = ∅ ->
  rtc (gossip_step cfg) (cycle_start cfg order a now) s -> cycle_inv cfg s.
Proof.
  intros Hnd Hct. apply rtc_ind_r.
  - by apply cycle_start_inv.
  - eauto using gossip_step_inv.
Qed.

(** What the invariant says of a candidate held by a worker. *)
Lemma inv_held cfg s i w p :
  cycle_inv cfg s -> g_workers s !! i = Some w -> held w = [p] ->
  p ∈ contacting (g_app s) /\ Some p ∈ to_check_set (g_cycle s) /\
  unfinished (to_check (g_cycle s)) <> 0.
Proof.
  intros [_ Hck Hct Hun _ _ _ _ _ _] Hi Hw.
  assert (Hp : p ∈ inflight (g_workers s)).
  { apply elem_of_inflight. exists w. split; [by eapply list_elem_of_lookup_2 | rewrite Hw; left]. }
  split; [by apply Hct|]. split; [apply Hck; unfold pending; set_solver|].
  rewrite Hun. unfold pending. rewrite length_app.
  destruct (inflight (g_workers s)); [set_solver | simpl; lia].
Qed.

Lemma run_events_rtc cfg evs s s' :
  run_events cfg evs s = Some s' -> rtc (gossip_step cfg) s s'.
Proof.
  revert s. induction evs as [|ev evs IH]; intros s H; simpl in H; [by simplify_eq|].
  destruct (gossip_resume cfg ev s) as [s1|] eqn:E; simplify_eq/=.
  eapply rtc_l; [by exists ev | by apply IH].
Qed.

Lemma queued_nil q : None ∉ items q -> queued q = [] <-> items q = [].
Proof.
  unfold queued. destruct (items q) as [|[x|] r]; intros Hn; [done| |set_solver].
  split; [|done]. intros H. change (x :: omap id r = []) in H. discriminate.
Qed.

(** When no [null] was queued, the counter is zero exactly when
    nothing is queued or held. *)
Lemma unfinished_zero cfg s :
  cycle_inv cfg s ->
  unfinished (to_check (g_cycle s)) = 0 <->
  items (to_check (g_cycle s)) = [] /\ inflight (g_workers s) = [] /\ None ∉ to_check_set (g_cycle s).
Proof.
  intros [_ _ _ Hun _ Hns _ _ _ _]. rewrite Hun. unfold pending, null_seen.
  destruct (decide (None ∈ to_check_set (g_cycle s))) as [H0|H0].
  - rewrite bool_decide_true by done. split; [lia|naive_solver].
  - rewrite bool_decide_false, Nat.add_0_r, length_zero_iff_nil by done.
    assert (Hq := queued_nil (to_check (g_cycle s)) (fun H => H0 (Hns H))).
    split; [intros [Hq1 Hi1]%app_eq_nil; split_and!; [by apply Hq|done..]|].
    intros (Hq1 & Hi1 & _). rewrite (proj2 Hq Hq1), Hi1. done.
Qed.

Lemma list_nil_iff {A} (l : list A) : l = [] <-> forall x, x ∉ l.
Proof. split; [intros ->; set_solver|]. destruct l as [|x l]; [done|]. intros H. by destruct (H x); left. Qed.

(** The invariant reads only [contacting] of the application state. *)
Lemma cycle_inv_app_irrel cfg a a' c ws now now' log :
  contacting a' = contacting a ->
  cycle_inv cfg (mk_gstate a c ws now log) -> cycle_inv cfg (mk_gstate a' c ws now' log).
Proof. intros Ha [? ? Hct ? ? ? ? ? ? ?]. split; simpl in *; rewrite ?Ha; done. Qed.

(** When the join may return, nothing is queued or held. *)
Lemma inv_joinable cfg s :
  cycle_inv cfg s -> q_joinable (to_check (g_cycle s)) = true ->
  items (to_check (g_cycle s)) = [] /\ inflight (g_workers s) = [] /\ contacting (g_app s) = ∅.
Proof.
  intros Hinv Hj. unfold q_joinable in Hj. rewrite Nat.eqb_eq, unfinished_zero in Hj by done.
  destruct Hj as (Hq & Hi & _). split_and!; [done..|].
  apply elem_of_equiv_empty_L. intros x. rewrite (ci_contacting _ _ Hinv), Hi. set_solver.
Qed.

Lemma held_inflight ws i w p : ws !! i = Some w -> p ∈ held w -> p ∈ inflight ws.
Proof. intros Hi Hp. apply elem_of_inflight. exists w. split; [by eapply list_elem_of_lookup_2 | done]. Qed.

Local Ltac new_worker_ok := simplify_eq/=; eexists; split; [reflexivity | by intros ? ?].

(** Which worker a step replaces, and that it only raises on
    [GetUnhashable]: [set.remove] and [task_done] never raise. *)
Lemma step_worker cfg s ev s' :
  cycle_inv cfg s -> gossip_resume cfg ev s = Some s' ->
  g_workers s' = g_workers s \/
  exists i w, g_workers s' = <[i:=w]> (g_workers s) /\
              forall p, w = WCrashed p -> ev = EvGetDone i GetUnhashable.
Proof.
  intros Hinv Hev. destruct s as [a c ws now log].
  destruct ev as [i|i ok|i r|t|p]; simpl in Hev; [| | |by simplify_eq; left|by simplify_eq; left];
    right; exists i.
  - destruct (ws !! i) as [[peers| | | |]|] eqn:Hi; try done.
    unfold worker_dequeue, q_get in Hev. simpl in Hev.
    destruct (items (to_check c)) as [|[p|] rest] eqn:Hq; [done| |].
    + destruct (inv_head cfg _ p rest Hinv Hq) as (Hp & Hu & Hc). simpl in *.
      rewrite skip_candidate_ok in Hev by done. simpl in Hev.
      destruct (recently_errored _ _ _); [new_worker_ok|].
      case_decide; [new_worker_ok|]. case_decide; [done|]. new_worker_ok.
    + new_worker_ok.
  - destruct (ws !! i) as [[|peers p| | |]|] eqn:Hi; simplify_eq/=.
    destruct (inv_held cfg _ i _ p Hinv Hi eq_refl) as (Hc & Hp & Hu). simpl in *.
    destruct ok; unfold worker_post_done; [new_worker_ok|].
    rewrite finish_candidate_ok by done. new_worker_ok.
  - destruct (ws !! i) as [[| |peers p| |]|] eqn:Hi; simplify_eq/=.
    destruct (inv_held cfg _ i _ p Hinv Hi eq_refl) as (Hc & Hp & Hu). simpl in *.
    destruct r; simpl; rewrite ?finish_candidate_ok by done; new_worker_ok.
Qed.

(** ** A reported [null] stays in [peers_to_check_set] *)

Lemma skip_candidate_null p c : None ∈ to_check_set c -> None ∈ to_check_set (skip_candidate p c).1.
Proof. unfold skip_candidate. intros H. repeat case_match; simplify_eq/=; fed_simpl; set_solver. Qed.

Lemma finish_candidate_null a c peers p pp :
  None ∈ to_check_set c -> None ∈ to_check_set (finish_candidate a c peers p pp).1.1.2.
Proof.
  intros H. unfold finish_candidate. rewrite enqueue_new_spec. simpl.
  repeat case_match; simplify_eq/=; fed_simpl; set_solver.
Qed.

(** Only [Some p] is ever removed from the set, so a [null] put there
    by line 296 stays for the rest of the cycle. *)
Lemma gossip_resume_null cfg ev s s' :
  gossip_resume cfg ev s = Some s' -> None ∈ to_check_set (g_cycle s) -> None ∈ to_check_set (g_cycle s').
Proof.
  intros Hev H. destruct s as [a c ws now log].
  destruct ev as [i|i ok|i r|t|p]; simpl in *; [| | |by simplify_eq|by simplify_eq].
  - destruct (ws !! i) as [[peers| | | |]|]; try done.
    unfold worker_dequeue, q_get in Hev. destruct (items (to_check c)) as [|[p|] rest]; [done| |by simplify_eq/=].
    repeat (case_match || case_decide); simplify_eq/=; try done;
      match goal with E : skip_candidate _ _ = _ |- _ =>
        eapply (f_equal fst) in E; simpl in E; rewrite <-E; by apply skip_candidate_null end.
  - destruct (ws !! i) as [[|peers p| | |]|]; simplify_eq/=.
    unfold worker_post_done. destruct ok; [done|].
    pose proof (finish_candidate_null (set_last_errored (record_error p now (last_errored a)) a) c peers p [] H).
    by destruct (finish_candidate _ _ _ _ _) as [[[? ?] ?] ?].
  - destruct (ws !! i) as [[| |peers p| |]|]; simplify_eq/=.
    destruct r as [| |l|]; simpl; [| | |done];
      match goal with |- context [finish_candidate ?a' c peers p ?l] =>
        pose proof (finish_candidate_null a' c peers p l H);
        by destruct (finish_candidate a' c peers p l) as [[[? ?] ?] ?] end.
Qed.

(** ** The notify bodies *)

(** A worker's local [peers], when it has one. *)
Definition worker_peers (w : worker) : option (gset (option string)) :=
  match w with WIdle ps | WPosting ps _ | WFetching ps _ => Some ps | _ => None end.

(** Every worker's [peers] and every notify body sent hold [R], and
    every notify names the node itself as [self]. *)
Definition bodies_inv (cfg : config) (R : gset (option string)) (s : gstate) : Prop :=
  (forall w ps, w ∈ g_workers s -> worker_peers w = Some ps -> R ⊆ ps) /\
  (forall t b self, ReqNotify t b self ∈ g_log s -> R ⊆ b /\ self = CHORD_URL cfg).

Lemma bodies_inv_install cfg R a0 c0 ws now log i w0 a c w out :
  bodies_inv cfg R (mk_gstate a0 c0 ws now log) -> ws !! i = Some w0 ->
  (forall ps, worker_peers w = Some ps -> R ⊆ ps) ->
  (forall t b self, ReqNotify t b self ∈ out -> R ⊆ b /\ self = CHORD_URL cfg) ->
  bodies_inv cfg R (mk_gstate a c (<[i:=w]> ws) now (log ++ out)).
Proof.
  intros [Hw Hl] Hi Hw' Ho. split; simpl.
  - intros w1 ps Hin Hp. apply list_elem_of_lookup_1 in Hin as [j Hj].
    lookup_insert_cases Hj; [by apply Hw'|]. eapply Hw; [by eapply list_elem_of_lookup_2|done].
  - intros t b self [Hin|Hin]%elem_of_app; [by eapply Hl|by eapply Ho].
Qed.

Lemma finish_candidate_peers R a c peers p pp :
  R ⊆ peers -> forall ps, worker_peers (finish_candidate a c peers p pp).1.2 = Some ps -> R ⊆ ps.
Proof.
  intros HR ps. unfold finish_candidate. destruct (enqueue_new a pp c).
  repeat case_match; simplify_eq/=; try done. intros [= <-]. set_solver.
Qed.

Lemma finish_candidate_out a c peers p pp : (finish_candidate a c peers p pp).2 = [].
Proof. unfold finish_candidate. destruct (enqueue_new a pp c). by repeat case_match. Qed.

Lemma bodies_inv_step cfg R s s' : bodies_inv cfg R s -> gossip_step cfg s s' -> bodies_inv cfg R s'.
Proof.
  intros Hinv [ev Hev]. destruct s as [a c ws now log].
  assert (HW : forall i w, ws !! i = Some w -> forall ps, worker_peers w = Some ps -> R ⊆ ps)
    by (intros i w Hi ps Hp; eapply (proj1 Hinv); [by eapply list_elem_of_lookup_2 | done]).
  assert (Hfin : forall i w a' c' peers p pp, ws !! i = Some w -> worker_peers w = Some peers ->
            bodies_inv cfg R (install (mk_gstate a c ws now log) i (finish_candidate a' c' peers p pp))).
  { intros i w a' c' peers p pp Hi Hp.
    pose proof (finish_candidate_peers R a' c' peers p pp (HW i w Hi _ Hp)) as H1.
    pose proof (finish_candidate_out a' c' peers p pp) as H2.
    destruct (finish_candidate a' c' peers p pp) as [[[a1 c1] w1] out1]. simpl in H1, H2. subst out1.
    eapply bodies_inv_install; [done|done|done|set_solver]. }
  destruct ev as [i|i ok|i r|t|p]; simpl in Hev; [| | |by simplify_eq; destruct Hinv|by simplify_eq; destruct Hinv].
  - destruct (ws !! i) as [[peers| | | |]|] eqn:Hi; try done.
    pose proof (HW i _ Hi peers eq_refl) as Hp.
    unfold worker_dequeue, q_get in Hev. destruct (items (to_check c)) as [|[p|] rest]; [done| |];
      repeat (case_match || case_decide); simpl in Hev; simplify_eq;
      (eapply bodies_inv_install; [done|done|intros ? [= <-]; done|]);
      intros t b self Hin; rewrite ?list_elem_of_singleton in Hin; set_solver.
  - destruct (ws !! i) as [[|peers p| | |]|] eqn:Hi; simplify_eq.
    unfold worker_post_done. destruct ok; [|by eapply Hfin].
    eapply bodies_inv_install; [done|done| |]; [intros ? [= <-]; by eapply (HW i _ Hi)|].
    intros t b self Hin. apply list_elem_of_singleton in Hin. done.
  - destruct (ws !! i) as [[| |peers p| |]|] eqn:Hi; simplify_eq.
    destruct r; unfold worker_get_done; try by eapply Hfin.
    eapply bodies_inv_install; [done|done|done|]. intros t b self Hin. set_solver.
Qed.

Lemma bodies_inv_reachable cfg order a now s :
  rtc (gossip_step cfg) (cycle_start cfg order a now) s ->
  bodies_inv cfg (list_to_set (map Some order)) s.
Proof.
  apply rtc_ind_r; [|eauto using bodies_inv_step].
  split; cbn [cycle_start g_workers g_log]; [|set_solver].
  intros w ps (-> & _)%elem_of_replicate [= <-]. done.
Qed.

End GossipInv.
