(* ===== verification/GossipProps.v ===== *)
(** * GossipProps: what the gossip cycle guarantees

    The properties of [Application.get_peers]' worker pool that follow
    from the invariant of [GossipInv], stated for every state reachable
    from the start of a cycle by any interleaving of the workers, of the
    clock and of concurrent [PeerHandler.post] errors:
    - the race branch of [peer_worker] (lines 250-253, which neither
      processes the candidate nor calls [task_done]) is never taken;
    - the only exception that escapes a worker is the [TypeError] of
      [peers.union] on an unusable peer list;
    - [join] returns exactly when no candidate is queued or contacted
      and no peer has reported a [null], whose task is never done;
    - a peer is notified at most once per cycle, the node never
      notifies itself, and every notify carries the registry the cycle
      started from;
    and, of the single steps: the dead-peer window of lines 235-241 and
    the peers the loop of lines 292-296 enqueues.  The witnesses run a
    cycle on a three-node network. *)

From S2P Require Import Prelude App DeadPeers WorkQueue Gossip GossipInv.
Import WorkQueue DeadPeers Gossip GossipInv.

Module GossipProps.

(** ** A concrete cycle *)

Definition ex_cfg : config := mk_config "http://me/" "http://registry/".
Definition ex_registry : list string := ["http://me/"; "http://a/"].
Definition ex_app : app := app_init (list_to_set ex_registry).
Definition ex_start : gstate := cycle_start ex_cfg ex_registry ex_app 1000.

(** Worker 0 skips the node itself, worker 1 contacts [a], which reports
    [b] (new) and the node itself. *)
Definition ex_schedule : list event :=
  [EvDequeue 0; EvDequeue 1; EvPostDone 1 true;
   EvGetDone 1 (GetPeers [Some "http://b/"; Some "http://me/"])].

Definition ex_mid : gstate := default ex_start (run_events ex_cfg ex_schedule ex_start).

(** Worker 1 suspended in the GET of [a]'s peer list, and the same
    state after [a] answered with a value [peers.union] cannot take. *)
Definition ex_fetching : gstate :=
  default ex_start (run_events ex_cfg (take 3 ex_schedule) ex_start).
Definition ex_crashed : gstate :=
  default ex_fetching (gossip_resume ex_cfg (EvGetDone 1 GetUnhashable) ex_fetching).

(** Then worker 0 takes [b], whose notify fails. *)
Definition ex_end : gstate :=
  default ex_mid (run_events ex_cfg [EvDequeue 0; EvPostDone 0 false] ex_mid).

(** A queue holding [a], which failed five seconds ago. *)
Definition ex_dead_app : app :=
  set_last_errored {["http://a/" := 995%Z]} (app_init {["http://a/"]}).
Definition ex_one_cycle : cycle :=
  mk_cycle (mk_queue [Some "http://a/"] 1) {[Some "http://a/"]} {["http://me/"]} [].


(** ** The cycle invariant *)

(** C3: every state reachable from the start of a gossip cycle by any
    interleaving of worker steps, clock moves and concurrent error
    records satisfies the cycle invariant [cycle_inv]. *)
Theorem gossip_cycle_invariant cfg order a now s :
  NoDup order -> contacting a = ∅ ->
  rtc (gossip_step cfg) (cycle_start cfg order a now) s -> cycle_inv cfg s.
Proof. apply cycle_inv_reachable. Qed.

Lemma gossip_cycle_invariant_witness :
  cycle_inv ex_cfg ex_end.
Proof.
  apply (gossip_cycle_invariant ex_cfg ex_registry ex_app 1000).
  - apply (bool_decide_unpack _). vm_compute. reflexivity.
  - reflexivity.
  - apply (run_events_rtc _ (ex_schedule ++ [EvDequeue 0; EvPostDone 0 false])).
    vm_compute. reflexivity.
Defined.

(** C8: in a reachable state the candidate at the head of the queue is
    never in [Application.contacting], so the race branch of lines
    250-253 ([continue] without [task_done]) is dead code. *)
Theorem race_branch_unreachable cfg order a now s p rest :
  NoDup order -> contacting a = ∅ ->
  rtc (gossip_step cfg) (cycle_start cfg order a now) s ->
  items (to_check (g_cycle s)) = Some p :: rest ->
  p ∉ contacting (g_app s).
Proof.
  intros Hnd Hct Hr Hq.
  apply (inv_head cfg s p rest); [by eapply cycle_inv_reachable | done].
Qed.

Lemma race_branch_unreachable_witness :
  "http://b/" ∉ contacting (g_app ex_mid).
Proof.
  apply (race_branch_unreachable ex_cfg ex_registry ex_app 1000 ex_mid "http://b/" []).
  - apply (bool_decide_unpack _). vm_compute. reflexivity.
  - reflexivity.
  - apply (run_events_rtc _ ex_schedule). vm_compute. reflexivity.
  - vm_compute. reflexivity.
Defined.

(** C9: from a reachable state, a step leaves a worker crashed only if
    it already was, or if the step is the GET reply that [peers.union]
    cannot take: [set.remove] and [task_done] never raise. *)
Theorem worker_exception_only_unhashable cfg order a now s ev s' j p :
  NoDup order -> contacting a = ∅ ->
  rtc (gossip_step cfg) (cycle_start cfg order a now) s ->
  gossip_resume cfg ev s = Some s' ->
  g_workers s' !! j = Some (WCrashed p) ->
  g_workers s !! j = Some (WCrashed p) \/ ev = EvGetDone j GetUnhashable.
Proof.
  intros Hnd Hct Hr Hev Hj.
  destruct (step_worker cfg s ev s') as [Hw|(i & w & Hw & Hcr)];
    [by eapply cycle_inv_reachable | done | left; by rewrite <-Hw |].
  rewrite Hw in Hj. destruct (decide (i = j)) as [->|Hne].
  - apply list_lookup_insert_Some in Hj as [(_ & -> & _)|[Hne _]]; [|done].
    right. by apply (Hcr p).
  - left. by rewrite list_lookup_insert_ne in Hj.
Qed.

Lemma worker_exception_only_unhashable_witness :
  g_workers ex_fetching !! 1 = Some (WCrashed "http://a/") \/
  EvGetDone 1 GetUnhashable = EvGetDone 1 GetUnhashable.
Proof.
  apply (worker_exception_only_unhashable ex_cfg ex_registry ex_app 1000 ex_fetching
           (EvGetDone 1 GetUnhashable) ex_crashed).
  - apply (bool_decide_unpack _). vm_compute. reflexivity.
  - reflexivity.
  - apply (run_events_rtc _ (take 3 ex_schedule)). vm_compute. reflexivity.
  - vm_compute. reflexivity.
  - vm_compute. reflexivity.
Defined.

(** C4: in a reachable state, [await peers_to_check.join()] may return
    (the unfinished-task counter is zero) exactly when the queue is
    empty, no peer is being contacted and no peer has reported a [null]:
    no candidate is lost, the join cannot return early, and a reported
    [null], whose task the exiting worker never marks done, keeps it
    from returning. *)
Theorem join_iff_quiescent cfg order a now s :
  NoDup order -> contacting a = ∅ ->
  rtc (gossip_step cfg) (cycle_start cfg order a now) s ->
  q_joinable (to_check (g_cycle s)) = true <->
  items (to_check (g_cycle s)) = [] /\ contacting (g_app s) = ∅ /\ None ∉ to_check_set (g_cycle s).
Proof.
  intros Hnd Hct Hr. pose proof (cycle_inv_reachable cfg order a now s Hnd Hct Hr) as Hinv.
  unfold q_joinable. rewrite Nat.eqb_eq, unfinished_zero by done.
  assert (Hcs : contacting (g_app s) = ∅ <-> inflight (g_workers s) = []).
  { rewrite list_nil_iff, elem_of_equiv_empty_L.
    split; intros H x; [rewrite <-(ci_contacting _ _ Hinv)|rewrite (ci_contacting _ _ Hinv)]; apply H. }
  rewrite Hcs. done.
Qed.

Lemma join_iff_quiescent_witness :
  q_joinable (to_check (g_cycle ex_end)) = true <->
  items (to_check (g_cycle ex_end)) = [] /\ contacting (g_app ex_end) = ∅ /\
  None ∉ to_check_set (g_cycle ex_end).
Proof.
  apply (join_iff_quiescent ex_cfg ex_registry ex_app 1000).
  - apply (bool_decide_unpack _). vm_compute. reflexivity.
  - reflexivity.
  - apply (run_events_rtc _ (ex_schedule ++ [EvDequeue 0; EvPostDone 0 false])).
    vm_compute. reflexivity.
Defined.

(** C10: within a cycle every peer receives at most one notify POST. *)
Theorem notify_at_most_once cfg order a now s :
  NoDup order -> contacting a = ∅ ->
  rtc (gossip_step cfg) (cycle_start cfg order a now) s ->
  NoDup (notified (g_log s)).
Proof. intros Hnd Hct Hr. by destruct (cycle_inv_reachable cfg order a now s Hnd Hct Hr). Qed.

Lemma notify_at_most_once_witness : NoDup (notified (g_log ex_end)).
Proof.
  apply (notify_at_most_once ex_cfg ex_registry ex_app 1000).
  - apply (bool_decide_unpack _). vm_compute. reflexivity.
  - reflexivity.
  - apply (run_events_rtc _ (ex_schedule ++ [EvDequeue 0; EvPostDone 0 false])).
    vm_compute. reflexivity.
Defined.

(** C11: the node never sends a notify to its own [CHORD_URL], although
    the registry it gossips from contains it. *)
Theorem never_notifies_self cfg order a now s :
  NoDup order -> contacting a = ∅ ->
  rtc (gossip_step cfg) (cycle_start cfg order a now) s ->
  CHORD_URL cfg ∉ notified (g_log s).
Proof. intros Hnd Hct Hr. by destruct (cycle_inv_reachable cfg order a now s Hnd Hct Hr). Qed.

Lemma never_notifies_self_witness : CHORD_URL ex_cfg ∉ notified (g_log ex_end).
Proof.
  apply (never_notifies_self ex_cfg ex_registry ex_app 1000).
  - apply (bool_decide_unpack _). vm_compute. reflexivity.
  - reflexivity.
  - apply (run_events_rtc _ (ex_schedule ++ [EvDequeue 0; EvPostDone 0 false])).
    vm_compute. reflexivity.
Defined.

(** ** Single steps *)

(** C23: a worker that takes a peer whose last failure is less than
    [LAST_ERRORED_CACHE_TIME] old drops it (lines 235-241): it is taken
    off [peers_to_check_set], its task is done, and nothing is sent. *)
Theorem dequeue_skips_dead_peer cfg now a c peers p rest t :
  items (to_check c) = Some p :: rest -> last_errored a !! p = Some t ->
  (now - t < LAST_ERRORED_CACHE_TIME)%Z ->
  Some p ∈ to_check_set c -> unfinished (to_check c) <> 0 ->
  worker_dequeue cfg now a c peers =
  Some (a, mk_cycle (mk_queue rest (pred (unfinished (to_check c))))
             (to_check_set c ∖ {[Some p]}) (attempted c) (results c), WIdle peers, []).
Proof.
  intros Hq Ht Hnow Hp Hu. unfold worker_dequeue, q_get. rewrite Hq.
  assert (Hd : recently_errored (last_errored a) now p = true)
    by (apply recently_errored_true; eauto).
  rewrite Hd, skip_candidate_ok by done. done.
Qed.

Lemma dequeue_skips_dead_peer_witness :
  worker_dequeue ex_cfg 1000 ex_dead_app ex_one_cycle ∅ =
  Some (ex_dead_app, mk_cycle (mk_queue [] 0) ({[Some "http://a/"]} ∖ {[Some "http://a/"]})
          {["http://me/"]} [], WIdle ∅, []).
Proof.
  apply (dequeue_skips_dead_peer ex_cfg 1000 ex_dead_app ex_one_cycle ∅ "http://a/" [] 995);
    vm_compute; first [reflexivity | lia | set_solver].
Defined.

(** C24: once the window has passed (or when the peer never failed), a
    peer neither attempted nor being contacted is contacted: it joins
    [contacting] and the notify POST of lines 262-269 is sent to it. *)
Theorem dequeue_contacts_live_peer cfg now a c peers p rest :
  items (to_check c) = Some p :: rest ->
  (forall t, last_errored a !! p = Some t -> (LAST_ERRORED_CACHE_TIME <= now - t)%Z) ->
  p ∉ attempted c -> p ∉ contacting a ->
  worker_dequeue cfg now a c peers =
  Some (set_contacting ({[p]} ∪ contacting a) a,
        set_to_check (mk_queue rest (unfinished (to_check c))) c,
        WPosting peers p, [ReqNotify p peers (CHORD_URL cfg)]).
Proof.
  intros Hq Ht Ha Hc. unfold worker_dequeue, q_get. rewrite Hq.
  assert (Hd : recently_errored (last_errored a) now p = false).
  { apply not_true_iff_false. rewrite recently_errored_true.
    intros (t & Ht' & Hlt). specialize (Ht t Ht'). lia. }
  rewrite Hd. simpl. rewrite !decide_False by done. done.
Qed.

Lemma dequeue_contacts_live_peer_witness :
  worker_dequeue ex_cfg 1030 ex_dead_app ex_one_cycle ∅ =
  Some (set_contacting ({["http://a/"]} ∪ ∅) ex_dead_app,
        set_to_check (mk_queue [] 1) ex_one_cycle,
        WPosting ∅ "http://a/", [ReqNotify "http://a/" ∅ "http://me/"]).
Proof.
  apply (dequeue_contacts_live_peer ex_cfg 1030 ex_dead_app ex_one_cycle ∅ "http://a/" []).
  - reflexivity.
  - intros t Ht. vm_compute in Ht. injection Ht as <-. vm_compute. discriminate.
  - vm_compute. set_solver.
  - vm_compute. set_solver.
Defined.

(** C25: the loop of lines 292-296 appends to the queue, in the order
    reported and once each, exactly the reported peers that are neither
    pending, being contacted nor attempted, a reported [null] included;
    it counts one unfinished task per enqueued entry and sets [new_peer]
    when it enqueued one. *)
Theorem enqueue_new_enqueues_unseen a pp c :
  let '(c', new_peer) := enqueue_new a pp c in
  exists N, items (to_check c') = items (to_check c) ++ N /\
    unfinished (to_check c') = unfinished (to_check c) + length N /\
    N `sublist_of` pp /\ NoDup N /\
    (forall x, x ∈ N <-> x ∈ pp /\ (x ∉ to_check_set c) /\ (x ∉ lift (contacting a)) /\
                         (x ∉ lift (attempted c))) /\
    to_check_set c' = to_check_set c ∪ list_to_set N /\
    attempted c' = attempted c /\ results c' = results c /\
    new_peer = bool_decide (N <> []).
Proof.
  rewrite enqueue_new_spec. simpl.
  set (N := fresh_peers _ pp).
  destruct (q_put_all_items N (to_check c)) as [Hi Hu].
  exists N. rewrite Hi, Hu.
  split_and!; try done.
  - apply fresh_peers_sublist.
  - apply fresh_peers_nodup.
  - intros x. unfold N. rewrite fresh_peers_spec. set_solver.
Qed.

(** C19: every notify a worker sends during a cycle names the node
    itself as [self] and lists at least the registry the cycle started
    from: line 266 sends [list(peers)], and line 289 only ever adds to a
    worker's [peers]. *)
Theorem notify_body_holds_registry cfg order a now s t b self :
  rtc (gossip_step cfg) (cycle_start cfg order a now) s ->
  ReqNotify t b self ∈ g_log s ->
  list_to_set (map Some order) ⊆ b /\ self = CHORD_URL cfg.
Proof. intros Hr. apply (bodies_inv_reachable cfg order a now s Hr). Qed.

Lemma notify_body_holds_registry_witness :
  list_to_set (map Some ex_registry) ⊆ (list_to_set (map Some ex_registry) : gset (option string)) /\
  "http://me/" = CHORD_URL ex_cfg.
Proof.
  apply (notify_body_holds_registry ex_cfg ex_registry ex_app 1000 ex_end "http://b/").
  - apply (run_events_rtc _ (ex_schedule ++ [EvDequeue 0; EvPostDone 0 false])).
    vm_compute. reflexivity.
  - apply list_elem_of_In. vm_compute. right; right; left. reflexivity.
Defined.

End GossipProps.
