(* ===== verification/Refresh.v ===== *)
(** * Refresh: the guard and the two ends of [Application.get_peers]

    [get_peers] (src/chord_federation/app.py, lines 306-346) reads the
    registry, and when the registry is older than an hour or
    [peer_cache_invalidated] is set, and no other call is fetching,
    runs a gossip cycle: [refresh_begin] is the code up to
    [await peers_to_check.join()] (lines 312-331), [refresh_finish] the
    code between the join and [await workers] (lines 333-342).  The
    caller always gets back the set it read at line 308. *)

From S2P Require Import Prelude App DeadPeers WorkQueue Gossip.
Import WorkQueue Gossip.

Module Refresh.

(** Lines 310-311. *)
Definition needs_refresh (now : Z) (a : app) : bool :=
  (bool_decide (now - PEERS_MAX_AGE > last_peers_update a)%Z || peer_cache_invalidated a)
  && negb (fetching_peers a).

(** Lines 312-313: the flags set before the cycle is seeded. *)
Definition refresh_begin (now : Z) (a : app) : app :=
  set_last_peers_update now (set_fetching_peers true a).

(** [True in results]. *)
Definition any_new_peer (results : list bool) : bool := existsb (fun b => b) results.

(** Lines 333-338: the flag update, the registry inserts of the set read
    at line 308 (iterated as [order]) and the end of [fetching_peers]. *)
Definition refresh_finish (order : list string) (c : cycle) (a : app) : app :=
  let a1 := set_peer_cache_invalidated (peer_cache_invalidated a || any_new_peer (results c)) a in
  let a2 := set_db (Registry.insert_all order (db a1)) a1 in
  set_fetching_peers false a2.

(** Lines 340-342: one [None] per worker. *)
Definition put_sentinels (c : cycle) : cycle :=
  set_to_check (q_put_all (replicate WORKERS None) (to_check c)) c.

Lemma needs_refresh_true now a :
  needs_refresh now a = true <->
  ((now - PEERS_MAX_AGE > last_peers_update a)%Z \/ peer_cache_invalidated a = true) /\
  fetching_peers a = false.
Proof.
  unfold needs_refresh. rewrite andb_true_iff, orb_true_iff, bool_decide_eq_true, negb_true_iff.
  done.
Qed.

Lemma refresh_finish_db order c a :
  db (refresh_finish order c a) = db a ∪ list_to_set order.
Proof. unfold refresh_finish. simpl. apply Registry.insert_all_union. Qed.

End Refresh.
