(* ===== verification/System.v ===== *)
(** * System: concurrent calls of [get_peers] and their worker pools

    [Application.get_peers] is called by [PeerHandler.get],
    [SearchHandler.post] and [ServiceInfoHandler.get]; many such calls
    may be in progress at once, each suspended at one of its [await]s.
    A call is a [caller]: joining its workers' queue (lines 315-331,
    with its own queue, sets and WORKERS workers), draining its workers
    after the sentinels (lines 340-344), or returned with the set it read
    at line 308.  The application state, including [contacting] and
    [fetching_peers], is shared by all of them.  [sys_resume] runs one
    atomic piece of one coroutine; [sys_step] is the interleaving
    relation. *)

From S2P Require Import Prelude App DeadPeers WorkQueue Gossip Refresh.
Import WorkQueue Gossip Refresh.

Module System.

Inductive caller :=
  | CJoining (order : list string) (c : cycle) (ws : list worker) (log : list request)
  | CDraining (order : list string) (c : cycle) (ws : list worker) (log : list request)
  | CDone (peers : gset string).

Record sys := mk_sys {
  s_app : app;
  s_now : Z;
  s_callers : list caller;
}.

Inductive sys_event :=
  | SClock (t : Z)
  | SCall
  | SWorker (k : nat) (ev : event)
  | SJoin (k : nat)
  | SWorkersDone (k : nat).

(** The events that resume a [peer_worker]. *)
Definition worker_event (ev : event) : bool :=
  match ev with
  | EvDequeue _ | EvPostDone _ _ | EvGetDone _ _ => true
  | _ => false
  end.

Definition is_exited (w : worker) : bool :=
  match w with WExited => true | _ => false end.

(** Lines 307-328 up to the join, or the early [return peers]. *)
Definition call_get_peers (cfg : config) (s : sys) : sys :=
  let a := s_app s in
  let peers := Registry.select_peers (db a) in
  if needs_refresh (s_now s) a then
    let g := cycle_start cfg (elements peers) (refresh_begin (s_now s) a) (s_now s) in
    mk_sys (g_app g) (s_now s)
      (s_callers s ++ [CJoining (elements peers) (g_cycle g) (g_workers g) (g_log g)])
  else mk_sys a (s_now s) (s_callers s ++ [CDone peers]).

(** Resume a worker of caller [k]'s pool. *)
Definition resume_worker (cfg : config) (k : nat) (ev : event) (s : sys) : option sys :=
  let lift (mk : list string -> cycle -> list worker -> list request -> caller) order c ws log :=
    g' ← gossip_resume cfg ev (mk_gstate (s_app s) c ws (s_now s) log);
    Some (mk_sys (g_app g') (s_now s)
            (<[k:=mk order (g_cycle g') (g_workers g') (g_log g')]> (s_callers s))) in
  if worker_event ev then
    match s_callers s !! k with
    | Some (CJoining order c ws log) => lift CJoining order c ws log
    | Some (CDraining order c ws log) => lift CDraining order c ws log
    | _ => None
    end
  else None.

Definition sys_resume (cfg : config) (ev : sys_event) (s : sys) : option sys :=
  match ev with
  | SClock t => Some (mk_sys (s_app s) t (s_callers s))
  | SCall => Some (call_get_peers cfg s)
  | SWorker k wev => resume_worker cfg k wev s
  | SJoin k =>
      match s_callers s !! k with
      | Some (CJoining order c ws log) =>
          if q_joinable (to_check c) then
            Some (mk_sys (refresh_finish order c (s_app s)) (s_now s)
                    (<[k:=CDraining order (put_sentinels c) ws log]> (s_callers s)))
          else None
      | _ => None
      end
  | SWorkersDone k =>
      match s_callers s !! k with
      | Some (CDraining order c ws log) =>
          if forallb is_exited ws then
            Some (mk_sys (s_app s) (s_now s) (<[k:=CDone (list_to_set order)]> (s_callers s)))
          else None
      | _ => None
      end
  end.

Definition sys_step (cfg : config) (s s' : sys) : Prop :=
  exists ev, sys_resume cfg ev s = Some s'.

(** The process after [Application.__init__] on a registry [t]. *)
Definition sys_init (t : gset string) (now : Z) : sys := mk_sys (app_init t) now [].

Fixpoint sys_run (cfg : config) (evs : list sys_event) (s : sys) : option sys :=
  match evs with
  | [] => Some s
  | ev :: evs' => sys_resume cfg ev s ≫= sys_run cfg evs'
  end.

End System.
