(* ===== verification/SystemInv.v ===== *)
(** * SystemInv: the invariant of concurrent [get_peers] calls

    [sys_core]: at most one call is joining a gossip cycle;
    [fetching_peers] is set exactly while one is; that call's cycle
    satisfies [cycle_inv]; when none is, [contacting] is empty; draining
    calls hold no candidate and have only sentinels left in their queue.
    It speaks of no field of the application that a notify handler
    writes, so it also holds of a node where notifies interleave
    ([Node]).  [sys_inv] adds the registry: it never changes and every
    call returns it. *)

From S2P Require Import Prelude App DeadPeers WorkQueue Gossip GossipInv Refresh System.
Import WorkQueue Gossip GossipInv Refresh System.

Module SystemInv.

Definition joining (cl : caller) : bool :=
  match cl with CJoining _ _ _ _ => true | _ => false end.

Fixpoint n_joining (cs : list caller) : nat :=
  match cs with
  | [] => 0
  | cl :: r => Nat.b2n (joining cl) + n_joining r
  end.

Record sys_core (cfg : config) (s : sys) : Prop := {
  sc_one : n_joining (s_callers s) <= 1;
  sc_fetching : fetching_peers (s_app s) = bool_decide (0 < n_joining (s_callers s));
  sc_cycle : forall k order c ws log, s_callers s !! k = Some (CJoining order c ws log) ->
    cycle_inv cfg (mk_gstate (s_app s) c ws (s_now s) log);
  sc_idle : n_joining (s_callers s) = 0 -> contacting (s_app s) = ∅;
  sc_drain : forall k order c ws log, s_callers s !! k = Some (CDraining order c ws log) ->
    inflight ws = [] /\ Forall (fun x => x = None) (items (to_check c));
}.

(** The list a joining or draining call iterates at lines 335-336. *)
Definition caller_order (cl : caller) : option (list string) :=
  match cl with CJoining order _ _ _ | CDraining order _ _ _ => Some order | CDone _ => None end.

Record sys_inv (cfg : config) (t0 : gset string) (s : sys) : Prop := {
  si_core : sys_core cfg s;
  si_order : forall k cl order, s_callers s !! k = Some cl -> caller_order cl = Some order ->
    order = elements t0;
  si_done : forall k peers, s_callers s !! k = Some (CDone peers) -> peers = t0;
  si_db : db (s_app s) = t0;
}.

(** ** Counting joining calls *)

Lemma n_joining_insert cs k x y :
  cs !! k = Some y -> n_joining (<[k:=x]> cs) + Nat.b2n (joining y) = n_joining cs + Nat.b2n (joining x).
Proof.
  revert k. induction cs as [|c cs IH]; intros [|k] Hk; simplify_eq/=; [lia|].
  specialize (IH k Hk). lia.
Qed.

Lemma n_joining_app cs x : n_joining (cs ++ [x]) = n_joining cs + Nat.b2n (joining x).
Proof. induction cs as [|c cs IH]; simpl; lia. Qed.

Lemma n_joining_pos cs k y : cs !! k = Some y -> joining y = true -> 0 < n_joining cs.
Proof.
  revert k. induction cs as [|c cs IH]; intros [|k] Hk Hy; simplify_eq/=.
  - rewrite Hy. simpl. lia.
  - specialize (IH k Hk Hy). lia.
Qed.

Lemma joining_unique cs k j y z :
  n_joining cs <= 1 -> cs !! k = Some y -> joining y = true ->
  cs !! j = Some z -> joining z = true -> j = k.
Proof.
  revert k j. induction cs as [|c cs IH]; intros [|k] [|j] Hn Hk Hy Hj Hz; simplify_eq/=; try done.
  - pose proof (n_joining_pos cs j z Hj Hz). rewrite Hy in Hn. simpl in Hn. lia.
  - pose proof (n_joining_pos cs k y Hk Hy). rewrite Hz in Hn. simpl in Hn. lia.
  - f_equal. apply (IH k j); try done. lia.
Qed.

(** ** Gossip steps touch only the fields the workers write *)

Lemma gossip_resume_frame cfg ev g g' :
  gossip_resume cfg ev g = Some g' -> worker_event ev = true ->
  fetching_peers (g_app g') = fetching_peers (g_app g) /\
  peer_cache_invalidated (g_app g') = peer_cache_invalidated (g_app g) /\
  last_peers_update (g_app g') = last_peers_update (g_app g) /\
  db (g_app g') = db (g_app g) /\ g_now g' = g_now g.
Proof.
  intros Hev Hw. destruct g as [a c ws now log].
  destruct ev; simpl in Hev, Hw; try done; repeat case_match; simplify_eq/=;
    unfold worker_dequeue, worker_post_done, worker_get_done, finish_candidate in *;
    repeat (case_match; simplify_eq/=); done.
Qed.

(** A draining pool only takes sentinels. *)
Lemma drain_resume cfg ev a c ws now log g' :
  inflight ws = [] -> Forall (fun x => x = None) (items (to_check c)) ->
  worker_event ev = true ->
  gossip_resume cfg ev (mk_gstate a c ws now log) = Some g' ->
  g_app g' = a /\ g_now g' = now /\ inflight (g_workers g') = [] /\
  Forall (fun x => x = None) (items (to_check (g_cycle g'))).
Proof.
  intros Hi Hq Hw Hev. destruct ev as [i|i ok|i r| |]; simpl in Hev, Hw; try done.
  - destruct (ws !! i) as [[peers| | | |]|] eqn:Hl; try done.
    unfold worker_dequeue, q_get in Hev.
    destruct (items (to_check c)) as [|[p|] rest] eqn:E; simpl in Hev; try done.
    + apply Forall_cons in Hq as [? _]. done.
    + simplify_eq/=. apply Forall_cons in Hq as [_ Hq].
      split_and!; try done.
      apply Permutation_nil_r. rewrite <-Hi. by apply (inflight_insert_same _ _ _ _ Hl).
  - destruct (ws !! i) as [[|peers p| | |]|] eqn:Hl; try done.
    exfalso. assert (Hp : p ∈ inflight ws) by (eapply held_inflight; [done | by left]).
    rewrite Hi in Hp. by inversion Hp.
  - destruct (ws !! i) as [[| |peers p| |]|] eqn:Hl; try done.
    exfalso. assert (Hp : p ∈ inflight ws) by (eapply held_inflight; [done | by left]).
    rewrite Hi in Hp. by inversion Hp.
Qed.

(** ** Preservation of the core *)

Lemma lookup_snoc_cases {A} (l : list A) x k y :
  (l ++ [x]) !! k = Some y -> l !! k = Some y \/ y = x.
Proof.
  intros [Hk|[_ Hk]]%lookup_app_Some; [by left|]. apply list_lookup_singleton_Some in Hk as [_ ?]. by right.
Qed.

Lemma sys_core_init cfg t0 now : sys_core cfg (sys_init t0 now).
Proof. split; simpl; try done; [lia|..]; intros *; intros H; by rewrite lookup_nil in H. Qed.

(** Changing only fields of the application other than [contacting]
    and [fetching_peers], and the clock, keeps the core. *)
Lemma sys_core_app_irrel cfg s a' now' :
  contacting a' = contacting (s_app s) -> fetching_peers a' = fetching_peers (s_app s) ->
  sys_core cfg s -> sys_core cfg (mk_sys a' now' (s_callers s)).
Proof.
  intros Hc Hf [Hone Hfe Hcy Hid Hdr]. split; simpl; try done.
  - by rewrite Hf.
  - intros k order c ws log Hk. eapply cycle_inv_app_irrel; [done|]. by eapply Hcy.
  - rewrite Hc. done.
Qed.

Lemma sys_core_call cfg s : sys_core cfg s -> sys_core cfg (call_get_peers cfg s).
Proof.
  intros [Hone Hf Hcy Hid Hdr]. unfold call_get_peers, Registry.select_peers.
  destruct s as [a now cs]; simpl in *.
  destruct (needs_refresh now a) eqn:Hr.
  - apply needs_refresh_true in Hr as [_ Hfa]. rewrite Hf in Hfa.
    apply bool_decide_eq_false in Hfa. assert (Hn0 : n_joining cs = 0) by lia.
    split; simpl; rewrite ?n_joining_app, ?Hn0; try done.
    + intros k order c ws log [Hk|Hk]%lookup_snoc_cases; simplify_eq.
      * pose proof (n_joining_pos _ _ _ Hk eq_refl). lia.
      * apply cycle_start_inv; [apply NoDup_elements | by apply Hid].
    + intros k order c ws log [Hk|Hk]%lookup_snoc_cases; [by eapply Hdr|done].
  - split; simpl; rewrite ?n_joining_app; simpl; rewrite ?Nat.add_0_r; try done.
    + intros k order c ws log [Hk|Hk]%lookup_snoc_cases; [by eapply Hcy|done].
    + intros k order c ws log [Hk|Hk]%lookup_snoc_cases; [by eapply Hdr|done].
Qed.

Lemma bool_decide_lt_congr (m n : nat) : m = n -> bool_decide (0 < m) = bool_decide (0 < n).
Proof. by intros ->. Qed.

Lemma sys_core_worker cfg s k ev s' :
  sys_core cfg s -> resume_worker cfg k ev s = Some s' -> sys_core cfg s'.
Proof.
  intros [Hone Hf Hcy Hid Hdr] Hr. unfold resume_worker in Hr.
  destruct (worker_event ev) eqn:Hw; [|done].
  destruct (s_callers s !! k) as [[order c ws log|order c ws log|peers]|] eqn:Hk; try done;
    destruct (gossip_resume _ _ _) as [g'|] eqn:Hg; simplify_eq/=.
  - assert (Hc' : cycle_inv cfg g') by (eapply gossip_step_inv; [exact (Hcy k order c ws log Hk) | by exists ev]).
    destruct (gossip_resume_frame _ _ _ _ Hg Hw) as (Hfe & _ & _ & _ & Hn). simpl in *.
    assert (Hnj := n_joining_insert _ k (CJoining order (g_cycle g') (g_workers g') (g_log g')) _ Hk).
    simpl in Hnj. pose proof (n_joining_pos _ _ _ Hk eq_refl).
    split; simpl.
    + lia.
    + rewrite Hfe, Hf. apply bool_decide_lt_congr. lia.
    + intros j o c' ws' l' Hj. lookup_insert_cases Hj.
      * destruct g'; simpl in *. by subst.
      * exfalso. apply E. symmetry. eapply (joining_unique _ k j); done.
    + lia.
    + intros j o c' ws' l' Hj. lookup_insert_cases Hj. by eapply Hdr.
  - destruct (Hdr k order c ws log Hk) as (Hi & Hq).
    destruct (drain_resume _ _ _ _ _ _ _ _ Hi Hq Hw Hg) as (Ha & Hn & Hi' & Hq').
    rewrite Ha.
    assert (Hnj := n_joining_insert _ k (CDraining order (g_cycle g') (g_workers g') (g_log g')) _ Hk).
    simpl in Hnj. rewrite !Nat.add_0_r in Hnj.
    split; simpl; rewrite ?Hnj; try done.
    + intros j o c' ws' l' Hj. lookup_insert_cases Hj. by eapply Hcy.
    + intros j o c' ws' l' Hj. lookup_insert_cases Hj; [done|]. by eapply Hdr.
Qed.

Lemma sys_core_join cfg s k order c ws log a' :
  sys_core cfg s -> s_callers s !! k = Some (CJoining order c ws log) ->
  q_joinable (to_check c) = true ->
  contacting a' = contacting (s_app s) -> fetching_peers a' = false ->
  sys_core cfg (mk_sys a' (s_now s) (<[k:=CDraining order (put_sentinels c) ws log]> (s_callers s))).
Proof.
  intros [Hone Hf Hcy Hid Hdr] Hk Hj Hca Hfa.
  destruct (inv_joinable cfg _ (Hcy k order c ws log Hk) Hj) as (Hq & Hi & Hct). simpl in *.
  assert (Hnj := n_joining_insert _ k (CDraining order (put_sentinels c) ws log) _ Hk).
  simpl in Hnj. pose proof (n_joining_pos _ _ _ Hk eq_refl).
  assert (Hn0 : n_joining (<[k:=CDraining order (put_sentinels c) ws log]> (s_callers s)) = 0) by lia.
  split; cbn [s_app s_callers s_now]; rewrite ?Hn0.
  - lia.
  - done.
  - intros j o c' ws' l' Hj'. pose proof (n_joining_pos _ _ _ Hj' eq_refl). lia.
  - by rewrite Hca.
  - intros j o c' ws' l' Hj'. lookup_insert_cases Hj'; [|by eapply Hdr].
    split; [done|].
    assert (Hs : items (to_check (put_sentinels c)) = items (to_check c) ++ replicate WORKERS None)
      by apply (q_put_all_items (replicate WORKERS None) (to_check c)).
    rewrite Hs, Hq. by apply Forall_replicate.
Qed.

Lemma sys_core_done cfg s k order c ws log peers :
  sys_core cfg s -> s_callers s !! k = Some (CDraining order c ws log) ->
  sys_core cfg (mk_sys (s_app s) (s_now s) (<[k:=CDone peers]> (s_callers s))).
Proof.
  intros [Hone Hf Hcy Hid Hdr] Hk.
  assert (Hnj := n_joining_insert _ k (CDone peers) _ Hk).
  simpl in Hnj. rewrite !Nat.add_0_r in Hnj.
  split; simpl; rewrite ?Hnj; try done.
  - intros j o c' ws' l' Hj. lookup_insert_cases Hj. by eapply Hcy.
  - intros j o c' ws' l' Hj. lookup_insert_cases Hj. by eapply Hdr.
Qed.

(** Every step of the system keeps the core. *)
Lemma sys_core_step cfg s s' : sys_core cfg s -> sys_step cfg s s' -> sys_core cfg s'.
Proof.
  intros Hinv [ev Hev]. destruct ev as [t| |k wev|k|k]; simpl in Hev.
  - simplify_eq. by apply (sys_core_app_irrel cfg s (s_app s) t).
  - simplify_eq. by apply sys_core_call.
  - by eapply sys_core_worker.
  - destruct (s_callers s !! k) as [[order c ws log| |]|] eqn:Hk; try done.
    destruct (q_joinable _) eqn:Hj; simplify_eq. by eapply sys_core_join.
  - destruct (s_callers s !! k) as [[|order c ws log|]|] eqn:Hk; try done.
    destruct (forallb _ _); simplify_eq. by eapply sys_core_done.
Qed.

(** ** The registry *)

(** What a step does to the callers and the registry. *)
Lemma sys_step_shape cfg s s' :
  sys_step cfg s s' ->
  (s_callers s' = s_callers s /\ db (s_app s') = db (s_app s)) \/
  (s_callers s' = s_callers s ++ [CDone (db (s_app s))] /\ db (s_app s') = db (s_app s)) \/
  (s_callers s' = s_callers s ++ [CJoining (elements (db (s_app s))) (g_cycle (cycle_start cfg (elements (db (s_app s))) (refresh_begin (s_now s) (s_app s)) (s_now s))) (g_workers (cycle_start cfg (elements (db (s_app s))) (refresh_begin (s_now s) (s_app s)) (s_now s))) (g_log (cycle_start cfg (elements (db (s_app s))) (refresh_begin (s_now s) (s_app s)) (s_now s)))] /\
   db (s_app s') = db (s_app s)) \/
  (exists k cl cl', s_callers s !! k = Some cl /\ s_callers s' = <[k:=cl']> (s_callers s) /\
     caller_order cl' = caller_order cl /\ is_Some (caller_order cl) /\ db (s_app s') = db (s_app s)) \/
  (exists k order c ws log, s_callers s !! k = Some (CJoining order c ws log) /\
     s_callers s' = <[k:=CDraining order (put_sentinels c) ws log]> (s_callers s) /\
     db (s_app s') = db (s_app s) ∪ list_to_set order) \/
  (exists k order c ws log, s_callers s !! k = Some (CDraining order c ws log) /\
     s_callers s' = <[k:=CDone (list_to_set order)]> (s_callers s) /\ db (s_app s') = db (s_app s)).
Proof.
  intros [ev Hev]. destruct ev as [t| |k wev|k|k]; simpl in Hev.
  - simplify_eq. by left.
  - simplify_eq. unfold call_get_peers, Registry.select_peers. destruct (needs_refresh _ _); simpl.
    + right; right; left. done.
    + right; left. done.
  - right; right; right; left. unfold resume_worker in Hev.
    destruct (worker_event wev) eqn:Hw; [|done].
    destruct (s_callers s !! k) as [[order c ws log|order c ws log|peers]|] eqn:Hk; try done;
      destruct (gossip_resume _ _ _) as [g'|] eqn:Hg; simplify_eq/=;
      destruct (gossip_resume_frame _ _ _ _ Hg Hw) as (_ & _ & _ & Hd & _);
      eexists k, _, _; split_and!; [exact Hk|reflexivity|done|by eexists|done|exact Hk|reflexivity|done|by eexists|done].
  - do 4 right; left. destruct (s_callers s !! k) as [[order c ws log| |]|] eqn:Hk; try done.
    destruct (q_joinable _); simplify_eq. exists k, order, c, ws, log. split_and!; [done|done|].
    apply refresh_finish_db.
  - do 5 right. destruct (s_callers s !! k) as [[|order c ws log|]|] eqn:Hk; try done.
    destruct (forallb _ _); simplify_eq. by exists k, order, c, ws, log.
Qed.

(** Every step of the system keeps [sys_inv]. *)
Theorem sys_step_inv cfg t0 s s' : sys_inv cfg t0 s -> sys_step cfg s s' -> sys_inv cfg t0 s'.
Proof.
  intros [Hc Ho Hdn Hdb] Hs. pose proof (sys_core_step _ _ _ Hc Hs) as Hc'.
  destruct (sys_step_shape _ _ _ Hs) as [(Hcs & Hd)|[(Hcs & Hd)|[(Hcs & Hd)|[Hw|[Hj|Hdone]]]]].
  - split; rewrite ?Hcs, ?Hd; done.
  - split; rewrite ?Hcs, ?Hd; try done.
    + intros k cl order [Hk| ->]%lookup_snoc_cases; [by eapply Ho|done].
    + intros k peers [Hk|Hk]%lookup_snoc_cases; [by eapply Hdn|by simplify_eq].
  - split; rewrite ?Hcs, ?Hd; try done.
    + intros k cl order [Hk| ->]%lookup_snoc_cases; [by eapply Ho|]. simpl. intros [= <-]. by rewrite Hdb.
    + intros k peers [Hk|Hk]%lookup_snoc_cases; [by eapply Hdn|done].
  - destruct Hw as (k & cl & cl' & Hk & Hcs & Hor & [o Ho'] & Hd). split; rewrite ?Hcs, ?Hd; try done.
    + intros j cj order Hj. lookup_insert_cases Hj; [rewrite Hor|]; by eapply Ho.
    + intros j peers Hj. lookup_insert_cases Hj; [|by eapply Hdn].
      simpl in Hor. by rewrite <-Hor in Ho'.
  - destruct Hj as (k & order & c & ws & log & Hk & Hcs & Hd).
    pose proof (Ho k _ order Hk eq_refl) as Hord. subst order.
    split; rewrite ?Hcs, ?Hd; try done.
    + intros j cj o Hj. lookup_insert_cases Hj; [|by eapply Ho]. by intros [= <-].
    + intros j peers Hj. lookup_insert_cases Hj. by eapply Hdn.
    + rewrite Hdb, list_to_set_elements_L. set_solver.
  - destruct Hdone as (k & order & c & ws & log & Hk & Hcs & Hd).
    pose proof (Ho k _ order Hk eq_refl) as Hord. subst order.
    split; rewrite ?Hcs, ?Hd; try done.
    + intros j cj o Hj. lookup_insert_cases Hj; [done|by eapply Ho].
    + intros j peers Hj. lookup_insert_cases Hj; [|by eapply Hdn]. apply list_to_set_elements_L.
Qed.

Lemma sys_inv_init cfg t0 now : sys_inv cfg t0 (sys_init t0 now).
Proof. split; [apply sys_core_init|..]; simpl; try done; intros *; by rewrite lookup_nil. Qed.

Theorem sys_inv_reachable cfg t0 now s :
  rtc (sys_step cfg) (sys_init t0 now) s -> sys_inv cfg t0 s.
Proof.
  apply rtc_ind_r; [apply sys_inv_init|]. eauto using sys_step_inv.
Qed.

Lemma sys_run_rtc cfg evs s s' : sys_run cfg evs s = Some s' -> rtc (sys_step cfg) s s'.
Proof.
  revert s. induction evs as [|ev evs IH]; intros s H; simpl in H; [by simplify_eq|].
  destruct (sys_resume cfg ev s) as [s1|] eqn:E; simplify_eq/=.
  eapply rtc_l; [by exists ev | by apply IH].
Qed.

(** ** A call whose cycle has queued a [null] *)

(** Call [k] is joining its cycle and a [null] is in its
    [peers_to_check_set]. *)
Definition stalled (k : nat) (order : list string) (s : sys) : Prop :=
  exists c ws log, s_callers s !! k = Some (CJoining order c ws log) /\ None ∈ to_check_set c.

Lemma stalled_step cfg k order s s' :
  sys_core cfg s -> stalled k order s -> sys_step cfg s s' -> stalled k order s'.
Proof.
  intros Hc (c & ws & log & Hk & Hn) [ev Hev].
  assert (Hkeep : forall j cl, j <> k -> s_callers s' = <[j:=cl]> (s_callers s) -> stalled k order s')
    by (intros j cl Hne Hs'; exists c, ws, log; by rewrite Hs', list_lookup_insert_ne).
  destruct ev as [t| |j wev|j|j]; simpl in Hev.
  - simplify_eq. by exists c, ws, log.
  - simplify_eq. exists c, ws, log. unfold call_get_peers.
    case_match; simpl; (split; [by apply lookup_app_l_Some | done]).
  - unfold resume_worker in Hev. destruct (worker_event wev) eqn:Hw; [|done].
    destruct (decide (j = k)) as [->|Hne].
    + rewrite Hk in Hev. destruct (gossip_resume _ _ _) as [g'|] eqn:Hg; simplify_eq/=.
      exists (g_cycle g'), (g_workers g'), (g_log g'). simpl.
      rewrite list_lookup_insert, decide_True by (split; [done | by eapply lookup_lt_Some]).
      split; [done|]. by apply (gossip_resume_null _ _ _ _ Hg).
    + destruct (s_callers s !! j) as [[| |]|]; try done;
        destruct (gossip_resume _ _ _); simplify_eq/=; by eapply Hkeep.
  - destruct (decide (j = k)) as [->|Hne].
    + rewrite Hk in Hev. destruct (q_joinable _) eqn:Hj; [|done]. exfalso.
      apply Nat.eqb_eq, (unfinished_zero cfg (mk_gstate (s_app s) c ws (s_now s) log)) in Hj
        as (_ & _ & Hn'); [done|]. by eapply sc_cycle.
    + repeat case_match; simplify_eq/=; by eapply Hkeep.
  - destruct (decide (j = k)) as [->|Hne]; [by rewrite Hk in Hev|].
    repeat case_match; simplify_eq/=; by eapply Hkeep.
Qed.

Lemma stalled_rtc cfg k order s s' :
  sys_core cfg s -> stalled k order s -> rtc (sys_step cfg) s s' ->
  sys_core cfg s' /\ stalled k order s'.
Proof.
  intros Hc Hs Hr. induction Hr as [s|s s1 s' Hst _ IH]; [done|].
  apply IH; [by eapply sys_core_step | by eapply stalled_step].
Qed.

End SystemInv.
