(* ===== verification/SystemProps.v ===== *)
(** * SystemProps: what concurrent calls of [get_peers] guarantee

    For every state reachable from a freshly started process by any
    interleaving of [get_peers] calls, their worker pools and the clock:
    at most one gossip cycle is joined at a time; the registry is never
    changed by [get_peers] and every call returns it (the peers the
    workers discover are kept in their local [peers] and dropped); no
    step clears a set [peer_cache_invalidated]; and once a peer has
    reported a [null], the call whose cycle queued it never returns and
    no later call refreshes.  The examples run a process on a
    three-node network. *)

From S2P Require Import Prelude App DeadPeers WorkQueue Gossip GossipInv Refresh System SystemInv.
Import WorkQueue Gossip GossipInv Refresh System SystemInv.

Module SystemProps.

Definition ex_cfg : config := mk_config "http://me/" "http://registry/".
Definition ex_t0 : gset string := {["http://me/"; "http://a/"]}.

(** A call refreshes: worker 0 skips the node itself, contacts [a], which
    reports [b]; worker 0 contacts [b], which reports [c]; [c] fails;
    the call joins and its workers exit; then a second call is made. *)
Definition ex_events : list sys_event :=
  [SCall; SWorker 0 (EvDequeue 0); SWorker 0 (EvDequeue 0); SWorker 0 (EvPostDone 0 true);
   SWorker 0 (EvGetDone 0 (GetPeers [Some "http://b/"])); SWorker 0 (EvDequeue 1);
   SWorker 0 (EvPostDone 1 true); SWorker 0 (EvGetDone 1 (GetPeers [Some "http://a/"; Some "http://c/"]));
   SWorker 0 (EvDequeue 2); SWorker 0 (EvPostDone 2 false); SJoin 0] ++
  map (fun i => SWorker 0 (EvDequeue i)) (seq 0 WORKERS) ++ [SWorkersDone 0].

Definition ex_after : sys :=
  default (sys_init ex_t0 10000) (sys_run ex_cfg ex_events (sys_init ex_t0 10000)).

Definition ex_second : sys := default ex_after (sys_run ex_cfg [SCall] ex_after).

Definition ex_during : sys :=
  default (sys_init ex_t0 10000) (sys_run ex_cfg (take 5 ex_events) (sys_init ex_t0 10000)).

Definition caller_at (s : sys) (k : nat) : caller := default (CDone ∅) (s_callers s !! k).

(** The locals of a call that is still running. *)
Definition g_cycle_of (cl : caller) : cycle :=
  match cl with CJoining _ c _ _ | CDraining _ c _ _ => c | CDone _ => mk_cycle q_empty ∅ ∅ [] end.
Definition g_workers_of (cl : caller) : list worker :=
  match cl with CJoining _ _ ws _ | CDraining _ _ ws _ => ws | CDone _ => [] end.
Definition g_log_of (cl : caller) : list request :=
  match cl with CJoining _ _ _ log | CDraining _ _ _ log => log | CDone _ => [] end.

(** C2: in every reachable state of the process, at most one call of
    [get_peers] is joining a gossip cycle: the [fetching_peers] guard
    excludes two concurrent cycles. *)
Theorem at_most_one_gossip_cycle cfg t0 now s k j cl1 cl2 :
  rtc (sys_step cfg) (sys_init t0 now) s ->
  s_callers s !! k = Some cl1 -> joining cl1 = true ->
  s_callers s !! j = Some cl2 -> joining cl2 = true -> j = k.
Proof.
  intros Hr Hk H1 Hj H2. destruct (sys_inv_reachable cfg t0 now s Hr) as [[Hone _ _ _ _] _ _ _].
  by eapply (joining_unique _ k j).
Qed.

Lemma at_most_one_gossip_cycle_witness : 0%nat = 0%nat.
Proof.
  apply (at_most_one_gossip_cycle ex_cfg ex_t0 10000 ex_during 0 0
           (caller_at ex_during 0) (caller_at ex_during 0));
    [apply (sys_run_rtc _ (take 5 ex_events)) | ..]; vm_compute; reflexivity.
Defined.

(** C12: [get_peers] never changes the registry: in every reachable
    state the [peers] table is the one the process started with, and every
    completed call returned exactly it.  The peers the workers discover
    only rebind each worker's local [peers] (line 289); lines 335-336
    insert the set read at line 308. *)
Theorem registry_unchanged_by_gossip cfg t0 now s :
  rtc (sys_step cfg) (sys_init t0 now) s ->
  db (s_app s) = t0 /\ (forall k peers, s_callers s !! k = Some (CDone peers) -> peers = t0).
Proof.
  intros Hr. destruct (sys_inv_reachable cfg t0 now s Hr) as [_ _ Hdn Hdb].
  split; [done|]. exact Hdn.
Qed.

Lemma registry_unchanged_by_gossip_witness :
  db (s_app ex_after) = ex_t0 /\
  (forall k peers, s_callers ex_after !! k = Some (CDone peers) -> peers = ex_t0).
Proof.
  apply (registry_unchanged_by_gossip ex_cfg ex_t0 10000).
  apply (sys_run_rtc _ ex_events). vm_compute. reflexivity.
Defined.

(** C13: no step of a [get_peers] call or of its workers clears
    [peer_cache_invalidated] once it is set (line 333 only ors into it). *)
Theorem invalidated_never_cleared cfg s s' :
  sys_step cfg s s' -> peer_cache_invalidated (s_app s) = true ->
  peer_cache_invalidated (s_app s') = true.
Proof.
  intros [ev Hev] Hi. destruct ev as [t| |k wev|k|k]; simpl in Hev.
  - by simplify_eq.
  - simplify_eq. unfold call_get_peers. by case_match.
  - unfold resume_worker in Hev. destruct (worker_event wev) eqn:Hw; [|done].
    destruct (s_callers s !! k) as [[order c ws log|order c ws log|peers]|]; try done;
      destruct (gossip_resume _ _ _) as [g'|] eqn:Hg; simplify_eq/=;
      destruct (gossip_resume_frame _ _ _ _ Hg Hw) as (_ & Hinv & _); simpl in Hinv;
      by rewrite Hinv.
  - repeat case_match; simplify_eq/=; try done. by rewrite Hi.
  - repeat case_match; by simplify_eq.
Qed.

Lemma invalidated_never_cleared_witness :
  peer_cache_invalidated (s_app ex_second) = true.
Proof.
  apply (invalidated_never_cleared ex_cfg ex_after ex_second).
  - exists SCall. vm_compute. reflexivity.
  - vm_compute. reflexivity.
Defined.

(** A call refreshes and [a] answers its GET with [[null, b]]; then the
    worker that takes the [null] exits, another contacts [b], whose
    notify fails, and a second call is made. *)
Definition ex_null_events : list sys_event :=
  take 4 ex_events ++ [SWorker 0 (EvGetDone 0 (GetPeers [None; Some "http://b/"]))].

Definition ex_null : sys :=
  default (sys_init ex_t0 10000) (sys_run ex_cfg ex_null_events (sys_init ex_t0 10000)).

Definition ex_null_later_events : list sys_event :=
  [SWorker 0 (EvDequeue 1); SWorker 0 (EvDequeue 2); SWorker 0 (EvPostDone 2 false); SCall].

Definition ex_null_later : sys := default ex_null (sys_run ex_cfg ex_null_later_events ex_null).

(** C5: once a peer has answered a GET with a list holding [null], the
    [get_peers] call whose cycle queued it never returns: in every later
    state it is still joining, its [join] cannot return (the worker that
    takes the [null] exits without [task_done]), [fetching_peers] stays
    set, and so no later call of [get_peers] refreshes: gossip stops on
    this node for the life of the process. *)
Theorem null_report_stalls_gossip cfg t0 now s k order c ws log s' :
  rtc (sys_step cfg) (sys_init t0 now) s ->
  s_callers s !! k = Some (CJoining order c ws log) -> None ∈ to_check_set c ->
  rtc (sys_step cfg) s s' ->
  needs_refresh (s_now s') (s_app s') = false /\
  exists c' ws' log', s_callers s' !! k = Some (CJoining order c' ws' log') /\
    q_joinable (to_check c') = false.
Proof.
  intros Hr Hk Hn Hr'.
  destruct (stalled_rtc cfg k order s s') as ([Hone Hf Hcy _ _] & c' & ws' & log' & Hk' & Hn');
    [by destruct (sys_inv_reachable cfg t0 now s Hr) | by exists c, ws, log | done |].
  split.
  - apply not_true_iff_false. rewrite needs_refresh_true, Hf, bool_decide_eq_false.
    pose proof (n_joining_pos _ _ _ Hk' eq_refl). lia.
  - exists c', ws', log'. split; [done|]. apply not_true_iff_false. unfold q_joinable.
    rewrite Nat.eqb_eq, (unfinished_zero cfg (mk_gstate (s_app s') c' ws' (s_now s') log'));
      [naive_solver | by eapply Hcy].
Qed.

Lemma null_report_stalls_gossip_witness :
  needs_refresh (s_now ex_null_later) (s_app ex_null_later) = false /\
  exists c' ws' log', s_callers ex_null_later !! 0 = Some (CJoining (elements ex_t0) c' ws' log') /\
    q_joinable (to_check c') = false.
Proof.
  apply (null_report_stalls_gossip ex_cfg ex_t0 10000 ex_null 0 (elements ex_t0)
           (g_cycle_of (caller_at ex_null 0)) (g_workers_of (caller_at ex_null 0))
           (g_log_of (caller_at ex_null 0))).
  - apply (sys_run_rtc _ ex_null_events). vm_compute. reflexivity.
  - vm_compute. reflexivity.
  - vm_compute. set_solver.
  - apply (sys_run_rtc _ ex_null_later_events). vm_compute. reflexivity.
Defined.

End SystemProps.
