(* ===== verification/Notify.v ===== *)
(** * Notify: [PeerHandler.post], the inbound half of gossip

    [PeerHandler.post] (src/chord_federation/app.py, lines 94-163)
    parses [{"self": ..., "peers": [...]}], returns at once when a notify
    from the same [self] is in progress ([Application.notifying]), and
    otherwise fetches the service-info of every listed peer that is
    neither attempted nor recently dead, inserting into the registry the
    ones whose [type] contains the CHORD federation tag.  The handler
    suspends at each fetch (line 134); [notify_start] is the code up to
    the first fetch, [notify_resume] the code from the return of a fetch
    to the next one, both through [notify_loop] (lines 124-158).

    The request body and the fetch results are modelled by the outcomes
    the code distinguishes.  A body that [json.loads] rejects, that is
    not an object or lacks ["self"] or ["peers"] raises [JSONDecodeError],
    [TypeError] or [KeyError]: none is the [IndexError] of line 160, so
    Tornado answers 500.  An entry of ["peers"] that is a list or object
    makes [peer_url in attempted_contact] raise [TypeError] outside the
    inner [try]; a ["peers"] value that is not iterable makes the [for]
    raise.  Non-string scalar entries are not modelled. *)

From S2P Require Import Prelude App DeadPeers.
Import DeadPeers.

Module Notify.

Inductive peer_entry :=
  | PEUrl (u : string)
  | PEUnhashable.

Inductive peers_value :=
  | PVList (l : list peer_entry)
  | PVNotIterable.

Inductive notify_request :=
  | NRBody (self : string) (peers : peers_value)
  | NRMalformed.

(** [await client.fetch(f"{peer_url}api/federation/service-info?update_peers=false")]
    followed by [json.loads(r.body)["type"]]: [InfoFailed] when any of it
    raises, [InfoType t] when the type is the string [t]. *)
Inductive info_reply :=
  | InfoFailed
  | InfoType (t : string).

Definition FEDERATION_TYPE_TAG : string := "ca.distributedgenomics:chord_federation".

(** Line 138: [tag in type], a substring test. *)
Definition type_compatible (t : string) : bool :=
  match String.index 0 FEDERATION_TYPE_TAG t with Some _ => true | None => false end.

(** The handler's locals: [peer_self], [attempted_contact], [new_pci]. *)
Record nctx := mk_nctx {
  n_self : string;
  n_attempted : gset string;
  n_pci : bool;
}.

Inductive nstate :=
  | NFetching (ctx : nctx) (u : string) (rest : list peer_entry)
  | NDone (status : nat).

(** Lines 124-158 from an entry to the next fetch or to the response. *)
Fixpoint notify_loop (now : Z) (a : app) (ctx : nctx) (l : list peer_entry) : app * nstate :=
  match l with
  | [] =>
      match py_remove (n_self ctx) (notifying a) with
      | None => (a, NDone 500)
      | Some ns => (set_peer_cache_invalidated (n_pci ctx) (set_notifying ns a), NDone 200)
      end
  | PEUnhashable :: _ => (a, NDone 500)
  | PEUrl u :: rest =>
      if decide (u ∈ n_attempted ctx) then notify_loop now a ctx rest
      else if recently_errored (last_errored a) now u then notify_loop now a ctx rest
      else (a, NFetching ctx u rest)
  end.

(** Lines 99-124: read the flag, parse, detect a duplicate, register. *)
Definition notify_start (cfg : config) (now : Z) (a : app) (req : notify_request) : app * nstate :=
  let new_pci := peer_cache_invalidated a in
  match req with
  | NRMalformed => (a, NDone 500)
  | NRBody self pv =>
      if decide (self ∈ notifying a) then (a, NDone 200)
      else
        let a1 := set_notifying (py_add self (notifying a)) a in
        match pv with
        | PVNotIterable => (a1, NDone 500)
        | PVList l => notify_loop now a1 (mk_nctx self {[CHORD_URL cfg]} new_pci) l
        end
  end.

(** Lines 137-152: the effect of the fetch of [u] returning [r], with
    the [finally] of line 152. *)
Definition notify_fetched (now : Z) (a : app) (ctx : nctx) (u : string) (r : info_reply) : app * nctx :=
  let att := py_add u (n_attempted ctx) in
  match r with
  | InfoFailed =>
      (set_last_errored (record_error u now (last_errored a)) a, mk_nctx (n_self ctx) att (n_pci ctx))
  | InfoType t =>
      if type_compatible t then
        (set_db (Registry.insert_or_ignore u (db a)) a,
         mk_nctx (n_self ctx) att (n_pci ctx || Registry.absent u (db a)))
      else (a, mk_nctx (n_self ctx) att (n_pci ctx))
  end.

(** The handler resumed by the return of the fetch of [u]: lines 137-152,
    then the loop to the next fetch or the response. *)
Definition notify_resume (now : Z) (a : app) (ctx : nctx) (u : string) (rest : list peer_entry)
    (r : info_reply) : app * nstate :=
  let '(a1, ctx1) := notify_fetched now a ctx u r in notify_loop now a1 ctx1 rest.

(** A run of one handler with no other coroutine in between, the
    fetches answered by [replies]; [fuel] bounds the number of fetches. *)
Fixpoint notify_drive (fuel : nat) (now : Z) (replies : string -> info_reply)
    (r : app * nstate) : app * nstate :=
  match fuel, r with
  | S n, (a, NFetching ctx u rest) => notify_drive n now replies (notify_resume now a ctx u rest (replies u))
  | _, _ => r
  end.

Definition notify_run (cfg : config) (fuel : nat) (now : Z) (replies : string -> info_reply)
    (a : app) (req : notify_request) : app * nstate :=
  notify_drive fuel now replies (notify_start cfg now a req).

(** The loop of lines 124-158 read as straight-line code, each fetch
    answered at once by [replies]: the reference the driven coroutine
    is proved equal to. *)
Fixpoint notify_seq (now : Z) (replies : string -> info_reply) (a : app) (ctx : nctx)
    (l : list peer_entry) : app * nstate :=
  match l with
  | PEUrl u :: rest =>
      if decide (u ∈ n_attempted ctx) then notify_seq now replies a ctx rest
      else if recently_errored (last_errored a) now u then notify_seq now replies a ctx rest
      else let '(a1, ctx1) := notify_fetched now a ctx u (replies u) in
           notify_seq now replies a1 ctx1 rest
  | _ => notify_loop now a ctx l
  end.

(** Whether a service-info reply verifies its peer (line 138). *)
Definition verified (r : info_reply) : bool :=
  match r with InfoType t => type_compatible t | InfoFailed => false end.

(** The entries of a request's ["peers"] list. *)
Definition request_entries (req : notify_request) : list peer_entry :=
  match req with NRBody _ (PVList l) => l | _ => [] end.

(** What a partial run from [a0] over the entries [l] keeps: every URL
    it has put in the registry is a listed entry other than the node's
    own URL whose service-info verified it; a suspended handler waits on
    a listed URL and has the node's own URL among [attempted_contact]. *)
Definition gated_db (cfg : config) (replies : string -> info_reply) (a0 : app) (l : list peer_entry)
    (a : app) : Prop :=
  forall u, u ∈ db a -> u ∉ db a0 -> verified (replies u) = true /\ PEUrl u ∈ l /\ u <> CHORD_URL cfg.

Definition gated (cfg : config) (replies : string -> info_reply) (a0 : app) (l : list peer_entry)
    (r : app * nstate) : Prop :=
  gated_db cfg replies a0 l r.1 /\
  match r.2 with
  | NFetching ctx u rest =>
      CHORD_URL cfg ∈ n_attempted ctx /\ (u ∉ n_attempted ctx) /\ PEUrl u ∈ l /\ suffix rest l
  | NDone _ => True
  end.

Definition is_url (e : peer_entry) : bool :=
  match e with PEUrl _ => true | PEUnhashable => false end.

(** * The driven coroutine and the straight-line loop *)

Lemma notify_drive_done fuel now replies a s :
  notify_drive fuel now replies (a, NDone s) = (a, NDone s).
Proof. by destruct fuel. Qed.

(** With fuel for every entry, driving the coroutine is the straight-line loop. *)
Lemma notify_drive_loop now replies fuel a ctx l :
  length l <= fuel ->
  notify_drive fuel now replies (notify_loop now a ctx l) = notify_seq now replies a ctx l.
Proof.
  revert fuel a ctx. induction l as [|[u|] rest IH]; intros fuel a ctx Hf; simpl in *.
  - unfold py_remove. case_decide; by apply notify_drive_done.
  - case_decide; [by apply IH; lia|].
    destruct (recently_errored _ _ _); [by apply IH; lia|].
    destruct fuel as [|n]; [lia|]. simpl. unfold notify_resume.
    destruct (notify_fetched _ _ _ _ _). apply IH. lia.
  - by apply notify_drive_done.
Qed.

(** * What a completed loop did *)

(** The effect of lines 124-158 run from [a] with locals [ctx] over
    [l] to the response with state [a']. *)
Record notify_post (now : Z) (replies : string -> info_reply) (a : app) (ctx : nctx)
    (l : list peer_entry) (a' : app) : Prop := {
  np_notifying : notifying a' = notifying a ∖ {[n_self ctx]};
  np_grow : db a ⊆ db a';
  np_sound : forall u, u ∈ db a' -> u ∉ db a ->
    (PEUrl u ∈ l) /\ (u ∉ n_attempted ctx) /\ (verified (replies u) = true);
  np_pci : peer_cache_invalidated a' = n_pci ctx || bool_decide (db a' <> db a);
  np_complete : forall u, PEUrl u ∈ l -> u ∉ n_attempted ctx ->
    recently_errored (last_errored a) now u = false -> verified (replies u) = true -> u ∈ db a';
}.

Lemma bool_decide_grew (d0 d1 d2 : gset string) :
  d0 ⊆ d1 -> d1 ⊆ d2 ->
  bool_decide (d1 <> d0) || bool_decide (d2 <> d1) = bool_decide (d2 <> d0).
Proof.
  intros H01 H12. repeat case_bool_decide; try done; exfalso;
    repeat match goal with H : ¬ (_ <> _) |- _ => apply dec_stable in H; subst end;
    match goal with H : _ <> _ |- _ => apply H, set_eq; set_solver end.
Qed.

Lemma bool_decide_ne_refl (d : gset string) : bool_decide (d <> d) = false.
Proof. apply bool_decide_eq_false_2. tauto. Qed.

Lemma notify_fetched_spec now a ctx u r a1 ctx1 :
  notify_fetched now a ctx u r = (a1, ctx1) ->
  notifying a1 = notifying a /\ n_self ctx1 = n_self ctx /\
  n_attempted ctx1 = {[u]} ∪ n_attempted ctx /\
  db a1 = (if verified r then {[u]} ∪ db a else db a) /\
  n_pci ctx1 = n_pci ctx || bool_decide (db a1 <> db a) /\
  (forall v, v <> u -> recently_errored (last_errored a1) now v = recently_errored (last_errored a) now v).
Proof.
  unfold notify_fetched, verified. destruct r as [|t]; [|destruct (type_compatible t)];
    intros; simplify_eq/=; split_and!; try done.
  - by rewrite bool_decide_ne_refl, orb_false_r.
  - intros v Hv. by apply recently_errored_record_ne.
  - apply Registry.insert_or_ignore_union.
  - f_equal. rewrite Registry.insert_or_ignore_union. unfold Registry.absent.
    apply bool_decide_ext. split; [set_solver|]. intros Hne Hu. apply Hne, set_eq. set_solver.
  - by rewrite bool_decide_ne_refl, orb_false_r.
Qed.

Lemma notify_post_skip now replies a ctx u rest a' :
  (u ∈ n_attempted ctx \/ recently_errored (last_errored a) now u = true) ->
  notify_post now replies a ctx rest a' -> notify_post now replies a ctx (PEUrl u :: rest) a'.
Proof.
  intros Hskip [Hn Hg Hs Hp Hc]. split; try done.
  - intros v Hv Hv'. destruct (Hs v Hv Hv') as (? & ? & ?). split_and!; [by right|done..].
  - intros v Hv.
    apply elem_of_cons in Hv as [[= ->]|Hv]; [|by apply Hc].
    intros ? ?. destruct Hskip; congruence.
Qed.

Lemma notify_post_fetch now replies a ctx u rest a1 ctx1 a' :
  notify_fetched now a ctx u (replies u) = (a1, ctx1) ->
  u ∉ n_attempted ctx -> recently_errored (last_errored a) now u = false ->
  notify_post now replies a1 ctx1 rest a' -> notify_post now replies a ctx (PEUrl u :: rest) a'.
Proof.
  intros Hf Hu Hd [Hn Hg Hs Hp Hc].
  destruct (notify_fetched_spec _ _ _ _ _ _ _ Hf) as (Hn1 & Hs1 & Ha1 & Hdb1 & Hp1 & Hr1).
  assert (Hg1 : db a ⊆ db a1) by (rewrite Hdb1; case_match; set_solver).
  split.
  - by rewrite Hn, Hn1, Hs1.
  - set_solver.
  - intros v Hv Hv'. destruct (decide (v ∈ db a1)) as [Hv1|Hv1].
    + rewrite Hdb1 in Hv1. destruct (verified (replies u)) eqn:Hver; [|done].
      assert (v = u) as -> by set_solver. split_and!; [by left|done..].
    + destruct (Hs v Hv Hv1) as (? & Hatt & ?). rewrite Ha1 in Hatt.
      split_and!; [by right|set_solver|done].
  - rewrite Hp, Hp1, <-orb_assoc. f_equal. by apply bool_decide_grew.
  - intros v Hv Hva Hvd Hvv. destruct (decide (v = u)) as [->|Hne].
    + apply Hg. rewrite Hdb1, Hvv. set_solver.
    + apply elem_of_cons in Hv as [[= ->]|Hv]; [done|].
      apply Hc; [done|rewrite Ha1; set_solver|by rewrite Hr1|done].
Qed.

(** A request whose entries are all URLs, from a handler registered in
    [notifying], runs the loop to the 200 response. *)
Lemma notify_seq_post now replies l :
  Forall (fun e => is_url e = true) l ->
  forall a ctx, n_self ctx ∈ notifying a ->
  exists a', notify_seq now replies a ctx l = (a', NDone 200) /\ notify_post now replies a ctx l a'.
Proof.
  induction 1 as [|[u|] rest Hu Hl IH]; intros a ctx Hin; simpl in *; [|clear Hu|done].
  - rewrite py_remove_present by done. eexists; split; [done|].
    split; simpl; rewrite ?bool_decide_ne_refl, ?orb_false_r; set_solver.
  - case_decide as Hatt.
    { destruct (IH a ctx Hin) as (a' & -> & Hp). eauto using notify_post_skip. }
    destruct (recently_errored _ _ _) eqn:Hd.
    { destruct (IH a ctx Hin) as (a' & -> & Hp). eauto using notify_post_skip. }
    destruct (notify_fetched _ _ _ _ _) as [a1 ctx1] eqn:Hf.
    destruct (notify_fetched_spec _ _ _ _ _ _ _ Hf) as (Hn1 & Hs1 & _).
    destruct (IH a1 ctx1) as (a' & -> & Hp); [by rewrite Hn1, Hs1|].
    eauto using notify_post_fetch.
Qed.

(** * Partial runs *)

(** Any property kept by every resumption holds of every partial run. *)
Lemma notify_drive_ind (P : app * nstate -> Prop) fuel now replies r :
  P r ->
  (forall a ctx u rest, P (a, NFetching ctx u rest) -> P (notify_resume now a ctx u rest (replies u))) ->
  P (notify_drive fuel now replies r).
Proof.
  intros Hr Hstep. revert r Hr. induction fuel as [|n IH]; intros [a [ctx u rest|s]] Hr; simpl; auto.
Qed.

Lemma notify_loop_fetching now a ctx l a' ctx' u rest :
  notify_loop now a ctx l = (a', NFetching ctx' u rest) ->
  a' = a /\ ctx' = ctx /\ (u ∉ n_attempted ctx) /\ recently_errored (last_errored a) now u = false /\
  PEUrl u ∈ l /\ suffix rest l.
Proof.
  induction l as [|[v|] l IH]; simpl; [unfold py_remove; case_decide; done| |done].
  case_decide; [intros (? & ? & ? & ? & ? & ?)%IH; split_and!; by try constructor; try apply suffix_cons_r|].
  destruct (recently_errored (last_errored a) now v) eqn:Hd;
    [intros (? & ? & ? & ? & ? & ?)%IH; split_and!; by try constructor; try apply suffix_cons_r|].
  intros; simplify_eq. split_and!; try done; [constructor|by apply suffix_cons_r].
Qed.

Lemma notify_loop_db now a ctx l : db (notify_loop now a ctx l).1 = db a.
Proof.
  induction l as [|[v|] l IH]; simpl; [unfold py_remove; by case_decide| |done].
  case_decide; [done|]. by destruct (recently_errored _ _ _).
Qed.

Lemma gated_loop cfg replies a0 l now a ctx rest :
  gated_db cfg replies a0 l a -> CHORD_URL cfg ∈ n_attempted ctx -> suffix rest l ->
  gated cfg replies a0 l (notify_loop now a ctx rest).
Proof.
  intros Hdb Hc Hs. pose proof (notify_loop_db now a ctx rest) as Hd.
  destruct (notify_loop now a ctx rest) as [a' [ctx' u rest'|st]] eqn:Hl; unfold gated; simpl in *;
    (split; [intros v; rewrite Hd; apply Hdb|]); [|done].
  apply notify_loop_fetching in Hl as (-> & -> & ? & _ & ? & ?).
  split_and!; [done..| |]; [by eapply elem_of_suffix|by etrans].
Qed.

Lemma gated_resume cfg replies a0 l now a ctx u rest :
  gated cfg replies a0 l (a, NFetching ctx u rest) ->
  gated cfg replies a0 l (notify_resume now a ctx u rest (replies u)).
Proof.
  intros [Hdb (Hc & Hu & Hul & Hs)]. unfold notify_resume.
  destruct (notify_fetched _ _ _ _ _) as [a1 ctx1] eqn:Hf.
  destruct (notify_fetched_spec _ _ _ _ _ _ _ Hf) as (_ & _ & Ha1 & Hdb1 & _).
  apply gated_loop; [|rewrite Ha1; set_solver|done].
  intros v Hv Hv0. rewrite Hdb1 in Hv.
  destruct (verified (replies u)) eqn:Hver; [|by apply Hdb].
  apply elem_of_union in Hv as [->%elem_of_singleton|Hv]; [|by apply Hdb].
  split_and!; [done..|set_solver].
Qed.

Lemma gated_start cfg replies now a req :
  gated cfg replies a (request_entries req) (notify_start cfg now a req).
Proof.
  unfold notify_start. destruct req as [self [l|]|]; simpl;
    try (split; [set_solver|done]); case_decide; try (split; [set_solver|done]).
  apply gated_loop; simpl; [set_solver|set_solver|done].
Qed.

Lemma gated_run cfg fuel now replies a req :
  gated cfg replies a (request_entries req) (notify_run cfg fuel now replies a req).
Proof.
  unfold notify_run. apply notify_drive_ind; [apply gated_start|]. intros. by apply gated_resume.
Qed.

(** * Whole runs *)

(** A notify from a peer whose notify is in progress is answered at once. *)
Lemma notify_run_duplicate cfg fuel now replies a self pv :
  self ∈ notifying a -> notify_run cfg fuel now replies a (NRBody self pv) = (a, NDone 200).
Proof.
  intros Hin. unfold notify_run, notify_start. rewrite decide_True by done. apply notify_drive_done.
Qed.

(** A fresh notify with a list of entries, given fuel for each of them,
    is the straight-line loop from the registered state. *)
Lemma notify_run_seq cfg fuel now replies a self l :
  self ∉ notifying a -> length l <= fuel ->
  notify_run cfg fuel now replies a (NRBody self (PVList l)) =
  notify_seq now replies (set_notifying (py_add self (notifying a)) a)
    (mk_nctx self {[CHORD_URL cfg]} (peer_cache_invalidated a)) l.
Proof.
  intros Hn Hf. unfold notify_run, notify_start. rewrite decide_False by done.
  by apply notify_drive_loop.
Qed.

(** An entry that is not hashable ends the loop with a 500 that skips
    [notifying.remove]. *)
Lemma notify_seq_unhashable now replies l :
  PEUnhashable ∈ l -> forall a ctx, n_self ctx ∈ notifying a ->
  exists a', notify_seq now replies a ctx l = (a', NDone 500) /\ n_self ctx ∈ notifying a'.
Proof.
  induction l as [|[u|] rest IH]; intros Hl a ctx Hin; simpl; [set_solver| |eauto].
  apply elem_of_cons in Hl as [Hl|Hl]; [done|].
  case_decide; [by apply IH|]. destruct (recently_errored _ _ _); [by apply IH|].
  destruct (notify_fetched _ _ _ _ _) as [a1 ctx1] eqn:Hf.
  destruct (notify_fetched_spec _ _ _ _ _ _ _ Hf) as (Hn1 & Hs1 & _).
  rewrite <-Hs1. apply IH; [done|by rewrite Hn1, Hs1].
Qed.

(** A handler suspended at a fetch is registered in [notifying]. *)
Definition suspended_registered (self : string) (r : app * nstate) : Prop :=
  match r.2 with NFetching ctx _ _ => n_self ctx = self /\ self ∈ notifying r.1 | NDone _ => True end.

Lemma suspended_registered_loop self now a ctx l :
  n_self ctx = self -> self ∈ notifying a -> suspended_registered self (notify_loop now a ctx l).
Proof.
  intros Hs Hn. unfold suspended_registered.
  destruct (notify_loop now a ctx l) as [a' [ctx' u rest|st]] eqn:Hl; [|done].
  apply notify_loop_fetching in Hl as (Ha & Hc & _). simpl. by subst.
Qed.

Lemma suspended_registered_run cfg fuel now replies a self pv :
  suspended_registered self (notify_run cfg fuel now replies a (NRBody self pv)).
Proof.
  unfold notify_run. apply notify_drive_ind.
  - unfold notify_start. case_decide; [done|]. destruct pv as [l|]; [|done].
    apply suspended_registered_loop; [done|]. apply elem_of_py_add. by left.
  - intros a' ctx u rest H. hnf in H. destruct H as [Hs Hn]. unfold notify_resume.
    destruct (notify_fetched _ _ _ _ _) as [a1 ctx1] eqn:Hf.
    destruct (notify_fetched_spec _ _ _ _ _ _ _ Hf) as (Hn1 & Hs1 & _).
    simpl in Hn. apply suspended_registered_loop; [congruence|by rewrite Hn1].
Qed.

(** A fresh notify with a list of URLs and fuel for each answers 200,
    leaves [notifying] as it found it, only adds to the registry, sets
    the flag to its line-100 value or'ed with whether the registry grew,
    and registers every listed live verified URL but the node's own. *)
Lemma notify_run_accepts cfg fuel now replies a self l :
  self ∉ notifying a -> Forall (fun e => is_url e = true) l -> length l <= fuel ->
  exists a', notify_run cfg fuel now replies a (NRBody self (PVList l)) = (a', NDone 200) /\
    notifying a' = notifying a /\ db a ⊆ db a' /\
    peer_cache_invalidated a' = peer_cache_invalidated a || bool_decide (db a' <> db a) /\
    (forall u, PEUrl u ∈ l -> u <> CHORD_URL cfg -> recently_errored (last_errored a) now u = false ->
       verified (replies u) = true -> u ∈ db a').
Proof.
  intros Hn Hl Hf. rewrite notify_run_seq by done.
  destruct (notify_seq_post now replies l Hl (set_notifying (py_add self (notifying a)) a)
              (mk_nctx self {[CHORD_URL cfg]} (peer_cache_invalidated a)))
    as (a' & -> & [Hn' Hg Hs Hp Hc]); [apply elem_of_py_add; by left|].
  exists a'. simpl in *. split_and!; [done| |done|done|].
  - rewrite Hn'. apply set_eq. intros x. unfold py_add. set_solver.
  - intros u Hu Hcu Hd Hv. apply Hc; [done|set_solver|done|done].
Qed.

End Notify.
