(* ===== verification/NotifyProps.v ===== *)
(** * NotifyProps: what [PeerHandler.post] guarantees, and where it fails

    The contract of the notification handler (spec §4.3 and §8):
    type-tag gating over every partial run, the effect of an accepted
    notify on the registry, [notifying] and the invalidation flag,
    duplicate suppression while a notify from the same peer is in
    flight; and two divergences: a 500 raised inside the loop leaves the
    sender in [notifying] for good, and a handler that resumes after
    another one set [peer_cache_invalidated] writes back the value it
    read before its first fetch. *)

From S2P Require Import Prelude App DeadPeers Refresh Notify.
Import DeadPeers Refresh Notify.

Module NotifyProps.

Definition ex_cfg : config := mk_config "http://me/" "http://registry/".
Definition ex_app : app := app_init {["http://me/"; "http://registry/"; "http://p/"]}.
Definition ex_now : Z := 1000.

(** [x] is a federation node, [y] serves another type, [z] is down. *)
Definition ex_replies (u : string) : info_reply :=
  if decide (u = "http://x/") then InfoType "ca.distributedgenomics:chord_federation:0.1.0"
  else if decide (u = "http://y/") then InfoType "ca.c3g.chord:metadata:0.1.0"
  else InfoFailed.

Definition ex_entries : list peer_entry :=
  [PEUrl "http://me/"; PEUrl "http://x/"; PEUrl "http://y/"; PEUrl "http://z/"; PEUrl "http://x/"].

Definition ex_req : notify_request := NRBody "http://p/" (PVList ex_entries).

Definition ex_result : app * nstate := notify_run ex_cfg 5 ex_now ex_replies ex_app ex_req.

(** The handler suspended at its first fetch (of [x]). *)
Definition ex_suspended : app * nstate := notify_run ex_cfg 0 ex_now ex_replies ex_app ex_req.

(** A request whose second entry is a list. *)
Definition ex_bad_req : notify_request := NRBody "http://p/" (PVList [PEUrl "http://x/"; PEUnhashable]).

(** [p]'s handler suspends at the fetch of the dead [z] after reading
    the flag (false); [q]'s handler registers the new node [x], which
    sets the flag; [p]'s handler is about to resume. *)
Definition ex_p_suspended : app * nstate :=
  match notify_start ex_cfg ex_now ex_app (NRBody "http://p/" (PVList [PEUrl "http://z/"])) with
  | (a1, st1) =>
      match notify_start ex_cfg ex_now a1 (NRBody "http://q/" (PVList [PEUrl "http://x/"])) with
      | (a2, NFetching c2 u2 r2) => ((notify_resume ex_now a2 c2 u2 r2 (ex_replies u2)).1, st1)
      | (a2, _) => (a2, st1)
      end
  end.

Ltac decide_goal := match goal with |- ?P => apply (bool_decide_eq_true_1 P); vm_compute; reflexivity end.

(** C14: type-tag gating.  After any partial run of the handler (any
    fuel, any answers), every URL it added to the registry is a listed
    entry, is not the node's own URL, and its service-info [type]
    contains ["ca.distributedgenomics:chord_federation"]. *)
Theorem notify_type_tag_gating cfg fuel now replies a req a' st u :
  notify_run cfg fuel now replies a req = (a', st) -> u ∈ db a' -> u ∉ db a ->
  verified (replies u) = true /\ PEUrl u ∈ request_entries req /\ u <> CHORD_URL cfg.
Proof.
  intros Hr. destruct (gated_run cfg fuel now replies a req) as [Hdb _]. rewrite Hr in Hdb. apply Hdb.
Qed.

Lemma notify_type_tag_gating_witness :
  verified (ex_replies "http://x/") = true /\ PEUrl "http://x/" ∈ request_entries ex_req /\
  "http://x/" <> CHORD_URL ex_cfg.
Proof.
  apply (notify_type_tag_gating ex_cfg 5 ex_now ex_replies ex_app ex_req (fst ex_result) (snd ex_result));
    [vm_compute; reflexivity|decide_goal|decide_goal].
Defined.

(** C15: an accepted notify (a sender not in [notifying], a list of
    URLs, fuel for each) answers 200, leaves [notifying] as it found it,
    only adds to the registry, sets [peer_cache_invalidated] to its value
    at line 100 or'ed with whether the registry grew, and registers every
    listed URL other than the node's own that was not recently dead and
    whose service-info verified. *)
Theorem notify_accepts cfg fuel now replies a self l :
  self ∉ notifying a -> Forall (fun e => is_url e = true) l -> length l <= fuel ->
  exists a', notify_run cfg fuel now replies a (NRBody self (PVList l)) = (a', NDone 200) /\
    notifying a' = notifying a /\ db a ⊆ db a' /\
    peer_cache_invalidated a' = peer_cache_invalidated a || bool_decide (db a' <> db a) /\
    (forall u, PEUrl u ∈ l -> u <> CHORD_URL cfg -> recently_errored (last_errored a) now u = false ->
       verified (replies u) = true -> u ∈ db a').
Proof. apply notify_run_accepts. Qed.

Lemma notify_accepts_witness :
  exists a', notify_run ex_cfg 5 ex_now ex_replies ex_app ex_req = (a', NDone 200) /\
    notifying a' = notifying ex_app /\ db ex_app ⊆ db a' /\
    peer_cache_invalidated a' = peer_cache_invalidated ex_app || bool_decide (db a' <> db ex_app) /\
    (forall u, PEUrl u ∈ ex_entries -> u <> CHORD_URL ex_cfg ->
       recently_errored (last_errored ex_app) ex_now u = false ->
       verified (ex_replies u) = true -> u ∈ db a').
Proof. apply notify_accepts; [decide_goal|repeat constructor|simpl; lia]. Defined.

(** C16: duplicate suppression.  While a handler for [self] is suspended
    at a fetch, a second notify from [self], whatever it lists, is
    answered 200 at once and changes nothing. *)
Theorem duplicate_notify_while_in_flight cfg fuel now replies a self pv a1 ctx u rest
    fuel' now' replies' pv' :
  notify_run cfg fuel now replies a (NRBody self pv) = (a1, NFetching ctx u rest) ->
  notify_run cfg fuel' now' replies' a1 (NRBody self pv') = (a1, NDone 200).
Proof.
  intros Hr. pose proof (suspended_registered_run cfg fuel now replies a self pv) as Hs.
  rewrite Hr in Hs. destruct Hs as [_ Hin]. by apply notify_run_duplicate.
Qed.

Lemma duplicate_notify_while_in_flight_witness :
  notify_run ex_cfg 5 ex_now ex_replies (fst ex_suspended) (NRBody "http://p/" (PVList [])) =
  (fst ex_suspended, NDone 200).
Proof.
  destruct ex_suspended as [a1 [ctx u rest|st]] eqn:He; [|vm_compute in He; discriminate].
  exact (duplicate_notify_while_in_flight ex_cfg 0 ex_now ex_replies ex_app "http://p/" (PVList ex_entries)
           a1 ctx u rest 5 ex_now ex_replies (PVList []) He).
Defined.

(** C17: an exception that escapes the loop (a ["peers"] value that is
    not iterable, or an entry that is a list or an object) answers 500
    without reaching [notifying.remove] (line 154): the sender stays in
    [notifying], and every later notify from it is answered 200 without
    being processed. *)
Theorem failed_notify_leaves_sender_registered cfg fuel now replies a self pv :
  self ∉ notifying a ->
  (pv = PVNotIterable \/ exists l, pv = PVList l /\ PEUnhashable ∈ l /\ length l <= fuel) ->
  exists a', notify_run cfg fuel now replies a (NRBody self pv) = (a', NDone 500) /\
    self ∈ notifying a' /\
    forall fuel' now' replies' pv', notify_run cfg fuel' now' replies' a' (NRBody self pv') = (a', NDone 200).
Proof.
  intros Hn [->|(l & -> & Hl & Hf)].
  - eexists. split; [unfold notify_run, notify_start; rewrite decide_False by done; apply notify_drive_done|].
    assert (Hin : self ∈ notifying (set_notifying (py_add self (notifying a)) a))
      by (apply elem_of_py_add; by left).
    split; [done|]. intros. by apply notify_run_duplicate.
  - rewrite notify_run_seq by done.
    destruct (notify_seq_unhashable now replies l Hl (set_notifying (py_add self (notifying a)) a)
                (mk_nctx self {[CHORD_URL cfg]} (peer_cache_invalidated a)))
      as (a' & -> & Hin); [apply elem_of_py_add; by left|].
    exists a'. split_and!; [done..|]. intros. by apply notify_run_duplicate.
Qed.

Lemma failed_notify_leaves_sender_registered_witness :
  exists a', notify_run ex_cfg 2 ex_now ex_replies ex_app ex_bad_req = (a', NDone 500) /\
    "http://p/" ∈ notifying a' /\
    forall fuel' now' replies' pv',
      notify_run ex_cfg fuel' now' replies' a' (NRBody "http://p/" pv') = (a', NDone 200).
Proof.
  apply failed_notify_leaves_sender_registered; [decide_goal|].
  right. eexists. split; [reflexivity|]. split; [by right; left|simpl; lia].
Defined.

(** C18: lost invalidation.  A handler resumed at a fetch, with a list
    of URLs left and fuel for them, answers 200 and sets
    [peer_cache_invalidated] (line 156) to the value it read at line 100
    or'ed with whether its own run grew the registry: the flag of the
    state it resumes in is overwritten, so an invalidation set meanwhile
    by another handler is lost. *)
Theorem resumed_notify_overwrites_flag fuel now replies a ctx u rest :
  n_self ctx ∈ notifying a -> Forall (fun e => is_url e = true) rest -> length rest < fuel ->
  exists a', notify_drive fuel now replies (a, NFetching ctx u rest) = (a', NDone 200) /\
    peer_cache_invalidated a' = n_pci ctx || bool_decide (db a' <> db a).
Proof.
  intros Hin Hl Hf. destruct fuel as [|n]; [lia|]. cbn [notify_drive]. unfold notify_resume.
  destruct (notify_fetched now a ctx u (replies u)) as [a1 ctx1] eqn:Hfe.
  destruct (notify_fetched_spec _ _ _ _ _ _ _ Hfe) as (Hn1 & Hs1 & _ & Hd1 & Hp1 & _).
  rewrite notify_drive_loop by lia.
  destruct (notify_seq_post now replies rest Hl a1 ctx1) as (a' & -> & [_ Hg _ Hp _]);
    [by rewrite Hn1, Hs1|].
  exists a'. split; [done|]. rewrite Hp, Hp1, <-orb_assoc, bool_decide_grew; [done| |done].
  rewrite Hd1. destruct (verified _); set_solver.
Qed.

Lemma resumed_notify_overwrites_flag_witness :
  match ex_p_suspended with
  | (a, NFetching ctx u rest) =>
      exists a', notify_drive 1 ex_now ex_replies (a, NFetching ctx u rest) = (a', NDone 200) /\
        peer_cache_invalidated a' = n_pci ctx || bool_decide (db a' <> db a)
  | _ => False
  end.
Proof.
  destruct ex_p_suspended as [a [ctx u rest|st]] eqn:He; [|vm_compute in He; discriminate].
  apply resumed_notify_overwrites_flag;
    [vm_compute in He; injection He as <- <- <- <-; decide_goal | vm_compute in He; injection He as _ _ _ <-; constructor
    | vm_compute in He; injection He as _ _ _ <-; simpl; lia].
Defined.

End NotifyProps.
