(* ===== verification/Search.v ===== *)
(** * Search: [SearchHandler], the federated query fan-out

    [SearchHandler.post] (src/chord_federation/app.py, lines 191-223)
    obtains the peer set from [get_peers], puts every peer on a queue,
    starts [WORKERS] [search_worker]s (lines 168-189), awaits the join,
    aggregates the responses, writes them, then puts one [None] per
    worker and awaits the workers.  Each [search_worker] dequeues a peer,
    POSTs the query to it and appends the parsed body, or [None] when
    anything raised, to the shared [responses] list, and marks the item
    done.

    The search is modelled from the return of [get_peers] on (the peer
    set, iterated in the order [peers], is an argument).  Its state is
    the queue, the workers' program counters, the shared [responses]
    and the handler's program counter; [search_resume] resumes one of
    them at an await, the answer of a peer being [replies p].  A body is
    modelled by what line 210 does with it: [Some l] when
    [r["results"]] is the list [l], [None] when the subscript or [chain]
    raises ([KeyError] or [TypeError]). *)

From S2P Require Import Prelude App WorkQueue.
Import WorkQueue.

Module Search.

(** [json.loads(r.body)] of a successful fetch. *)
Definition rbody := option (list string).

(** The outcome of [await client.fetch(...)] and [json.loads(r.body)]. *)
Inductive search_reply :=
  | SFailed
  | SBody (b : rbody).

(** The entry [search_worker] appends to [responses] (lines 180, 184).
    A body that is JSON [null] is appended as [None] too; it is not
    modelled apart from [SFailed]. *)
Definition outcome (r : search_reply) : option rbody :=
  match r with SFailed => None | SBody b => Some b end.

(** A peer's contribution to the aggregate: the ["results"] list of
    its body, when it answered with one. *)
Definition peer_results (replies : string -> search_reply) (p : string) : option (list string) :=
  match replies p with SBody (Some l) => Some l | _ => None end.

(** A peer that answered with a body line 210 rejects. *)
Definition malformed (replies : string -> search_reply) (p : string) : bool :=
  match replies p with SBody None => true | _ => false end.

Inductive sworker :=
  | SWIdle
  | SWFetching (p : string)
  | SWExited.

(** The body written at lines 209-212. *)
Record search_out := mk_out {
  out_results : list string;
  out_responded : nat;
  out_total : nat;
}.

(** [HFailed]: an exception escaped [post] at line 210 (it is not the
    [IndexError] of line 214); Tornado answers 500 and lines 219-223 are
    never reached. *)
Inductive hstate :=
  | HJoining
  | HDraining (o : search_out)
  | HDone (o : search_out)
  | HFailed.

Record search := mk_search {
  sq : queue (option string);
  sworkers : list sworker;
  responses : list (option rbody);
  handler : hstate;
}.

Inductive search_event :=
  | SEDequeue (i : nat)
  | SEFetchDone (i : nat)
  | SEJoin
  | SEFinish.

(** Lines 198-204: the queue filled, the workers started. *)
Definition search_start (peers : list string) : search :=
  mk_search (q_put_all (map Some peers) q_empty) (replicate WORKERS SWIdle) [] HJoining.

(** Lines 171-174: worker [i] resumed by [async for] with an item. *)
Definition search_dequeue (i : nat) (s : search) : option search :=
  match sworkers s !! i, q_get (sq s) with
  | Some SWIdle, Some (None, q) => Some (mk_search q (<[i:=SWExited]> (sworkers s)) (responses s) (handler s))
  | Some SWIdle, Some (Some p, q) =>
      Some (mk_search q (<[i:=SWFetching p]> (sworkers s)) (responses s) (handler s))
  | _, _ => None
  end.

(** Lines 176-189: worker [i]'s fetch of [p] returned [r]: append, then
    [task_done] in the [finally]. *)
Definition search_fetch_done (i : nat) (r : string -> search_reply) (s : search) : option search :=
  match sworkers s !! i with
  | Some (SWFetching p) =>
      q ← q_task_done (sq s);
      Some (mk_search q (<[i:=SWIdle]> (sworkers s)) (responses s ++ [outcome (r p)]) (handler s))
  | _ => None
  end.

(** Line 206. *)
Definition good_responses (rs : list (option rbody)) : list rbody := omap id rs.

(** Lines 208-212: [None] when [r["results"]] raises for a response. *)
Definition aggregate (rs : list (option rbody)) : option search_out :=
  let good := good_responses rs in
  results ← mapM id good;
  Some (mk_out (concat results) (length good) (length rs)).

(** The join of line 205 returns: lines 206-221. *)
Definition search_join (s : search) : option search :=
  match handler s with
  | HJoining =>
      if q_joinable (sq s) then
        match aggregate (responses s) with
        | Some o => Some (mk_search (q_put_all (replicate WORKERS None) (sq s)) (sworkers s)
                           (responses s) (HDraining o))
        | None => Some (mk_search (sq s) (sworkers s) (responses s) HFailed)
        end
      else None
  | _ => None
  end.

Definition sexited (w : sworker) : bool := match w with SWExited => true | _ => false end.

(** Line 223: [await workers] returns once every worker has exited. *)
Definition search_finish (s : search) : option search :=
  match handler s with
  | HDraining o =>
      if forallb sexited (sworkers s) then Some (mk_search (sq s) (sworkers s) (responses s) (HDone o))
      else None
  | _ => None
  end.

Definition search_resume (replies : string -> search_reply) (ev : search_event) (s : search) : option search :=
  match ev with
  | SEDequeue i => search_dequeue i s
  | SEFetchDone i => search_fetch_done i replies s
  | SEJoin => search_join s
  | SEFinish => search_finish s
  end.

Definition search_step (replies : string -> search_reply) (s s' : search) : Prop :=
  exists ev, search_resume replies ev s = Some s'.

Fixpoint search_run (replies : string -> search_reply) (evs : list search_event) (s : search) : option search :=
  match evs with
  | [] => Some s
  | ev :: evs' => search_resume replies ev s ≫= search_run replies evs'
  end.

End Search.
