(* ===== verification/SearchInv.v ===== *)
(** * SearchInv: the invariant of a federated search

    Every state reached from [search_start peers] by any interleaving of
    the workers and the handler satisfies [search_inv]: while the handler
    waits on the join, the queue holds the peers not yet dequeued, the
    unfinished count is their number plus the number of fetches in
    flight, and the peers are exactly those queued, in flight or
    answered, [responses] holding the outcomes of the answered ones in
    the order they completed.  After the join the queue holds one [None]
    per idle worker and no fetch is in flight. *)

From S2P Require Import Prelude App WorkQueue Search.
Import WorkQueue Search.

Module SearchInv.

Definition fetching_of (ws : list sworker) : list string :=
  omap (fun w => match w with SWFetching p => Some p | _ => None end) ws.

Definition idle_of (ws : list sworker) : list unit :=
  omap (fun w => match w with SWIdle => Some () | _ => None end) ws.

Definition answered (replies : string -> search_reply) (done : list string) : list (option rbody) :=
  map (fun p => outcome (replies p)) done.

Definition phase_inv (peers : list string) (replies : string -> search_reply) (s : search) : Prop :=
  match handler s with
  | HJoining =>
      exists rem done, items (sq s) = map Some rem /\
        unfinished (sq s) = length rem + length (fetching_of (sworkers s)) /\
        peers ≡ₚ rem ++ fetching_of (sworkers s) ++ done /\ responses s = answered replies done /\
        Forall (fun w => sexited w = false) (sworkers s)
  | HDraining o | HDone o =>
      exists done, peers ≡ₚ done /\ responses s = answered replies done /\
        aggregate (responses s) = Some o /\ fetching_of (sworkers s) = [] /\
        items (sq s) = replicate (length (idle_of (sworkers s))) None
  | HFailed =>
      exists done, peers ≡ₚ done /\ responses s = answered replies done /\
        aggregate (responses s) = None /\ fetching_of (sworkers s) = [] /\ items (sq s) = [] /\
        Forall (fun w => sexited w = false) (sworkers s)
  end.

Record search_inv (peers : list string) (replies : string -> search_reply) (s : search) : Prop := {
  sinv_workers : length (sworkers s) = WORKERS;
  sinv_phase : phase_inv peers replies s;
}.

(** * Workers *)

Lemma fetching_of_lookup ws i p : ws !! i = Some (SWFetching p) -> p ∈ fetching_of ws.
Proof.
  intros Hi. apply list_elem_of_omap. exists (SWFetching p). split; [|done].
  by eapply list_elem_of_lookup_2.
Qed.

Lemma fetching_of_start ws i p :
  ws !! i = Some SWIdle -> fetching_of (<[i:=SWFetching p]> ws) ≡ₚ p :: fetching_of ws.
Proof.
  intros Hi. pose proof (omap_insert_perm (fun w => match w with SWFetching p => Some p | _ => None end)
                           ws i _ (SWFetching p) Hi) as H.
  simpl in H. rewrite app_nil_r in H. unfold fetching_of. rewrite H. solve_Permutation.
Qed.

Lemma fetching_of_finish ws i p :
  ws !! i = Some (SWFetching p) -> fetching_of ws ≡ₚ fetching_of (<[i:=SWIdle]> ws) ++ [p].
Proof.
  intros Hi. pose proof (omap_insert_perm (fun w => match w with SWFetching p => Some p | _ => None end)
                           ws i _ SWIdle Hi) as H.
  simpl in H. rewrite app_nil_r in H. unfold fetching_of. by rewrite H.
Qed.

Lemma fetching_of_exit ws i :
  ws !! i = Some SWIdle -> fetching_of (<[i:=SWExited]> ws) ≡ₚ fetching_of ws /\
  length (idle_of (<[i:=SWExited]> ws)) + 1 = length (idle_of ws).
Proof.
  intros Hi. split.
  - pose proof (omap_insert_perm (fun w => match w with SWFetching p => Some p | _ => None end)
                  ws i _ SWExited Hi) as H. simpl in H. by rewrite !app_nil_r in H.
  - pose proof (omap_insert_perm (fun w => match w with SWIdle => Some () | _ => None end)
                  ws i _ SWExited Hi) as H%Permutation_length. simpl in H.
    rewrite app_nil_r, length_app in H. unfold idle_of. simpl in *. lia.
Qed.

(** With no fetch in flight and no worker exited, every worker is idle. *)
Lemma idle_of_all ws :
  fetching_of ws = [] -> Forall (fun w => sexited w = false) ws -> length (idle_of ws) = length ws.
Proof.
  induction ws as [|[|p|] ws IH]; intros Hf Hx; simpl in *; [done| |done|].
  - inversion Hx. f_equal. by apply IH.
  - inversion Hx; done.
Qed.

Lemma fetching_of_replicate_idle n : fetching_of (replicate n SWIdle) = [].
Proof. by induction n. Qed.

(** * Preservation *)

Lemma search_inv_start peers replies : search_inv peers replies (search_start peers).
Proof.
  split; [reflexivity|]. unfold phase_inv, search_start; cbn [handler sq sworkers responses].
  destruct (q_put_all_items (map Some peers) q_empty) as [Hi Hu].
  exists peers, []. rewrite fetching_of_replicate_idle. cbn [items unfinished q_empty] in *. split_and!.
  - done.
  - rewrite Hu, length_map. cbn. lia.
  - by rewrite !app_nil_r.
  - done.
  - by apply Forall_replicate.
Qed.

Lemma search_inv_dequeue peers replies i s s' :
  search_inv peers replies s -> search_dequeue i s = Some s' -> search_inv peers replies s'.
Proof.
  intros [Hw Hp] Hd. unfold search_dequeue in Hd.
  destruct (sworkers s !! i) as [[| |]|] eqn:Hi; try done.
  unfold q_get in Hd. destruct (items (sq s)) as [|[p|] its] eqn:Hits; try done; simplify_eq;
    (split; [cbn [sworkers]; by rewrite length_insert|]); unfold phase_inv in *;
    cbn [handler sq sworkers responses items unfinished] in *; destruct (handler s); try done.
  - destruct Hp as (rem & done & Hr & Hu & Hperm & Hresp & Hx).
    rewrite Hits in Hr. destruct rem as [|p' rem']; simplify_eq/=.
    exists rem', done. rewrite fetching_of_start by done. split_and!; [done|simpl; lia| |done|].
    + rewrite Hperm. solve_Permutation.
    + by apply Forall_insert.
  - destruct Hp as (done & ? & ? & ? & ? & Hr). rewrite Hits in Hr. by destruct (length (idle_of _)).
  - destruct Hp as (done & ? & ? & ? & ? & Hr). rewrite Hits in Hr. by destruct (length (idle_of _)).
  - destruct Hp as (done & ? & ? & ? & ? & Hr & _). by rewrite Hits in Hr.
  - destruct Hp as (rem & done & Hr & _). rewrite Hits in Hr. by destruct rem.
  - destruct (fetching_of_exit _ _ Hi) as [Hf Hl].
    destruct Hp as (done & ? & ? & ? & Hf0 & Hr). exists done. split_and!; try done.
    + rewrite Hf0 in Hf. by apply Permutation_nil_r.
    + rewrite Hits, <-Hl, Nat.add_1_r in Hr. by simplify_eq/=.
  - destruct (fetching_of_exit _ _ Hi) as [Hf Hl].
    destruct Hp as (done & ? & ? & ? & Hf0 & Hr). exists done. split_and!; try done.
    + rewrite Hf0 in Hf. by apply Permutation_nil_r.
    + rewrite Hits, <-Hl, Nat.add_1_r in Hr. by simplify_eq/=.
  - destruct Hp as (done & ? & ? & ? & ? & Hr & _). by rewrite Hits in Hr.
Qed.

Lemma search_inv_fetch_done peers replies i s s' :
  search_inv peers replies s -> search_fetch_done i replies s = Some s' -> search_inv peers replies s'.
Proof.
  intros [Hw Hp] Hd. unfold search_fetch_done in Hd.
  destruct (sworkers s !! i) as [[|p|]|] eqn:Hi; try done.
  destruct (q_task_done (sq s)) as [q|] eqn:Hq; simplify_eq/=.
  apply q_task_done_Some in Hq as [Hq0 ->].
  pose proof (fetching_of_lookup _ _ _ Hi) as Hin. pose proof (fetching_of_finish _ _ _ Hi) as Hfin.
  split; [cbn [sworkers]; by rewrite length_insert|]. unfold phase_inv in *.
  cbn [handler sq sworkers responses items unfinished] in *.
  destruct (handler s); try (destruct Hp as (done & _ & _ & _ & Hf0 & _); rewrite Hf0 in Hin; set_solver).
  destruct Hp as (rem & done & Hr & Hu & Hperm & Hresp & Hx).
  exists rem, (done ++ [p]). pose proof (Permutation_length Hfin) as Hlen. rewrite length_app in Hlen.
  simpl in Hlen. split_and!; [done|lia| | |by apply Forall_insert].
  - rewrite Hperm, Hfin. solve_Permutation.
  - by rewrite Hresp; unfold answered; rewrite map_app.
Qed.

Lemma search_inv_join peers replies s s' :
  search_inv peers replies s -> search_join s = Some s' -> search_inv peers replies s'.
Proof.
  intros [Hw Hp] Hd. unfold search_join in Hd. unfold phase_inv in Hp.
  destruct (handler s) eqn:Hh; try done.
  destruct (q_joinable (sq s)) eqn:Hj; [|done]. apply Nat.eqb_eq in Hj.
  destruct Hp as (rem & done & Hr & Hu & Hperm & Hresp & Hx).
  destruct rem; [|simpl in Hu; lia]. destruct (fetching_of (sworkers s)) eqn:Hf; [|simpl in Hu; lia].
  simpl in Hperm, Hr.
  destruct (aggregate (responses s)) as [o|] eqn:Ha; simplify_eq; split; try done;
    unfold phase_inv; cbn [handler sq sworkers responses items unfinished].
  - exists done. split_and!; try done. destruct (q_put_all_items (replicate WORKERS (@None string)) (sq s)) as [-> _].
    by rewrite Hr, idle_of_all, Hw.
  - exists done. by split_and!.
Qed.

Lemma search_inv_finish peers replies s s' :
  search_inv peers replies s -> search_finish s = Some s' -> search_inv peers replies s'.
Proof.
  intros [Hw Hp] Hd. unfold search_finish in Hd. unfold phase_inv in Hp.
  destruct (handler s) eqn:Hh; try done. destruct (forallb _ _); simplify_eq. by split.
Qed.

Lemma search_step_inv peers replies s s' :
  search_inv peers replies s -> search_step replies s s' -> search_inv peers replies s'.
Proof.
  intros Hi [[i|i| |] Hev]; simpl in Hev;
    eauto using search_inv_dequeue, search_inv_fetch_done, search_inv_join, search_inv_finish.
Qed.

(** Every state reachable from the start satisfies the invariant. *)
Lemma search_inv_reachable peers replies s :
  rtc (search_step replies) (search_start peers) s -> search_inv peers replies s.
Proof.
  apply rtc_ind_r; [apply search_inv_start|]. eauto using search_step_inv.
Qed.

Lemma search_run_rtc replies evs s s' :
  search_run replies evs s = Some s' -> rtc (search_step replies) s s'.
Proof.
  revert s. induction evs as [|ev evs IH]; intros s Hr; simpl in Hr; [by simplify_eq|].
  destruct (search_resume replies ev s) as [s1|] eqn:Hs; [|done]. simpl in Hr.
  eapply rtc_l; [by exists ev|]. by apply IH.
Qed.

(** * The aggregate of the answered peers *)

Lemma peer_replies_cases replies p :
  malformed replies p = match replies p with SBody None => true | _ => false end /\
  peer_results replies p = match replies p with SBody (Some l) => Some l | _ => None end.
Proof. done. Qed.

Lemma good_responses_answered replies done :
  good_responses (answered replies done) = omap (fun p => outcome (replies p)) done.
Proof. induction done as [|p done IH]; simpl; [done|]. by destruct (outcome _); rewrite IH. Qed.

Lemma mapM_answered replies done :
  mapM id (omap (fun p => outcome (replies p)) done) =
  if existsb (malformed replies) done then None else Some (omap (peer_results replies) done).
Proof.
  induction done as [|p done IH]; simpl; [done|]. destruct (peer_replies_cases replies p) as [-> ->].
  unfold omap in IH. destruct (replies p) as [|[l|]]; simpl; rewrite ?IH; [done| |done]. by destruct (existsb _ _).
Qed.

Lemma aggregate_answered replies done :
  aggregate (answered replies done) =
  if existsb (malformed replies) done then None
  else Some (mk_out (concat (omap (peer_results replies) done)) (length (omap (peer_results replies) done))
               (length done)).
Proof.
  unfold aggregate. rewrite good_responses_answered, mapM_answered.
  destruct (existsb _ _) eqn:He; [done|]. simpl. f_equal. f_equal; [|by unfold answered; rewrite length_map].
  clear -He. induction done as [|p done IH]; simpl in *; [done|].
  apply orb_false_iff in He as [Hp He]. destruct (peer_replies_cases replies p) as [Hm ->].
  rewrite Hm in Hp. specialize (IH He). unfold omap in IH.
  destruct (replies p) as [|[l|]]; simpl; rewrite ?IH; done.
Qed.

(** * Progress *)

Lemma exists_fetching ws : fetching_of ws <> [] -> exists i p, ws !! i = Some (SWFetching p).
Proof.
  destruct (fetching_of ws) as [|p ps] eqn:Hf; [done|]. intros _.
  assert (Hp : p ∈ fetching_of ws) by (rewrite Hf; set_solver).
  apply list_elem_of_omap in Hp as ([|q|] & Hin & Hq); simplify_eq.
  apply list_elem_of_lookup_1 in Hin as [i Hi]. eauto.
Qed.

Lemma exists_idle ws :
  Exists (fun w => sexited w = false) ws -> fetching_of ws = [] -> exists i, ws !! i = Some SWIdle.
Proof.
  induction 1 as [[|p|] ws Hx|w ws _ IH]; intros Hf; simpl in *; try done.
  - by exists 0.
  - destruct w as [|p|]; simpl in Hf; [by exists 0|done|].
    destruct (IH Hf) as [i Hi]. by exists (S i).
Qed.

(** Every reachable state that is not final has a step: the search
    never deadlocks before its response. *)
Lemma search_progress peers replies s :
  search_inv peers replies s -> handler s <> HFailed -> (forall o, handler s <> HDone o) ->
  exists ev s', search_resume replies ev s = Some s'.
Proof.
  intros [Hw Hp] Hnf Hnd. unfold phase_inv in Hp. simpl.
  destruct (handler s) as [|o|o|] eqn:Hh; [| |by destruct (Hnd o)|done].
  - destruct Hp as (rem & done & Hr & Hu & Hperm & Hresp & Hx).
    destruct (decide (unfinished (sq s) = 0)) as [H0|H0].
    { exists SEJoin. simpl. unfold search_join. rewrite Hh.
      unfold q_joinable. rewrite H0. simpl. destruct (aggregate _); eauto. }
    destruct (decide (fetching_of (sworkers s) = [])) as [Hf|Hf].
    + destruct rem as [|p rem]; [simpl in Hu; rewrite Hf in Hu; done|].
      destruct (exists_idle (sworkers s)) as [i Hi]; [|done|].
      { destruct (sworkers s) as [|w ws]; [simpl in Hw; done|]. inversion Hx. by constructor. }
      exists (SEDequeue i). simpl. unfold search_dequeue, q_get. rewrite Hi, Hr. simpl. eauto.
    + destruct (exists_fetching _ Hf) as (i & p & Hi).
      exists (SEFetchDone i). simpl. unfold search_fetch_done. rewrite Hi, q_task_done_nonzero by done.
      simpl. eauto.
  - destruct Hp as (done & _ & _ & _ & Hf & Hr).
    destruct (forallb sexited (sworkers s)) eqn:Ha.
    { exists SEFinish. simpl. unfold search_finish. rewrite Hh, Ha. eauto. }
    destruct (exists_idle (sworkers s)) as [i Hi]; [|done|].
    { clear -Ha. induction (sworkers s) as [|w ws IH]; simpl in *; [done|].
      destruct (sexited w) eqn:Hw; [right; by apply IH|by left]. }
    assert (Hn : length (idle_of (sworkers s)) <> 0).
    { destruct (fetching_of_exit _ _ Hi) as [_ Hl]. lia. }
    exists (SEDequeue i). simpl. unfold search_dequeue, q_get. rewrite Hi, Hr.
    destruct (length (idle_of (sworkers s))); [done|]. simpl. eauto.
Qed.

(** After an exception at line 210 nothing can run again: the workers
    are all waiting in [async for] on an empty queue, none has exited. *)
Lemma search_failed_stuck peers replies s :
  search_inv peers replies s -> handler s = HFailed ->
  (forall ev, search_resume replies ev s = None) /\ Forall (fun w => w = SWIdle) (sworkers s).
Proof.
  intros [Hw Hp] Hh. unfold phase_inv in Hp. rewrite Hh in Hp.
  destruct Hp as (done & _ & _ & _ & Hf & Hr & Hx). split.
  - intros [i|i| |]; simpl.
    + unfold search_dequeue, q_get. rewrite Hr. by destruct (sworkers s !! i) as [[]|].
    + unfold search_fetch_done. destruct (sworkers s !! i) as [[|p|]|] eqn:Hi; try done.
      apply fetching_of_lookup in Hi. rewrite Hf in Hi. set_solver.
    + unfold search_join. by rewrite Hh.
    + unfold search_finish. by rewrite Hh.
  - clear -Hf Hx. induction Hx as [|[|p|] ws Hw Hx IH]; simpl in *; try done.
    constructor; [done|]. by apply IH.
Qed.

End SearchInv.
