(* ===== verification/SearchProps.v ===== *)
(** * SearchProps: what a federated search guarantees, and where it fails

    For every interleaving of the ten [search_worker]s and the handler:
    the response lists every peer once ([total]), counts the peers that
    answered with a body ([responded]) and concatenates their results
    lists, each peer's list kept whole and in order, the peers taken in
    the order their answers arrived (spec §4.4 and §8); a run that can
    go no further has the response written and the workers exited, or
    ended with the exception of line 210.  In that case the response is a
    500, not a client error, and the ten workers stay suspended on the
    queue for ever. *)

From S2P Require Import Prelude App WorkQueue Search SearchInv.
Import WorkQueue Search SearchInv.

Module SearchProps.

Definition ex_peers : list string := ["http://a/"; "http://b/"; "http://c/"].

(** Spec §8: [a] answers [1, 2], [b] times out, [c] answers [3]; [d]
    answers a body without ["results"]. *)
Definition ex_replies (p : string) : search_reply :=
  if decide (p = "http://a/") then SBody (Some ["1"; "2"])
  else if decide (p = "http://c/") then SBody (Some ["3"])
  else if decide (p = "http://d/") then SBody None
  else SFailed.

Definition ex_sentinels : list search_event := map SEDequeue (seq 0 WORKERS).

(** The workers 0, 1, 2 take [a], [b], [c]; [a] answers first, then [c], then [b]. *)
Definition ex_events : list search_event :=
  [SEDequeue 0; SEDequeue 1; SEDequeue 2; SEFetchDone 0; SEFetchDone 2; SEFetchDone 1; SEJoin]
  ++ ex_sentinels ++ [SEFinish].

Definition ex_end : search := default (search_start ex_peers) (search_run ex_replies ex_events (search_start ex_peers)).

(** [d] is searched too: the join raises. *)
Definition ex_bad_peers : list string := ["http://a/"; "http://d/"].
Definition ex_bad_events : list search_event :=
  [SEDequeue 0; SEDequeue 1; SEFetchDone 1; SEFetchDone 0; SEJoin].
Definition ex_failed : search :=
  default (search_start ex_bad_peers) (search_run ex_replies ex_bad_events (search_start ex_bad_peers)).

(** C6: aggregation.  Whenever the handler has written its response,
    no peer's body lacked ["results"], [total] is the number of peers,
    [responded] the number that answered with a body, and [results] the
    concatenation of their results lists in the order [order] in which
    their answers arrived, a permutation of the peers. *)
Theorem search_aggregation peers replies s o :
  rtc (search_step replies) (search_start peers) s -> handler s = HDraining o \/ handler s = HDone o ->
  exists order, order ≡ₚ peers /\ Forall (fun p => malformed replies p = false) peers /\
    o = mk_out (concat (omap (peer_results replies) order)) (length (omap (peer_results replies) peers))
          (length peers).
Proof.
  intros Hr Hh. destruct (search_inv_reachable _ _ _ Hr) as [_ Hp]. unfold phase_inv in Hp.
  destruct Hh as [Hh|Hh]; rewrite Hh in Hp; destruct Hp as (dn & Hperm & Hresp & Ha & _);
    rewrite Hresp, aggregate_answered in Ha; destruct (existsb _ _) eqn:He; simplify_eq;
    (exists dn; split_and!; [done| |by rewrite Hperm]);
    rewrite Hperm, Forall_forall; intros p Hp; apply not_true_iff_false; intros Hm;
    apply not_true_iff_false in He; apply He, existsb_exists; exists p; by rewrite <-list_elem_of_In.
Qed.

Lemma search_aggregation_witness :
  exists order, order ≡ₚ ex_peers /\ Forall (fun p => malformed ex_replies p = false) ex_peers /\
    mk_out ["1"; "2"; "3"] 2 3 =
    mk_out (concat (omap (peer_results ex_replies) order)) (length (omap (peer_results ex_replies) ex_peers))
      (length ex_peers).
Proof.
  apply (search_aggregation ex_peers ex_replies ex_end).
  - apply (search_run_rtc _ ex_events). vm_compute. reflexivity.
  - right. vm_compute. reflexivity.
Defined.

(** C20: the response fails only because of a peer: when line 210
    raises, some peer answered with a body whose ["results"] is missing
    or not a list. *)
Theorem search_fails_only_on_malformed peers replies s :
  rtc (search_step replies) (search_start peers) s -> handler s = HFailed ->
  exists p, p ∈ peers /\ malformed replies p = true.
Proof.
  intros Hr Hh. destruct (search_inv_reachable _ _ _ Hr) as [_ Hp]. unfold phase_inv in Hp.
  rewrite Hh in Hp. destruct Hp as (dn & Hperm & Hresp & Ha & _).
  rewrite Hresp, aggregate_answered in Ha. destruct (existsb _ _) eqn:He; [|done].
  apply existsb_exists in He as (p & Hin & Hm). exists p. rewrite Hperm, list_elem_of_In. done.
Qed.

Lemma search_fails_only_on_malformed_witness :
  exists p, p ∈ ex_bad_peers /\ malformed ex_replies p = true.
Proof.
  apply (search_fails_only_on_malformed ex_bad_peers ex_replies ex_failed).
  - apply (search_run_rtc _ ex_bad_events). vm_compute. reflexivity.
  - vm_compute. reflexivity.
Defined.

(** C7: no deadlock: a reachable state in which nothing can run is
    final, the response written and every worker exited, or the
    exception of line 210 raised. *)
Theorem search_stuck_is_final peers replies s :
  rtc (search_step replies) (search_start peers) s ->
  (forall ev, search_resume replies ev s = None) ->
  (exists o, handler s = HDone o) \/ handler s = HFailed.
Proof.
  intros Hr Hstuck. pose proof (search_inv_reachable _ _ _ Hr) as Hi.
  destruct (handler s) as [|o|o|] eqn:Hh; [| |by left; exists o|by right];
    (destruct (search_progress _ _ _ Hi) as (ev & s' & Hev);
     [by rewrite Hh|intros o'; by rewrite Hh|by rewrite Hstuck in Hev]).
Qed.

Lemma search_stuck_is_final_witness : (exists o, handler ex_end = HDone o) \/ handler ex_end = HFailed.
Proof.
  apply (search_stuck_is_final ex_peers ex_replies ex_end).
  - apply (search_run_rtc _ ex_events). vm_compute. reflexivity.
  - intros [i|i| |]; try (vm_compute; reflexivity);
      do 10 (destruct i as [|i]; [vm_compute; reflexivity|]); vm_compute; reflexivity.
Defined.

(** C21: a search that raised at line 210 answers 500, never reaches the
    sentinels of lines 219-221: its [WORKERS] workers stay suspended in
    [async for] on an empty queue for ever and nothing can resume them. *)
Theorem failed_search_leaks_workers peers replies s :
  rtc (search_step replies) (search_start peers) s -> handler s = HFailed ->
  (forall ev, search_resume replies ev s = None) /\
  length (sworkers s) = WORKERS /\ Forall (fun w => w = SWIdle) (sworkers s).
Proof.
  intros Hr Hh. pose proof (search_inv_reachable _ _ _ Hr) as Hi.
  destruct (search_failed_stuck _ _ _ Hi Hh) as [Hs Hw]. split_and!; [done| |done]. apply Hi.
Qed.

Lemma failed_search_leaks_workers_witness :
  (forall ev, search_resume ex_replies ev ex_failed = None) /\
  length (sworkers ex_failed) = WORKERS /\ Forall (fun w => w = SWIdle) (sworkers ex_failed).
Proof.
  apply (failed_search_leaks_workers ex_bad_peers ex_replies ex_failed).
  - apply (search_run_rtc _ ex_bad_events). vm_compute. reflexivity.
  - vm_compute. reflexivity.
Defined.

(** C22: the pool and the shared state stay within their bounds: every
    reachable state has exactly [WORKERS] workers, at most one response
    per peer, and, until the join, an unfinished-task count of at most
    the number of peers. *)
Theorem search_bounds peers replies s :
  rtc (search_step replies) (search_start peers) s ->
  length (sworkers s) = WORKERS /\ length (responses s) <= length peers /\
  (handler s = HJoining -> unfinished (sq s) <= length peers).
Proof.
  intros Hr. destruct (search_inv_reachable _ _ _ Hr) as [Hw Hp]. unfold phase_inv in Hp.
  split; [done|]. destruct (handler s) eqn:Hh;
    [destruct Hp as (rem & dn & _ & Hu & Hperm & Hresp & _)|destruct Hp as (dn & Hperm & Hresp & _)..];
    apply Permutation_length in Hperm; rewrite ?length_app in Hperm;
    rewrite Hresp; unfold answered; rewrite length_map; (split; [lia|intros; try discriminate; lia]).
Qed.

Lemma search_bounds_witness :
  length (sworkers ex_end) = WORKERS /\ length (responses ex_end) <= length ex_peers /\
  (handler ex_end = HJoining -> unfinished (sq ex_end) <= length ex_peers).
Proof.
  apply (search_bounds ex_peers ex_replies ex_end).
  apply (search_run_rtc _ ex_events). vm_compute. reflexivity.
Defined.

End SearchProps.
