(* ===== verification/Wire.v ===== *)
(** * Wire: what one node sends and another node reads

    The nodes of a federation run the same code, so what a node writes
    is what its peers parse.  Module [Wire] models [PeerHandler.get]
    (lines 85-92), the body it writes and what a remote [peer_worker]
    reads of it (lines 271-278); the [update_peers] argument of the
    service-info endpoint (line 63), which decides whether serving it
    runs [get_peers]; and the service type the packaged release
    announces, against the type test of the notify handler (line 138). *)

From S2P Require Import Prelude App Gossip Notify Refresh System SystemInv Config Routes.
Import Gossip Notify System SystemInv.

Module Wire.

(** Lines 63-67: [get_argument("update_peers", "true") == "true"] runs
    [get_peers] before the document is written; [None] is the argument
    left out. *)
Definition service_info_get (cfg : config) (update_peers : option string) (s : sys) : sys :=
  if String.eqb (default "true" update_peers) "true" then call_get_peers cfg s else s.

(** The body [PeerHandler.get] writes (line 92). *)
Record peers_response := mk_peers_response {
  pr_peers : list string;
  pr_last_updated : Z;
}.

(** [d.timestamp()] of a naive [datetime] [d] that holds UTC wall time
    ([datetime.utcnow()], [datetime.utcfromtimestamp(0)]): Python reads
    a naive value as local time, so the result is shifted by the host's
    offset from UTC at that wall time ([utc_offset], seconds east). *)
Definition naive_utc_timestamp (utc_offset : Z -> Z) (d : Z) : Z := d - utc_offset d.

(** Lines 85-92: once the [get_peers] call [k] has returned [peers],
    the handler commits and writes [list(peers)] with
    [last_peers_update.timestamp()] of the moment. *)
Definition peers_get (utc_offset : Z -> Z) (k : nat) (s : sys) : option peers_response :=
  match s_callers s !! k with
  | Some (CDone peers) =>
      Some (mk_peers_response (elements peers)
              (naive_utc_timestamp utc_offset (last_peers_update (s_app s))))
  | _ => None
  end.

(** Lines 271-278: the [peer_worker] that fetched [GET .../peers] reads
    [json.loads(r.body)["peers"]], a list of strings. *)
Definition read_peers_reply (r : peers_response) : get_reply := GetPeers (map Some (pr_peers r)).

(** The tag does not start at the first character of [String c r]. *)
Lemma type_compatible_cons c r :
  String.prefix FEDERATION_TYPE_TAG (String c r) = false ->
  type_compatible (String c r) = type_compatible r.
Proof.
  intros H. unfold type_compatible at 1. cbn [String.index]. rewrite H.
  unfold type_compatible. by destruct (String.index 0 FEDERATION_TYPE_TAG r).
Qed.

(** C26: the packaged service ([chord_federation_service], line 46 of
    its constants) announces the type ["ca.c3g.chord:federation:<v>"],
    which contains the tag line 138 tests for only when the version
    string [v] itself does: a node of the packaged release is never
    registered by a [chord_federation] node's notify handler. *)
Theorem packaged_service_type_rejected version :
  verified (InfoType (Constants.service_type version)) = type_compatible version.
Proof.
  unfold verified, Constants.service_type, Constants.SERVICE_ORGANIZATION, Constants.SERVICE_ARTIFACT.
  cbv [String.append]. by repeat (rewrite type_compatible_cons by reflexivity).
Qed.

End Wire.
