(* ===== verification/Node.v ===== *)
(** * Node: [get_peers] callers and notify handlers on one event loop

    The Tornado process of src/chord_federation/app.py runs every
    coroutine on one event loop sharing one [Application]: the calls of
    [get_peers] (lines 281-345, with their [peer_worker]s), modelled by
    [System], and the [PeerHandler.post] handlers of [/notify]
    (lines 94-163), modelled by [Notify].  A [node] holds both: the
    [sys] state and the program counter of every notify handler received
    so far.  A step resumes one coroutine at an await: a step of the
    [get_peers] system ([NSys]), the arrival of a notify, run up to its
    first fetch ([NNotify], [notify_start]), or the return of the fetch
    a handler is suspended at ([NResume], [notify_resume]).  The peers'
    service-info replies are a fixed function [info] of their URL.

    [node_inv]: the core of [SystemInv] (it speaks of no field a handler
    writes), the registry only grows from the one the process started
    with, every URL added to it was verified by its service-info and is
    not the node's own, and every [get_peers] call sees a registry
    between the initial one and the current one. *)

From S2P Require Import Prelude App DeadPeers WorkQueue Gossip GossipInv Refresh System SystemInv Notify.
Import DeadPeers WorkQueue Gossip GossipInv Refresh System SystemInv Notify.

Module Node.

Record node := mk_node {
  n_sys : sys;
  n_handlers : list nstate;
}.

Inductive node_event :=
  | NSys (ev : sys_event)
  | NNotify (req : notify_request)
  | NResume (k : nat).

(** Resume one coroutine of the event loop. *)
Definition node_resume (cfg : config) (info : string -> info_reply) (ev : node_event) (n : node)
    : option node :=
  let s := n_sys n in
  match ev with
  | NSys e => s' ← sys_resume cfg e s; Some (mk_node s' (n_handlers n))
  | NNotify req =>
      let '(a', st) := notify_start cfg (s_now s) (s_app s) req in
      Some (mk_node (mk_sys a' (s_now s) (s_callers s)) (n_handlers n ++ [st]))
  | NResume k =>
      match n_handlers n !! k with
      | Some (NFetching ctx u rest) =>
          let '(a', st) := notify_resume (s_now s) (s_app s) ctx u rest (info u) in
          Some (mk_node (mk_sys a' (s_now s) (s_callers s)) (<[k:=st]> (n_handlers n)))
      | _ => None
      end
  end.

Definition node_step (cfg : config) (info : string -> info_reply) (n n' : node) : Prop :=
  exists ev, node_resume cfg info ev n = Some n'.

(** The process after [Application.__init__] with the registry [t0]. *)
Definition node_init (t0 : gset string) (now : Z) : node := mk_node (sys_init t0 now) [].

(** The process after the import of the module (lines 23-56) and the
    construction of [application] (line 365) on the database file [f]. *)
Definition process_init (schema_peers : gset string) (cfg : config) (f : Registry.dbfile) (now : Z) : node :=
  node_init (Registry.boot schema_peers cfg f) now.

Fixpoint node_run (cfg : config) (info : string -> info_reply) (evs : list node_event) (n : node)
    : option node :=
  match evs with
  | [] => Some n
  | ev :: evs' => node_resume cfg info ev n ≫= node_run cfg info evs'
  end.

(** The registry a [get_peers] call works from: the list it iterates,
    or the set it returned. *)
Definition caller_view (cl : caller) : gset string :=
  match cl with
  | CJoining order _ _ _ | CDraining order _ _ _ => list_to_set order
  | CDone peers => peers
  end.

Record node_inv (cfg : config) (info : string -> info_reply) (t0 : gset string) (n : node) : Prop := {
  ni_core : sys_core cfg (n_sys n);
  ni_base : t0 ⊆ db (s_app (n_sys n));
  ni_gated : forall u, u ∈ db (s_app (n_sys n)) -> u ∉ t0 ->
    verified (info u) = true /\ u <> CHORD_URL cfg;
  ni_views : forall k cl, s_callers (n_sys n) !! k = Some cl ->
    t0 ⊆ caller_view cl /\ caller_view cl ⊆ db (s_app (n_sys n));
  ni_handlers : forall k ctx u rest, n_handlers n !! k = Some (NFetching ctx u rest) ->
    CHORD_URL cfg ∈ n_attempted ctx /\ u ∉ n_attempted ctx;
}.

(** * What a notify handler leaves alone *)

Lemma notify_loop_frame now a ctx l :
  contacting (notify_loop now a ctx l).1 = contacting a /\
  fetching_peers (notify_loop now a ctx l).1 = fetching_peers a.
Proof.
  induction l as [|[v|] l IH]; simpl; [unfold py_remove; by case_decide| |done].
  case_decide; [done|]. by destruct (recently_errored _ _ _).
Qed.

Lemma notify_start_frame cfg now a req :
  contacting (notify_start cfg now a req).1 = contacting a /\
  fetching_peers (notify_start cfg now a req).1 = fetching_peers a /\
  db (notify_start cfg now a req).1 = db a.
Proof.
  unfold notify_start. destruct req as [self [l|]|]; simpl; [|case_decide; done|done].
  case_decide; [done|]. rewrite notify_loop_db. by destruct (notify_loop_frame now
    (set_notifying (py_add self (notifying a)) a) (mk_nctx self {[CHORD_URL cfg]} (peer_cache_invalidated a)) l).
Qed.

Lemma notify_resume_frame now a ctx u rest r :
  contacting (notify_resume now a ctx u rest r).1 = contacting a /\
  fetching_peers (notify_resume now a ctx u rest r).1 = fetching_peers a /\
  db a ⊆ db (notify_resume now a ctx u rest r).1.
Proof.
  unfold notify_resume. destruct (notify_fetched now a ctx u r) as [a1 ctx1] eqn:Hf.
  destruct (notify_fetched_spec _ _ _ _ _ _ _ Hf) as (_ & _ & _ & Hd & _).
  rewrite notify_loop_db. destruct (notify_loop_frame now a1 ctx1 rest) as [-> ->].
  split_and!; [..|rewrite Hd; destruct (verified r); set_solver];
    (destruct r as [|t]; simpl in Hf; [|destruct (type_compatible t)]; by simplify_eq).
Qed.

(** * Preservation of [node_inv] *)

Lemma caller_view_same cl cl' :
  caller_order cl' = caller_order cl -> is_Some (caller_order cl) -> caller_view cl' = caller_view cl.
Proof. intros Ho [o Hs]. destruct cl, cl'; simpl in *; congruence. Qed.

Lemma node_inv_init cfg info t0 now : node_inv cfg info t0 (node_init t0 now).
Proof. split; simpl; [apply sys_core_init|done|set_solver|..]; intros *; by rewrite lookup_nil. Qed.

(** A step of the [get_peers] system leaves the registry as it is: the
    join inserts a list read from it. *)
Lemma node_inv_sys cfg info t0 s s' hs :
  node_inv cfg info t0 (mk_node s hs) -> sys_step cfg s s' -> node_inv cfg info t0 (mk_node s' hs).
Proof.
  intros [Hc Hb Hg Hv Hh] Hs. simpl in *. pose proof (sys_core_step _ _ _ Hc Hs) as Hc'.
  assert (Hview : forall cl, caller_view cl = db (s_app s) -> t0 ⊆ caller_view cl /\ caller_view cl ⊆ db (s_app s))
    by (intros cl ->; set_solver).
  destruct (sys_step_shape _ _ _ Hs) as [(Hcs & Hd)|[(Hcs & Hd)|[(Hcs & Hd)|[Hw|[Hj|Hdone]]]]].
  - split; simpl; rewrite ?Hcs, ?Hd; done.
  - split; simpl; rewrite ?Hcs, ?Hd; try done.
    intros k cl [Hk| ->]%lookup_snoc_cases; [by eapply Hv|by apply Hview].
  - split; simpl; rewrite ?Hcs, ?Hd; try done.
    intros k cl [Hk| ->]%lookup_snoc_cases; [by eapply Hv|apply Hview; apply list_to_set_elements_L].
  - destruct Hw as (k & cl & cl' & Hk & Hcs & Hor & Hso & Hd).
    split; simpl; rewrite ?Hcs, ?Hd; try done.
    intros j cj Hj. lookup_insert_cases Hj; [rewrite (caller_view_same cl cj Hor Hso)|]; by eapply Hv.
  - destruct Hj as (k & order & c & ws & log & Hk & Hcs & Hd).
    destruct (Hv k _ Hk) as [_ Ho]. simpl in Ho.
    assert (Hd' : db (s_app s') = db (s_app s)) by (rewrite Hd; set_solver).
    split; simpl; rewrite ?Hcs, ?Hd'; try done.
    intros j cj Hj. lookup_insert_cases Hj; [|by eapply Hv]. exact (Hv _ _ Hk).
  - destruct Hdone as (k & order & c & ws & log & Hk & Hcs & Hd).
    split; simpl; rewrite ?Hcs, ?Hd; try done.
    intros j cj Hj. lookup_insert_cases Hj; [|by eapply Hv]. exact (Hv _ _ Hk).
Qed.

(** The registry after a handler step from [a] to [a']: it grew by
    URLs verified by their service-info, none of them the node's own. *)
Lemma gated_grow cfg info (t0 : gset string) (a a' : app) :
  db a ⊆ db a' ->
  (forall u, u ∈ db a' -> u ∉ db a -> verified (info u) = true /\ u <> CHORD_URL cfg) ->
  (forall u, u ∈ db a -> u ∉ t0 -> verified (info u) = true /\ u <> CHORD_URL cfg) ->
  forall u, u ∈ db a' -> u ∉ t0 -> verified (info u) = true /\ u <> CHORD_URL cfg.
Proof. intros Hs Hn Ho u Hu Ht. destruct (decide (u ∈ db a)); [by apply Ho|by apply Hn]. Qed.

Lemma node_inv_notify cfg info t0 s hs req a' st :
  node_inv cfg info t0 (mk_node s hs) -> notify_start cfg (s_now s) (s_app s) req = (a', st) ->
  node_inv cfg info t0 (mk_node (mk_sys a' (s_now s) (s_callers s)) (hs ++ [st])).
Proof.
  intros [Hc Hb Hg Hv Hh] Hst. simpl in *.
  destruct (notify_start_frame cfg (s_now s) (s_app s) req) as (Hct & Hf & Hd).
  pose proof (gated_start cfg info (s_now s) (s_app s) req) as [_ Hgs].
  rewrite Hst in Hct, Hf, Hd, Hgs. simpl in *.
  split; simpl; rewrite ?Hd; try done.
  - by apply sys_core_app_irrel.
  - intros k ctx u rest [Hk|Hst']%lookup_snoc_cases; [by eapply Hh|]. subst st. simpl in Hgs. naive_solver.
Qed.

Lemma node_inv_resume cfg info t0 s hs k ctx u rest a' st :
  node_inv cfg info t0 (mk_node s hs) -> hs !! k = Some (NFetching ctx u rest) ->
  notify_resume (s_now s) (s_app s) ctx u rest (info u) = (a', st) ->
  node_inv cfg info t0 (mk_node (mk_sys a' (s_now s) (s_callers s)) (<[k:=st]> hs)).
Proof.
  intros [Hc Hb Hg Hv Hh] Hk Hr. simpl in *.
  destruct (notify_resume_frame (s_now s) (s_app s) ctx u rest (info u)) as (Hct & Hf & Hd).
  destruct (Hh k ctx u rest Hk) as [Hme Hu].
  pose proof (gated_resume cfg info (s_app s) (PEUrl u :: rest) (s_now s) (s_app s) ctx u rest) as Hgr.
  rewrite Hr in Hct, Hf, Hd, Hgr. destruct Hgr as [Hgd Hgs];
    [split; [intros v Hv1 Hv2; done|split_and!; [done|done|constructor|by apply suffix_cons_r]]|].
  simpl in *. split; simpl; try done.
  - by apply sys_core_app_irrel.
  - set_solver.
  - apply (gated_grow cfg info t0 (s_app s) a'); [done| |done]. intros v Hv1 Hv2. by destruct (Hgd v Hv1 Hv2) as (? & _ & ?).
  - intros j cj Hj. split; [by eapply Hv|]. etrans; [by eapply Hv|done].
  - intros j ctx' v rest' Hj. lookup_insert_cases Hj; [naive_solver|by eapply Hh].
Qed.

Lemma node_step_inv cfg info t0 n n' :
  node_inv cfg info t0 n -> node_step cfg info n n' -> node_inv cfg info t0 n'.
Proof.
  destruct n as [s hs]. intros Hi [[e|req|k] Hev]; simpl in Hev.
  - destruct (sys_resume cfg e s) as [s'|] eqn:He; simplify_eq/=.
    eapply node_inv_sys; [done|by exists e].
  - destruct (notify_start _ _ _ _) as [a' st] eqn:Hst. simplify_eq. by eapply node_inv_notify.
  - destruct (hs !! k) as [[ctx u rest|]|] eqn:Hk; try done.
    destruct (notify_resume _ _ _ _ _ _) as [a' st] eqn:Hr. simplify_eq. by eapply node_inv_resume.
Qed.

Lemma node_inv_reachable cfg info t0 now n :
  rtc (node_step cfg info) (node_init t0 now) n -> node_inv cfg info t0 n.
Proof. apply rtc_ind_r; [apply node_inv_init|]. eauto using node_step_inv. Qed.

Lemma node_run_rtc cfg info evs n n' : node_run cfg info evs n = Some n' -> rtc (node_step cfg info) n n'.
Proof.
  revert n. induction evs as [|ev evs IH]; intros n H; simpl in H; [by simplify_eq|].
  destruct (node_resume cfg info ev n) as [m|] eqn:Hm; [|done].
  eapply rtc_l; [by exists ev|by apply IH].
Qed.

(** * The node *)

Definition ex_cfg : config := mk_config "http://me/" "http://registry/".

(** [x] is a federation node; every other URL is down. *)
Definition ex_info (u : string) : info_reply :=
  if decide (u = "http://x/") then InfoType "ca.distributedgenomics:chord_federation:0.1.0" else InfoFailed.

(** A [get_peers] call starts a gossip cycle; while its worker is
    suspended, [p] notifies the node of [x] and of the node itself; the
    worker then skips the node, and the handler's fetch of [x] returns. *)
Definition ex_events : list node_event :=
  [NSys SCall; NNotify (NRBody "http://p/" (PVList [PEUrl "http://me/"; PEUrl "http://x/"]));
   NSys (SWorker 0 (EvDequeue 0)); NResume 0].

(** A process started without a database file. *)
Definition ex_start : node := process_init ∅ ex_cfg Registry.NoFile 10000.

Definition ex_node : node := default ex_start (node_run ex_cfg ex_info ex_events ex_start).

(** C1: the process started on a database file [f] keeps, in every
    state reachable by any interleaving of [get_peers] calls, their
    workers, notify handlers and the clock: at most one call is joining a
    gossip cycle and [fetching_peers] is set exactly while one is; the
    registry holds the one the bootstrap left, which has the node's own
    URL and the registry's when [f] had no [peers] table; every URL a
    notify handler added answered its service-info request with the
    federation type and is not the node's own URL; and every call of
    [get_peers] returned a set between the booted registry and the
    current one. *)
Theorem process_registry_gated schema_peers cfg info f now n :
  let t0 := Registry.boot schema_peers cfg f in
  rtc (node_step cfg info) (process_init schema_peers cfg f now) n ->
  n_joining (s_callers (n_sys n)) <= 1 /\
  fetching_peers (s_app (n_sys n)) = bool_decide (0 < n_joining (s_callers (n_sys n))) /\
  t0 ⊆ db (s_app (n_sys n)) /\
  (Registry.peers_table f = None ->
     CHORD_URL cfg ∈ db (s_app (n_sys n)) /\ CHORD_REGISTRY_URL cfg ∈ db (s_app (n_sys n))) /\
  (forall u, u ∈ db (s_app (n_sys n)) -> u ∉ t0 -> verified (info u) = true /\ u <> CHORD_URL cfg) /\
  (forall k peers, s_callers (n_sys n) !! k = Some (CDone peers) -> t0 ⊆ peers /\ peers ⊆ db (s_app (n_sys n))).
Proof.
  intros t0 Hr. destruct (node_inv_reachable cfg info t0 now n Hr) as [[Hone Hf _ _ _] Hb Hg Hv _].
  split_and!; [done..| |done|].
  - intros Hp. destruct (Registry.boot_seeded schema_peers cfg f Hp). set_solver.
  - intros k peers Hk. exact (Hv k _ Hk).
Qed.

Lemma process_registry_gated_witness :
  let n := ex_node in
  let t0 := Registry.boot ∅ ex_cfg Registry.NoFile in
  n_joining (s_callers (n_sys n)) <= 1 /\
  fetching_peers (s_app (n_sys n)) = bool_decide (0 < n_joining (s_callers (n_sys n))) /\
  t0 ⊆ db (s_app (n_sys n)) /\
  (Registry.peers_table Registry.NoFile = None ->
     CHORD_URL ex_cfg ∈ db (s_app (n_sys n)) /\ CHORD_REGISTRY_URL ex_cfg ∈ db (s_app (n_sys n))) /\
  (forall u, u ∈ db (s_app (n_sys n)) -> u ∉ t0 -> verified (ex_info u) = true /\ u <> CHORD_URL ex_cfg) /\
  (forall k peers, s_callers (n_sys n) !! k = Some (CDone peers) -> t0 ⊆ peers /\ peers ⊆ db (s_app (n_sys n))).
Proof.
  apply (process_registry_gated ∅ ex_cfg ex_info Registry.NoFile 10000 ex_node).
  apply (node_run_rtc _ _ ex_events). vm_compute. reflexivity.
Defined.

End Node.
